(** * single-spa: reroute scheduler, load lifecycle and deferred navigation events

    A shallow embedding of
      - [src/lifecycles/load.js]           ([toLoadPromise], [start], [isStarted]),
      - [src/navigation/reroute.js]        ([reroute] and its inner functions),
      - [src/navigation/navigation-events.js] ([callCapturedEventListeners],
        [patchHistoryApi] and the patched listener registration).

    The program is written in promise-passing style.  Promises are kept in a
    store, the callbacks handed to [then]/[catch] are closures of the source
    turned into constructors of [kont] (one constructor per callback, its
    arguments being the variables the closure captures), and a FIFO job queue
    plays the part of the microtask queue.  Every callback body is a function
    in a state-and-exception monad over the store. *)

From stdpp Require Import base option list strings functions.

Set Warnings "-register-all".
Open Scope string_scope.
Open Scope list_scope.

(** ** Values *)

Abbreviation pid := nat (only parsing).      (* reference to a promise in the store *)
Abbreviation appid := nat (only parsing).    (* reference to an application record *)
Abbreviation cid := nat (only parsing).      (* reference to the variables of one [reroute] call *)
Abbreviation listener := nat (only parsing). (* identity of a listener function *)

(** Application status constants (app.helpers.js). *)
Inductive status :=
  | NOT_LOADED | LOADING_SOURCE_CODE | NOT_BOOTSTRAPPED | BOOTSTRAPPING
  | NOT_MOUNTED | MOUNTING | MOUNTED | UNMOUNTING | UNLOADING
  | LOAD_ERROR | SKIP_BECAUSE_BROKEN.

Global Instance status_eq_dec : EqDecision status.
Proof. solve_decision. Defined.

(** A lifecycle property of a loaded module: a function or an array of [n]
    functions, or some other value. *)
Inductive lcval := LcFns (n : nat) | LcNotFn.

(** The own properties of a loaded module that the loader looks at;
    [None] is a property the object does not have. *)
Record exports := {
  e_bootstrap : option lcval;
  e_mount : option lcval;
  e_unmount : option lcval;
  e_unload : option lcval
}.

Definition no_exports : exports :=
  {| e_bootstrap := None; e_mount := None; e_unmount := None; e_unload := None |}.

(** JavaScript values as far as the loader and [cancelNavigation] tell them
    apart. *)
Inductive jsval :=
  | JUndefined | JNull
  | JBool (b : bool) | JNum (n : nat) | JStr (s : string)
  | JObject (e : exports).

Inductive err :=
  | ErrCode (n : nat)       (* Error(formatErrorMessage(n, ...)) *)
  | ErrUser (n : nat)       (* a value thrown or rejected by application code *)
  | TypeError.

Inductive val :=
  | VJs (j : jsval)
  | VApp (a : appid)
  | VProm (p : pid)
  | VErr (e : err)
  | VList (vs : list val)
  | VNames (ns : list string).

Definition undefined : val := VJs JUndefined.

(** JavaScript truthiness ([cancelValues.some((v) => v)]). *)
Definition truthy (v : val) : bool :=
  match v with
  | VJs JUndefined | VJs JNull => false
  | VJs (JBool b) => b
  | VJs (JNum n) => negb (Nat.eqb n 0)
  | VJs (JStr s) => negb (String.eqb s "")
  | _ => true
  end.

Record event := { ev_type : string; ev_id : nat }.

(** One entry of [peopleWaitingOnAppChange] / [pendingPromises]: [resolve] and
    [reject] are the resolving functions of the promise [pp_promise]. *)
Record pending_request := {
  pp_promise : pid;
  pp_eventArguments : option event
}.

(** ** Callbacks of the source, one constructor per closure *)

Inductive kont :=
  (* load.js *)
  | KLoadStart (a : appid)
  | KCallLoadApp (a : appid) (l : nat)
  | KLoadResolved (a : appid) (l : nat)
  | KLoadCatch (a : appid) (l : nat)
  (* reroute.js: cancelNavigation *)
  | KCancelCatch
  (* reroute.js: loadApps *)
  | KLoadApps (c : cid)
  | KLoadAppsListeners (c : cid)
  | KLoadAppsEmpty
  | KLoadAppsCatch (c : cid)
  | KFinallyThen
  | KFinallyCatch
  | KConst (v : val)
  | KThrow (v : val)
  (* reroute.js: performAppChanges *)
  | KPerformAppChanges (c : cid)
  | KCancelValues (c : cid)
  | KBeforeMount (c : cid)
  | KRethrow
  | KToUnloadPromise
  | KLoadedTryMount (up : pid)
  | KUnmountCatch (c : cid)
  | KUnmountDone (c : cid) (loadThenMountPromises mountPromises : list pid)
  | KRejectPending (c : cid)
  | KFinishUpAndReturn (c : cid)
  | KProfileOk
  (* reroute.js: tryToBootstrapAndMount *)
  | KBootstrapped (up : pid)
  | KMountIfActive (a : appid) (up : pid)
  | KReturnApp (a : appid).

(** ** The promise store *)

Inductive outcome := Fulfilled (v : val) | Rejected (v : val).

(** A promise reaction. *)
Inductive handler :=
  | HThen (onF onR : option kont) (d : pid)  (* p.then(onF, onR), result promise d *)
  | HAdopt (d : pid)                         (* the resolving functions of d *)
  | HAll (agg : pid) (i : nat).              (* Promise.all: element i of agg *)

Inductive pstate := Pending (rs : list handler) | Settled (o : outcome).

(** The lifecycle drivers that live outside the modelled files. *)
Inductive extop := OpBootstrap | OpMount | OpUnmount | OpUnload.

(** Promises whose settlement is decided outside the modelled files. *)
Inductive extkind :=
  | EOp (op : extop) (a : appid)   (* returned by a lifecycle driver *)
  | ELoad (a : appid)              (* returned by an application's loading function *)
  | ECancel.                       (* handed to cancelNavigation *)

(** How a promise came to be (bookkeeping; no operation reads it except the
    environment's settling of [PExt] promises). *)
Inductive prov :=
  | PPlain
  | PThen (p : pid) (onF onR : option kont)
  | PAll (inputs : list pid)
  | PExt (k : extkind).

Record pcell := {
  pst : pstate;
  locked : option pid;         (* resolved with this thenable, not yet settled *)
  slots : list (option val);   (* Promise.all: values collected so far *)
  pprov : prov
}.

Inductive job :=
  | JReact (h : handler) (o : outcome)
  | JThenable (d q : pid).

(** ** Application records and the rest of the state *)

Record app := {
  name : string;
  app_status : status;
  loadErrorTime : option nat;
  loadPromise : option pid;
  lifecycles : option exports
}.

(** The variables of one load attempt: [appOrParcel] and
    [let appOpts, isUserErr]. *)
Record load_frame := { lf_app : appid; appOpts : option val; isUserErr : bool }.

(** The variables of one [reroute] call. *)
Record frame := {
  pendingPromises : list pending_request;
  eventArguments : option event;
  silentNavigation : bool;
  appsToUnload : list appid;
  appsToUnmount : list appid;
  appsToLoad : list appid;
  appsToMount : list appid;
  appsThatChanged : list appid;
  cancelPromises : list pid;
  oldUrl : string;
  newUrl : string
}.

Record detail := {
  newAppStatuses : list (string * status);
  appsByNewStatus : list (status * list string);
  totalAppChanges : nat;
  originalEvent : option event;
  d_oldUrl : string;
  d_newUrl : string;
  d_cancelNavigation : bool
}.

(** What the program does to the outside world. *)
Inductive obs :=
  | ObsDispatch (c : cid) (nm : string) (d : detail) (* window.dispatchEvent(new CustomEvent("single-spa:" + nm, d)) *)
  | ObsListener (c : cid) (l : listener) (e : event) (* listener.apply(this, eventArguments) *)
  | ObsCall (op : extop) (a : appid) (p : pid)      (* a lifecycle driver is called and returns p *)
  | ObsLoadApp (a : appid) (l : nat)                (* app.loadApp(props), load attempt l *)
  | ObsReplaceState (url : string)                  (* originalReplaceState.call(...) *)
  | ObsPopState (trigger : string)                  (* artificial popstate event *)
  | ObsAppError (a : appid) (st : status)           (* handleAppError *)
  | ObsConsole (code : nat)                         (* console.warn / console.error *)
  | ObsAsyncThrow.                                  (* setTimeout(() => { throw e }) *)

Record captured := { hashchange : list listener; popstate : list listener }.

Record state := {
  heap : list pcell;
  queue : list job;
  trace : list obs;
  apps : appid -> app;
  registered : list appid;
  frames : cid -> frame;
  nframes : nat;
  loadFrames : nat -> load_frame;
  nloads : nat;
  appChangeUnderway : bool;
  peopleWaitingOnAppChange : list pending_request;
  currentUrl : string;
  started : bool;
  capturedEventListeners : captured;
  urlRerouteOnly : bool;
  originalReplaceState : bool;
  historyApiIsPatched : bool;
  href : string;
  now : nat;
  ticks : nat
}.

(** Field updates. *)

Definition set_heap (x : _) (s : state) : state :=
  {| heap := x; queue := queue s; trace := trace s; apps := apps s; registered := registered
  s; frames := frames s; nframes := nframes s; loadFrames := loadFrames s; nloads := nloads s;
  appChangeUnderway := appChangeUnderway s; peopleWaitingOnAppChange :=
  peopleWaitingOnAppChange s; currentUrl := currentUrl s; started := started s;
  capturedEventListeners := capturedEventListeners s; urlRerouteOnly := urlRerouteOnly s;
  originalReplaceState := originalReplaceState s; historyApiIsPatched := historyApiIsPatched
  s; href := href s; now := now s; ticks := ticks s |}.

Definition set_queue (x : _) (s : state) : state :=
  {| heap := heap s; queue := x; trace := trace s; apps := apps s; registered := registered s;
  frames := frames s; nframes := nframes s; loadFrames := loadFrames s; nloads := nloads s;
  appChangeUnderway := appChangeUnderway s; peopleWaitingOnAppChange :=
  peopleWaitingOnAppChange s; currentUrl := currentUrl s; started := started s;
  capturedEventListeners := capturedEventListeners s; urlRerouteOnly := urlRerouteOnly s;
  originalReplaceState := originalReplaceState s; historyApiIsPatched := historyApiIsPatched
  s; href := href s; now := now s; ticks := ticks s |}.

Definition set_trace (x : _) (s : state) : state :=
  {| heap := heap s; queue := queue s; trace := x; apps := apps s; registered := registered s;
  frames := frames s; nframes := nframes s; loadFrames := loadFrames s; nloads := nloads s;
  appChangeUnderway := appChangeUnderway s; peopleWaitingOnAppChange :=
  peopleWaitingOnAppChange s; currentUrl := currentUrl s; started := started s;
  capturedEventListeners := capturedEventListeners s; urlRerouteOnly := urlRerouteOnly s;
  originalReplaceState := originalReplaceState s; historyApiIsPatched := historyApiIsPatched
  s; href := href s; now := now s; ticks := ticks s |}.

Definition set_apps (x : _) (s : state) : state :=
  {| heap := heap s; queue := queue s; trace := trace s; apps := x; registered := registered
  s; frames := frames s; nframes := nframes s; loadFrames := loadFrames s; nloads := nloads s;
  appChangeUnderway := appChangeUnderway s; peopleWaitingOnAppChange :=
  peopleWaitingOnAppChange s; currentUrl := currentUrl s; started := started s;
  capturedEventListeners := capturedEventListeners s; urlRerouteOnly := urlRerouteOnly s;
  originalReplaceState := originalReplaceState s; historyApiIsPatched := historyApiIsPatched
  s; href := href s; now := now s; ticks := ticks s |}.

Definition set_registered (x : _) (s : state) : state :=
  {| heap := heap s; queue := queue s; trace := trace s; apps := apps s; registered := x;
  frames := frames s; nframes := nframes s; loadFrames := loadFrames s; nloads := nloads s;
  appChangeUnderway := appChangeUnderway s; peopleWaitingOnAppChange :=
  peopleWaitingOnAppChange s; currentUrl := currentUrl s; started := started s;
  capturedEventListeners := capturedEventListeners s; urlRerouteOnly := urlRerouteOnly s;
  originalReplaceState := originalReplaceState s; historyApiIsPatched := historyApiIsPatched
  s; href := href s; now := now s; ticks := ticks s |}.

Definition set_frames (x : _) (s : state) : state :=
  {| heap := heap s; queue := queue s; trace := trace s; apps := apps s; registered :=
  registered s; frames := x; nframes := nframes s; loadFrames := loadFrames s; nloads :=
  nloads s; appChangeUnderway := appChangeUnderway s; peopleWaitingOnAppChange :=
  peopleWaitingOnAppChange s; currentUrl := currentUrl s; started := started s;
  capturedEventListeners := capturedEventListeners s; urlRerouteOnly := urlRerouteOnly s;
  originalReplaceState := originalReplaceState s; historyApiIsPatched := historyApiIsPatched
  s; href := href s; now := now s; ticks := ticks s |}.

Definition set_nframes (x : _) (s : state) : state :=
  {| heap := heap s; queue := queue s; trace := trace s; apps := apps s; registered :=
  registered s; frames := frames s; nframes := x; loadFrames := loadFrames s; nloads := nloads
  s; appChangeUnderway := appChangeUnderway s; peopleWaitingOnAppChange :=
  peopleWaitingOnAppChange s; currentUrl := currentUrl s; started := started s;
  capturedEventListeners := capturedEventListeners s; urlRerouteOnly := urlRerouteOnly s;
  originalReplaceState := originalReplaceState s; historyApiIsPatched := historyApiIsPatched
  s; href := href s; now := now s; ticks := ticks s |}.

Definition set_loadFrames (x : _) (s : state) : state :=
  {| heap := heap s; queue := queue s; trace := trace s; apps := apps s; registered :=
  registered s; frames := frames s; nframes := nframes s; loadFrames := x; nloads := nloads s;
  appChangeUnderway := appChangeUnderway s; peopleWaitingOnAppChange :=
  peopleWaitingOnAppChange s; currentUrl := currentUrl s; started := started s;
  capturedEventListeners := capturedEventListeners s; urlRerouteOnly := urlRerouteOnly s;
  originalReplaceState := originalReplaceState s; historyApiIsPatched := historyApiIsPatched
  s; href := href s; now := now s; ticks := ticks s |}.

Definition set_nloads (x : _) (s : state) : state :=
  {| heap := heap s; queue := queue s; trace := trace s; apps := apps s; registered :=
  registered s; frames := frames s; nframes := nframes s; loadFrames := loadFrames s; nloads
  := x; appChangeUnderway := appChangeUnderway s; peopleWaitingOnAppChange :=
  peopleWaitingOnAppChange s; currentUrl := currentUrl s; started := started s;
  capturedEventListeners := capturedEventListeners s; urlRerouteOnly := urlRerouteOnly s;
  originalReplaceState := originalReplaceState s; historyApiIsPatched := historyApiIsPatched
  s; href := href s; now := now s; ticks := ticks s |}.

Definition set_appChangeUnderway (x : _) (s : state) : state :=
  {| heap := heap s; queue := queue s; trace := trace s; apps := apps s; registered :=
  registered s; frames := frames s; nframes := nframes s; loadFrames := loadFrames s; nloads
  := nloads s; appChangeUnderway := x; peopleWaitingOnAppChange := peopleWaitingOnAppChange s;
  currentUrl := currentUrl s; started := started s; capturedEventListeners :=
  capturedEventListeners s; urlRerouteOnly := urlRerouteOnly s; originalReplaceState :=
  originalReplaceState s; historyApiIsPatched := historyApiIsPatched s; href := href s; now :=
  now s; ticks := ticks s |}.

Definition set_peopleWaitingOnAppChange (x : _) (s : state) : state :=
  {| heap := heap s; queue := queue s; trace := trace s; apps := apps s; registered :=
  registered s; frames := frames s; nframes := nframes s; loadFrames := loadFrames s; nloads
  := nloads s; appChangeUnderway := appChangeUnderway s; peopleWaitingOnAppChange := x;
  currentUrl := currentUrl s; started := started s; capturedEventListeners :=
  capturedEventListeners s; urlRerouteOnly := urlRerouteOnly s; originalReplaceState :=
  originalReplaceState s; historyApiIsPatched := historyApiIsPatched s; href := href s; now :=
  now s; ticks := ticks s |}.

Definition set_currentUrl (x : _) (s : state) : state :=
  {| heap := heap s; queue := queue s; trace := trace s; apps := apps s; registered :=
  registered s; frames := frames s; nframes := nframes s; loadFrames := loadFrames s; nloads
  := nloads s; appChangeUnderway := appChangeUnderway s; peopleWaitingOnAppChange :=
  peopleWaitingOnAppChange s; currentUrl := x; started := started s; capturedEventListeners :=
  capturedEventListeners s; urlRerouteOnly := urlRerouteOnly s; originalReplaceState :=
  originalReplaceState s; historyApiIsPatched := historyApiIsPatched s; href := href s; now :=
  now s; ticks := ticks s |}.

Definition set_started (x : _) (s : state) : state :=
  {| heap := heap s; queue := queue s; trace := trace s; apps := apps s; registered :=
  registered s; frames := frames s; nframes := nframes s; loadFrames := loadFrames s; nloads
  := nloads s; appChangeUnderway := appChangeUnderway s; peopleWaitingOnAppChange :=
  peopleWaitingOnAppChange s; currentUrl := currentUrl s; started := x; capturedEventListeners
  := capturedEventListeners s; urlRerouteOnly := urlRerouteOnly s; originalReplaceState :=
  originalReplaceState s; historyApiIsPatched := historyApiIsPatched s; href := href s; now :=
  now s; ticks := ticks s |}.

Definition set_capturedEventListeners (x : _) (s : state) : state :=
  {| heap := heap s; queue := queue s; trace := trace s; apps := apps s; registered :=
  registered s; frames := frames s; nframes := nframes s; loadFrames := loadFrames s; nloads
  := nloads s; appChangeUnderway := appChangeUnderway s; peopleWaitingOnAppChange :=
  peopleWaitingOnAppChange s; currentUrl := currentUrl s; started := started s;
  capturedEventListeners := x; urlRerouteOnly := urlRerouteOnly s; originalReplaceState :=
  originalReplaceState s; historyApiIsPatched := historyApiIsPatched s; href := href s; now :=
  now s; ticks := ticks s |}.

Definition set_urlRerouteOnly (x : _) (s : state) : state :=
  {| heap := heap s; queue := queue s; trace := trace s; apps := apps s; registered :=
  registered s; frames := frames s; nframes := nframes s; loadFrames := loadFrames s; nloads
  := nloads s; appChangeUnderway := appChangeUnderway s; peopleWaitingOnAppChange :=
  peopleWaitingOnAppChange s; currentUrl := currentUrl s; started := started s;
  capturedEventListeners := capturedEventListeners s; urlRerouteOnly := x;
  originalReplaceState := originalReplaceState s; historyApiIsPatched := historyApiIsPatched
  s; href := href s; now := now s; ticks := ticks s |}.

Definition set_originalReplaceState (x : _) (s : state) : state :=
  {| heap := heap s; queue := queue s; trace := trace s; apps := apps s; registered :=
  registered s; frames := frames s; nframes := nframes s; loadFrames := loadFrames s; nloads
  := nloads s; appChangeUnderway := appChangeUnderway s; peopleWaitingOnAppChange :=
  peopleWaitingOnAppChange s; currentUrl := currentUrl s; started := started s;
  capturedEventListeners := capturedEventListeners s; urlRerouteOnly := urlRerouteOnly s;
  originalReplaceState := x; historyApiIsPatched := historyApiIsPatched s; href := href s; now
  := now s; ticks := ticks s |}.

Definition set_historyApiIsPatched (x : _) (s : state) : state :=
  {| heap := heap s; queue := queue s; trace := trace s; apps := apps s; registered :=
  registered s; frames := frames s; nframes := nframes s; loadFrames := loadFrames s; nloads
  := nloads s; appChangeUnderway := appChangeUnderway s; peopleWaitingOnAppChange :=
  peopleWaitingOnAppChange s; currentUrl := currentUrl s; started := started s;
  capturedEventListeners := capturedEventListeners s; urlRerouteOnly := urlRerouteOnly s;
  originalReplaceState := originalReplaceState s; historyApiIsPatched := x; href := href s;
  now := now s; ticks := ticks s |}.

Definition set_href (x : _) (s : state) : state :=
  {| heap := heap s; queue := queue s; trace := trace s; apps := apps s; registered :=
  registered s; frames := frames s; nframes := nframes s; loadFrames := loadFrames s; nloads
  := nloads s; appChangeUnderway := appChangeUnderway s; peopleWaitingOnAppChange :=
  peopleWaitingOnAppChange s; currentUrl := currentUrl s; started := started s;
  capturedEventListeners := capturedEventListeners s; urlRerouteOnly := urlRerouteOnly s;
  originalReplaceState := originalReplaceState s; historyApiIsPatched := historyApiIsPatched
  s; href := x; now := now s; ticks := ticks s |}.

Definition set_now (x : _) (s : state) : state :=
  {| heap := heap s; queue := queue s; trace := trace s; apps := apps s; registered :=
  registered s; frames := frames s; nframes := nframes s; loadFrames := loadFrames s; nloads
  := nloads s; appChangeUnderway := appChangeUnderway s; peopleWaitingOnAppChange :=
  peopleWaitingOnAppChange s; currentUrl := currentUrl s; started := started s;
  capturedEventListeners := capturedEventListeners s; urlRerouteOnly := urlRerouteOnly s;
  originalReplaceState := originalReplaceState s; historyApiIsPatched := historyApiIsPatched
  s; href := href s; now := x; ticks := ticks s |}.

Definition set_ticks (x : _) (s : state) : state :=
  {| heap := heap s; queue := queue s; trace := trace s; apps := apps s; registered :=
  registered s; frames := frames s; nframes := nframes s; loadFrames := loadFrames s; nloads
  := nloads s; appChangeUnderway := appChangeUnderway s; peopleWaitingOnAppChange :=
  peopleWaitingOnAppChange s; currentUrl := currentUrl s; started := started s;
  capturedEventListeners := capturedEventListeners s; urlRerouteOnly := urlRerouteOnly s;
  originalReplaceState := originalReplaceState s; historyApiIsPatched := historyApiIsPatched
  s; href := href s; now := now s; ticks := x |}.

(** ** The state-and-exception monad of callback bodies *)

Inductive result (A : Type) := Ok (a : A) | Throw (e : val).
Arguments Ok {A} a.
Arguments Throw {A} e.

Definition M (A : Type) : Type := state -> result A * state.

Definition ret {A} (a : A) : M A := fun s => (Ok a, s).
Definition bind {A B} (m : M A) (f : A -> M B) : M B :=
  fun s => match m s with
           | (Ok a, s') => f a s'
           | (Throw e, s') => (Throw e, s')
           end.
Definition throw {A} (e : val) : M A := fun s => (Throw e, s).
Definition try_catch {A} (m : M A) (h : val -> M A) : M A :=
  fun s => match m s with
           | (Ok a, s') => (Ok a, s')
           | (Throw e, s') => h e s'
           end.
Definition get {A} (f : state -> A) : M A := fun s => (Ok (f s), s).
Definition modify (f : state -> state) : M unit := fun s => (Ok tt, f s).

Declare Scope m_scope.
Delimit Scope m_scope with M.
Notation "x <- m ;; k" := (bind m (fun x => k))
  (at level 100, m at next level, right associativity) : m_scope.
Notation "m ;;; k" := (bind m (fun _ => k))
  (at level 100, right associativity) : m_scope.
Open Scope m_scope.

(** [xs.forEach(f)] and [xs.map(f)] *)
Fixpoint forEach {A} (f : A -> M unit) (xs : list A) : M unit :=
  match xs with
  | [] => ret tt
  | x :: xs' => f x ;;; forEach f xs'
  end.

Fixpoint mapM {A B} (f : A -> M B) (xs : list A) : M (list B) :=
  match xs with
  | [] => ret []
  | x :: xs' => y <- f x ;; ys <- mapM f xs' ;; ret (y :: ys)
  end.

Definition log (o : obs) : M unit := modify (fun s => set_trace (trace s ++ [o]) s).

(** ** Promise operations *)

Definition new_cell (pv : prov) (n : nat) : pcell :=
  {| pst := Pending []; locked := None; slots := replicate n None; pprov := pv |}.

Definition alloc (pv : prov) (n : nat) : M pid :=
  fun s => (Ok (length (heap s)), set_heap (heap s ++ [new_cell pv n]) s).

Definition enqueue (j : job) : M unit := modify (fun s => set_queue (queue s ++ [j]) s).

Definition set_pst (st : pstate) (c : pcell) : pcell :=
  {| pst := st; locked := locked c; slots := slots c; pprov := pprov c |}.
Definition set_locked (q : option pid) (c : pcell) : pcell :=
  {| pst := pst c; locked := q; slots := slots c; pprov := pprov c |}.
Definition set_slots (sl : list (option val)) (c : pcell) : pcell :=
  {| pst := pst c; locked := locked c; slots := sl; pprov := pprov c |}.

Definition update_cell (p : pid) (f : pcell -> pcell) : M unit :=
  modify (fun s => set_heap (alter f p (heap s)) s).

(** Settle a pending promise and schedule its reactions; a settled promise
    stays as it is. *)
Definition settle (p : pid) (o : outcome) : M unit :=
  fun s => match heap s !! p with
           | Some c =>
               match pst c with
               | Pending rs =>
                   (Ok tt, set_queue (queue s ++ map (fun h => JReact h o) rs)
                             (set_heap (<[p := set_pst (Settled o) c]> (heap s)) s))
               | Settled _ => (Ok tt, s)
               end
           | None => (Ok tt, s)
           end.

(** The resolving functions of a promise: they act once. *)
Definition unresolved (c : pcell) : bool :=
  match pst c, locked c with
  | Pending _, None => true
  | _, _ => false
  end.

Definition resolve (p : pid) (v : val) : M unit :=
  fun s => match heap s !! p with
           | Some c =>
               if unresolved c then
                 match v with
                 | VProm q =>
                     if decide (q = p) then settle p (Rejected (VErr TypeError)) s
                     else (update_cell p (set_locked (Some q)) ;;; enqueue (JThenable p q)) s
                 | _ => settle p (Fulfilled v) s
                 end
               else (Ok tt, s)
           | None => (Ok tt, s)
           end.

Definition reject (p : pid) (e : val) : M unit :=
  fun s => match heap s !! p with
           | Some c => if unresolved c then settle p (Rejected e) s else (Ok tt, s)
           | None => (Ok tt, s)
           end.

(** Register a reaction: it waits on a pending promise and is scheduled at
    once on a settled one. *)
Definition subscribe (p : pid) (h : handler) : M unit :=
  fun s => match heap s !! p with
           | Some c =>
               match pst c with
               | Pending rs => (Ok tt, set_heap (<[p := set_pst (Pending (rs ++ [h])) c]> (heap s)) s)
               | Settled o => enqueue (JReact h o) s
               end
           | None => (Ok tt, s)
           end.

(** [p.then(onF, onR)], [p.catch(onR)] *)
Definition then_ (p : pid) (onF onR : option kont) : M pid :=
  d <- alloc (PThen p onF onR) 0 ;;
  subscribe p (HThen onF onR d) ;;;
  ret d.

Definition catch_ (p : pid) (onR : kont) : M pid := then_ p None (Some onR).

(** [Promise.resolve(v)] *)
Definition promise_resolve (v : val) : M pid :=
  match v with
  | VProm q => ret q
  | _ => d <- alloc PPlain 0 ;; settle d (Fulfilled v) ;;; ret d
  end.

(** [Promise.all(ps)] for an array of promises *)
Definition promise_all (ps : list pid) : M pid :=
  agg <- alloc (PAll ps) (length ps) ;;
  match ps with
  | [] => settle agg (Fulfilled (VList [])) ;;; ret agg
  | _ => forEach (fun ip => subscribe (snd ip) (HAll agg (fst ip))) (imap pair ps) ;;; ret agg
  end.

(** [p.finally(onFinally)] with an [onFinally] that does nothing *)
Definition finally_ (p : pid) : M pid := then_ p (Some KFinallyThen) (Some KFinallyCatch).

Fixpoint all_some {A} (l : list (option A)) : option (list A) :=
  match l with
  | [] => Some []
  | Some x :: l' => match all_some l' with Some xs => Some (x :: xs) | None => None end
  | None :: _ => None
  end.

(** Element [i] of a [Promise.all] settled. *)
Definition all_element (agg : pid) (i : nat) (o : outcome) : M unit :=
  match o with
  | Rejected e => reject agg e
  | Fulfilled v =>
      fun s => match heap s !! agg with
               | Some c =>
                   match slots c !! i with
                   | Some None =>
                       let sl := <[i := Some v]> (slots c) in
                       let s' := set_heap (<[agg := set_slots sl c]> (heap s)) s in
                       match all_some sl with
                       | Some vs => resolve agg (VList vs) s'
                       | None => (Ok tt, s')
                       end
                   | _ => (Ok tt, s)
                   end
               | None => (Ok tt, s)
               end
  end.

(** ** Application code and collaborators outside the modelled files

    The loading functions of applications, the activity functions, the diff of
    applications for the current URL and the listeners that application code
    registers are arbitrary: every function below takes them as the
    parameter [W].  The last argument of an oracle is the number of calls
    into application code made so far, so application code may behave
    differently on every call. *)

Inductive ext_result := ExtOk (j : jsval) | ExtFail (e : err).

(** The lifecycle drivers resolve with the record they were given. *)
Definition ext_outcome (k : extkind) (r : ext_result) : outcome :=
  match r with
  | ExtFail e => Rejected (VErr e)
  | ExtOk j => match k with
               | EOp _ a => Fulfilled (VApp a)
               | _ => Fulfilled (VJs j)
               end
  end.

Inductive load_result :=
  | LoadThrows (e : err)                  (* the loading function throws *)
  | LoadReturns (j : jsval)               (* it returns something that is not a promise *)
  | LoadPromise (o : option ext_result).  (* it returns a promise, pending or settled *)

Inductive cancel_arg :=
  | CancelVal (j : jsval)                 (* cancelNavigation(j), cancelNavigation() *)
  | CancelPromise (o : option ext_result). (* cancelNavigation(promise) *)

(** What a listener registered by application code may do when it is called. *)
Inductive action :=
  | ActCancelNavigation (arg : cancel_arg)   (* evt.detail.cancelNavigation(arg) *)
  | ActTriggerAppChange                      (* triggerAppChange() *)
  | ActPushState (url : string)              (* history.pushState(null, null, url) *)
  | ActAddEventListener (eventName : string) (fn : listener)
  | ActRemoveEventListener (eventName : string) (fn : listener)
  | ActThrow (e : err).

Record app_changes := {
  c_appsToUnload : list appid;
  c_appsToUnmount : list appid;
  c_appsToLoad : list appid;
  c_appsToMount : list appid
}.

Record world := {
  loadApp : appid -> nat -> load_result;       (* app.loadApp(props) *)
  shouldBeActive : appid -> string -> bool;    (* app.activeWhen(window.location) *)
  getAppChanges : (appid -> app) -> list appid -> string -> nat -> app_changes;
  spaListeners : string -> nat -> list action; (* listeners of "single-spa:<name>" *)
  listenerBody : listener -> event -> nat -> list action;
  location_origin : string                     (* location.origin *)
}.

Definition routingEventsListeningTo : list string := ["hashchange"; "popstate"].

Definition listeners_of (eventType : string) (c : captured) : list listener :=
  if String.eqb eventType "hashchange" then hashchange c
  else if String.eqb eventType "popstate" then popstate c
  else [].

Definition set_listeners (eventType : string) (ls : list listener) (c : captured) : captured :=
  if String.eqb eventType "hashchange" then {| hashchange := ls; popstate := popstate c |}
  else if String.eqb eventType "popstate" then {| hashchange := hashchange c; popstate := ls |}
  else c.

Definition in_routing_events (eventName : string) : bool :=
  existsb (String.eqb eventName) routingEventsListeningTo.

Definition tick : M nat :=
  fun s => (Ok (ticks s), set_ticks (S (ticks s)) s).

Definition update_app (a : appid) (f : app -> app) : M unit :=
  modify (fun s => set_apps (<[a := f (apps s a)]> (apps s)) s).

Definition set_status (st : status) (x : app) : app :=
  {| name := name x; app_status := st; loadErrorTime := loadErrorTime x;
     loadPromise := loadPromise x; lifecycles := lifecycles x |}.
Definition set_loadErrorTime (t : option nat) (x : app) : app :=
  {| name := name x; app_status := app_status x; loadErrorTime := t;
     loadPromise := loadPromise x; lifecycles := lifecycles x |}.
Definition set_loadPromise (p : option pid) (x : app) : app :=
  {| name := name x; app_status := app_status x; loadErrorTime := loadErrorTime x;
     loadPromise := p; lifecycles := lifecycles x |}.
Definition set_lifecycles (e : option exports) (x : app) : app :=
  {| name := name x; app_status := app_status x; loadErrorTime := loadErrorTime x;
     loadPromise := loadPromise x; lifecycles := e |}.

(** Modelled from the spec: [handleAppError] of applications/app-errors.js,
    which is not among the source files.  "status moves to the given status,
    the error is reported"; it does not throw. *)
Definition handleAppError (a : appid) (newStatus : status) : M unit :=
  update_app a (set_status newStatus) ;;;
  log (ObsAppError a newStatus).

(** Modelled from the spec: [validLifecycleFn] of lifecycles/lifecycle.helpers.js:
    "a single callable or an ordered sequence of callables". *)
Definition validLifecycleFn (f : option lcval) : bool :=
  match f with
  | Some (LcFns _) => true
  | _ => false
  end.

(** Modelled from the spec: [getMountedApps] of applications/apps.js, "the
    final active-app-name list": the names of the records whose status is
    MOUNTED. *)
Definition getMountedApps : M val :=
  s <- get id ;;
  ret (VNames (map (fun a => name (apps s a))
                 (filter (fun a => app_status (apps s a) = MOUNTED) (registered s)))).

(** A lifecycle driver of another file is called: it returns a promise that
    the environment settles. *)
Definition ext_call (op : extop) (a : appid) : M pid :=
  p <- alloc (PExt (EOp op a)) 0 ;;
  log (ObsCall op a p) ;;;
  ret p.

Definition toBootstrapPromise := ext_call OpBootstrap.
Definition toMountPromise := ext_call OpMount.
Definition toUnmountPromise := ext_call OpUnmount.
Definition toUnloadPromise := ext_call OpUnload.

(** A promise made by application code. *)
Definition ext_promise (k : extkind) (o : option ext_result) : M pid :=
  p <- alloc (PExt k) 0 ;;
  match o with
  | Some r => settle p (ext_outcome k r) ;;; ret p
  | None => ret p
  end.

Section Program.

Context (W : world).

(** ** lifecycles/load.js *)

Definition new_load_frame (a : appid) : M nat :=
  fun s => (Ok (nloads s),
            set_nloads (S (nloads s))
              (set_loadFrames
                 (<[nloads s := {| lf_app := a; appOpts := None; isUserErr := false |}]>
                    (loadFrames s)) s)).

Definition set_isUserErr (l : nat) (b : bool) : M unit :=
  modify (fun s => set_loadFrames
    (<[l := {| lf_app := lf_app (loadFrames s l);
               appOpts := appOpts (loadFrames s l); isUserErr := b |}]> (loadFrames s)) s).

Definition set_appOpts (l : nat) (v : val) : M unit :=
  modify (fun s => set_loadFrames
    (<[l := {| lf_app := lf_app (loadFrames s l);
               appOpts := Some v; isUserErr := isUserErr (loadFrames s l) |}]> (loadFrames s)) s).

(** The value a load promise resolved with, as the loader inspects it: an
    application record, an array or an error is an object without lifecycle
    properties. *)
Definition as_js (v : val) : jsval :=
  match v with
  | VJs j => j
  | _ => JObject no_exports
  end.

(** [typeof appOpts !== "object"] *)
Definition typeof_is_object (j : jsval) : bool :=
  match j with
  | JNull | JObject _ => true
  | _ => false
  end.

(** [Object.prototype.hasOwnProperty.call(appOpts, "bootstrap")] *)
Definition hasOwnProperty_bootstrap (j : jsval) : M bool :=
  match j with
  | JUndefined | JNull => throw (VErr TypeError)
  | JObject e => ret (bool_decide (is_Some (e_bootstrap e)))
  | _ => ret false
  end.

Definition prop_bootstrap (j : jsval) : option lcval :=
  match j with JObject e => e_bootstrap e | _ => None end.
Definition prop_mount (j : jsval) : option lcval :=
  match j with JObject e => e_mount e | _ => None end.
Definition prop_unmount (j : jsval) : option lcval :=
  match j with JObject e => e_unmount e | _ => None end.

Definition toLoadPromise (a : appid) : M pid :=
  p0 <- promise_resolve undefined ;;
  then_ p0 (Some (KLoadStart a)) None.

(** [() => { if (appOrParcel.loadPromise) ... }] *)
Definition load_start (a : appid) : M val :=
  x <- get (fun s => apps s a) ;;
  match loadPromise x with
  | Some lp => ret (VProm lp)
  | None =>
      if bool_decide (app_status x ≠ NOT_LOADED) && bool_decide (app_status x ≠ LOAD_ERROR)
      then ret (VApp a)
      else
        update_app a (set_status LOADING_SOURCE_CODE) ;;;
        l <- new_load_frame a ;;
        p0 <- promise_resolve undefined ;;
        d1 <- then_ p0 (Some (KCallLoadApp a l)) None ;;
        d2 <- catch_ d1 (KLoadCatch a l) ;;
        update_app a (set_loadPromise (Some d2)) ;;;
        ret (VProm d2)
  end.

(** [() => { const loadPromise = appOrParcel.loadApp(getProps(appOrParcel)); ... }] *)
Definition load_call (a : appid) (l : nat) : M val :=
  t <- tick ;;
  log (ObsLoadApp a l) ;;;
  match loadApp W a t with
  | LoadThrows e => throw (VErr e)
  | LoadReturns _ =>
      set_isUserErr l true ;;;
      throw (VErr (ErrCode 33))
  | LoadPromise o =>
      loadPromise <- ext_promise (ELoad a) o ;;
      d <- then_ loadPromise (Some (KLoadResolved a l)) None ;;
      ret (VProm d)
  end.

(** [(val) => { appOrParcel.loadErrorTime = null; ... }] *)
Definition load_resolved (a : appid) (l : nat) (v : val) : M val :=
  update_app a (set_loadErrorTime None) ;;;
  set_appOpts l v ;;;
  let appOpts := as_js v in
  let validationErrCode : option nat := None in
  let validationErrCode :=
    if negb (typeof_is_object appOpts) then Some 34 else validationErrCode in
  hasBootstrap <- hasOwnProperty_bootstrap appOpts ;;
  let validationErrCode :=
    if hasBootstrap && negb (validLifecycleFn (prop_bootstrap appOpts))
    then Some 35 else validationErrCode in
  let validationErrCode :=
    if negb (validLifecycleFn (prop_mount appOpts)) then Some 36 else validationErrCode in
  let validationErrCode :=
    if negb (validLifecycleFn (prop_unmount appOpts)) then Some 37 else validationErrCode in
  match validationErrCode with
  | Some code =>
      log (ObsConsole code) ;;;
      handleAppError a SKIP_BECAUSE_BROKEN ;;;
      ret (VApp a)
  | None =>
      (* the devtools overlays and the timeouts of the module are not modelled *)
      update_app a (set_status NOT_BOOTSTRAPPED) ;;;
      update_app a (set_lifecycles (match appOpts with JObject e => Some e | _ => None end)) ;;;
      update_app a (set_loadPromise None) ;;;
      ret (VApp a)
  end.

(** [(err) => { delete appOrParcel.loadPromise; ... }] *)
Definition load_catch (a : appid) (l : nat) (e : val) : M val :=
  update_app a (set_loadPromise None) ;;;
  userErr <- get (fun s => isUserErr (loadFrames s l)) ;;
  newStatus <-
    (if userErr then ret SKIP_BECAUSE_BROKEN
     else
       t <- get now ;;
       update_app a (set_loadErrorTime (Some t)) ;;;
       ret LOAD_ERROR) ;;
  handleAppError a newStatus ;;;
  ret (VApp a).

(** [isStarted()] *)
Definition isStarted : M bool := get started.

(** ** navigation/navigation-events.js and navigation/reroute.js *)

Definition frame_of (c : cid) : M frame := get (fun s => frames s c).

Definition new_frame (f : frame) : M cid :=
  fun s => (Ok (nframes s),
            set_nframes (S (nframes s)) (set_frames (<[nframes s := f]> (frames s)) s)).

(** [performAppChanges()] and [loadApps()]: each only schedules its callback. *)
Definition performAppChanges (c : cid) : M pid :=
  p0 <- promise_resolve undefined ;;
  then_ p0 (Some (KPerformAppChanges c)) None.

Definition loadApps (c : cid) : M pid :=
  p0 <- promise_resolve undefined ;;
  then_ p0 (Some (KLoadApps c)) None.

Definition reroute (pendingPromises : list pending_request) (eventArguments : option event)
    (silentNavigation : bool) : M pid :=
  underway <- get appChangeUnderway ;;
  if underway then
    p <- alloc PPlain 0 ;;
    modify (fun s => set_peopleWaitingOnAppChange
      (peopleWaitingOnAppChange s ++
         [{| pp_promise := p; pp_eventArguments := eventArguments |}]) s) ;;;
    ret p
  else
    ch <- get (fun s => getAppChanges W (apps s) (registered s) (href s) (now s)) ;;
    oldUrl <- get currentUrl ;;
    newUrl <- get href ;;
    modify (set_currentUrl newUrl) ;;;
    let fr appsThatChanged :=
      {| pendingPromises := pendingPromises; eventArguments := eventArguments;
         silentNavigation := silentNavigation;
         appsToUnload := c_appsToUnload ch; appsToUnmount := c_appsToUnmount ch;
         appsToLoad := c_appsToLoad ch; appsToMount := c_appsToMount ch;
         appsThatChanged := appsThatChanged; cancelPromises := [];
         oldUrl := oldUrl; newUrl := newUrl |} in
    st <- isStarted ;;
    if st then
      modify (set_appChangeUnderway true) ;;;
      c <- new_frame (fr (c_appsToUnload ch ++ c_appsToLoad ch ++
                          c_appsToUnmount ch ++ c_appsToMount ch)) ;;
      performAppChanges c
    else
      c <- new_frame (fr (c_appsToLoad ch)) ;;
      loadApps c.

Definition triggerAppChange : M pid := reroute [] None false.

(** [urlReroute]: [reroute([], arguments)] *)
Definition urlReroute (e : event) : M unit :=
  reroute [] (Some e) false ;;; ret tt.

(** The patched [window.addEventListener] and [window.removeEventListener];
    before [patchHistoryApi] they are the browser's own, which keep no
    registry here. *)
Definition addEventListener (eventName : string) (fn : listener) : M unit :=
  patched <- get historyApiIsPatched ;;
  if patched then
    ls <- get (fun s => listeners_of eventName (capturedEventListeners s)) ;;
    if in_routing_events eventName && negb (existsb (Nat.eqb fn) ls) then
      modify (fun s => set_capturedEventListeners
        (set_listeners eventName (ls ++ [fn]) (capturedEventListeners s)) s)
    else ret tt
  else ret tt.

Definition removeEventListener (eventName : string) (listenerFn : listener) : M unit :=
  patched <- get historyApiIsPatched ;;
  if patched then
    if in_routing_events eventName then
      modify (fun s => set_capturedEventListeners
        (set_listeners eventName
           (filter (fun fn => fn ≠ listenerFn) (listeners_of eventName (capturedEventListeners s)))
           (capturedEventListeners s)) s)
    else ret tt
  else ret tt.

(** [history.pushState] / [history.replaceState]: after [patchHistoryApi] they
    are [patchedUpdateState(...)], which fires an artificial popstate event that
    [urlReroute] listens to.  The history API only moves within the origin:
    [url] is the path, query and fragment of the new location. *)
Definition updateState (methodName : string) (url : string) : M unit :=
  urlBefore <- get href ;;
  modify (set_href (location_origin W +:+ url)) ;;;
  urlAfter <- get href ;;
  patched <- get historyApiIsPatched ;;
  if patched then
    only <- get urlRerouteOnly ;;
    if negb only || negb (String.eqb urlBefore urlAfter) then
      t <- tick ;;
      log (ObsPopState methodName) ;;;
      urlReroute {| ev_type := "popstate"; ev_id := t |}
    else ret tt
  else ret tt.

Definition pushState := updateState "pushState".
Definition replaceState := updateState "replaceState".

(** [promise.catch((err) => { console.warn(...); return false })] *)
Definition cancel_catch : M val :=
  log (ObsConsole 42) ;;;
  log (ObsConsole 42) ;;;
  ret (VJs (JBool false)).

(** [cancelNavigation(val = true)] of the reroute call [c] *)
Definition cancelNavigation (c : cid) (arg : cancel_arg) : M unit :=
  promise <-
    match arg with
    | CancelVal j =>
        let val := match j with JUndefined => JBool true | _ => j end in
        promise_resolve (VJs val)
    | CancelPromise o => ext_promise ECancel o
    end ;;
  d <- catch_ promise KCancelCatch ;;
  modify (fun s =>
    let f := frames s c in
    set_frames (<[c := {| pendingPromises := pendingPromises f;
                          eventArguments := eventArguments f;
                          silentNavigation := silentNavigation f;
                          appsToUnload := appsToUnload f; appsToUnmount := appsToUnmount f;
                          appsToLoad := appsToLoad f; appsToMount := appsToMount f;
                          appsThatChanged := appsThatChanged f;
                          cancelPromises := cancelPromises f ++ [d];
                          oldUrl := oldUrl f; newUrl := newUrl f |}]> (frames s)) s).

(** Application code running inside a listener; [cap] is the
    [cancelNavigation] of the event's detail, when it has one. *)
Definition run_action (cap : option cid) (act : action) : M unit :=
  match act with
  | ActCancelNavigation arg =>
      match cap with
      | Some c => cancelNavigation c arg
      | None => throw (VErr TypeError)
      end
  | ActTriggerAppChange => triggerAppChange ;;; ret tt
  | ActPushState url => pushState url
  | ActAddEventListener eventName fn => addEventListener eventName fn
  | ActRemoveEventListener eventName fn => removeEventListener eventName fn
  | ActThrow e => throw (VErr e)
  end.

Definition run_actions (cap : option cid) (acts : list action) : M unit :=
  forEach (run_action cap) acts.

(** [callCapturedEventListeners(eventArguments)]; [c] only labels the
    observation. *)
Definition callCapturedEventListeners (c : cid) (eventArguments : option event) : M unit :=
  match eventArguments with
  | Some e =>
      let eventType := ev_type e in
      if in_routing_events eventType then
        ls <- get (fun s => listeners_of eventType (capturedEventListeners s)) ;;
        forEach (fun listener =>
          try_catch
            (t <- tick ;;
             log (ObsListener c listener e) ;;;
             run_actions None (listenerBody W listener e t))
            (fun _ => log ObsAsyncThrow)) ls
      else ret tt
  | None => ret tt
  end.

Definition callAllEventListeners (c : cid) : M unit :=
  f <- frame_of c ;;
  if negb (silentNavigation f) then
    forEach (fun pendingPromise =>
      callCapturedEventListeners c (pp_eventArguments pendingPromise)) (pendingPromises f) ;;;
    callCapturedEventListeners c (eventArguments f)
  else ret tt.

Fixpoint assoc_alter {K V} `{EqDecision K} (f : option V -> V) (k : K) (l : list (K * V))
    : list (K * V) :=
  match l with
  | [] => [(k, f None)]
  | (k', v) :: l' =>
      if decide (k = k') then (k, f (Some v)) :: l' else (k', v) :: assoc_alter f k l'
  end.

(** [addApp(app, status)] inside [getCustomEventDetail]; [status] absent means
    [getAppStatus(appName)]. *)
Definition addApp (s : state) (a : appid) (st : option status)
    (acc : list (string * status) * list (status * list string))
    : list (string * status) * list (status * list string) :=
  let appName := name (apps s a) in
  let status := match st with Some x => x | None => app_status (apps s a) end in
  (assoc_alter (fun _ => status) appName (fst acc),
   assoc_alter (fun o => default [] o ++ [appName]) status (snd acc)).

Definition getCustomEventDetail (c : cid) (isBeforeChanges : bool) (withCancel : bool)
    : M detail :=
  s <- get id ;;
  let f := frames s c in
  let acc0 : list (string * status) * list (status * list string) :=
    ([], [(MOUNTED, []); (NOT_MOUNTED, []); (NOT_LOADED, []); (SKIP_BECAUSE_BROKEN, [])]) in
  let acc :=
    if isBeforeChanges then
      let acc1 := foldl (fun acc a => addApp s a (Some MOUNTED) acc) acc0
                    (appsToLoad f ++ appsToMount f) in
      let acc2 := foldl (fun acc a => addApp s a (Some NOT_LOADED) acc) acc1 (appsToUnload f) in
      foldl (fun acc a => addApp s a (Some NOT_MOUNTED) acc) acc2 (appsToUnmount f)
    else
      foldl (fun acc a => addApp s a None acc) acc0 (appsThatChanged f) in
  ret {| newAppStatuses := fst acc; appsByNewStatus := snd acc;
         totalAppChanges := length (appsThatChanged f);
         originalEvent := eventArguments f;
         d_oldUrl := oldUrl f; d_newUrl := newUrl f;
         d_cancelNavigation := withCancel |}.

(** [fireSingleSpaEvent(name, eventProperties)].  The listeners of the event
    run inside [window.dispatchEvent], which reports what they throw instead
    of passing it on. *)
Definition fireSingleSpaEvent (c : cid) (nm : string) (d : detail) : M unit :=
  f <- frame_of c ;;
  if negb (silentNavigation f) then
    log (ObsDispatch c nm d) ;;;
    t <- tick ;;
    try_catch
      (run_actions (if d_cancelNavigation d then Some c else None) (spaListeners W nm t))
      (fun _ => log ObsAsyncThrow)
  else ret tt.

Definition tryToBootstrapAndMount (a : appid) (unmountAllPromise : pid) : M pid :=
  url <- get href ;;
  if shouldBeActive W a url then
    bp <- toBootstrapPromise a ;;
    then_ bp (Some (KBootstrapped unmountAllPromise)) None
  else
    then_ unmountAllPromise (Some (KReturnApp a)) None.

(** The callbacks take the record a driver resolved with. *)
Definition as_app (v : val) : M appid :=
  match v with
  | VApp a => ret a
  | _ => throw (VErr TypeError)
  end.

(** [(app) => unmountAllPromise.then(() => shouldBeActive(app) ? toMountPromise(app) : app)] *)
Definition bootstrapped (unmountAllPromise : pid) (v : val) : M val :=
  a <- as_app v ;;
  d <- then_ unmountAllPromise (Some (KMountIfActive a unmountAllPromise)) None ;;
  ret (VProm d).

(** [() => shouldBeActive(app) ? toMountPromise(app) : app] *)
Definition mount_if_active (a : appid) : M val :=
  url <- get href ;;
  if shouldBeActive W a url then
    p <- toMountPromise a ;; ret (VProm p)
  else ret (VApp a).

(** [performAppChanges]: [() => { fireSingleSpaEvent(...) ... }] *)
Definition perform_start (c : cid) : M val :=
  f <- frame_of c ;;
  d1 <- getCustomEventDetail c true false ;;
  fireSingleSpaEvent c
    (if bool_decide (length (appsThatChanged f) = 0)
     then "before-no-app-change" else "before-app-change") d1 ;;;
  d2 <- getCustomEventDetail c true true ;;
  fireSingleSpaEvent c "before-routing-event" d2 ;;;
  f <- frame_of c ;;
  agg <- promise_all (cancelPromises f) ;;
  d <- then_ agg (Some (KCancelValues c)) None ;;
  ret (VProm d).

Definition values_of (v : val) : list val :=
  match v with
  | VList vs => vs
  | _ => []
  end.

(** [oldUrl.substring(location.origin.length)] *)
Definition path_of (url : string) : string :=
  let n := String.length (location_origin W) in
  String.substring n (String.length url - n) url.

(** [(cancelValues) => { const navigationIsCanceled = ... }] *)
Definition cancel_values (c : cid) (cancelValues : val) : M val :=
  f <- frame_of c ;;
  let navigationIsCanceled := existsb truthy (values_of cancelValues) in
  if navigationIsCanceled then
    saved <- get originalReplaceState ;;
    (if saved then
       let url := location_origin W +:+ path_of (oldUrl f) in
       log (ObsReplaceState url) ;;;
       modify (set_href url)
     else throw (VErr TypeError)) ;;;
    url <- get href ;;
    modify (set_currentUrl url) ;;;
    modify (set_appChangeUnderway false) ;;;
    p <- reroute (pendingPromises f) (eventArguments f) true ;;
    ret (VProm p)
  else
    unloadPromises <- mapM toUnloadPromise (appsToUnload f) ;;
    unmountPromises <- mapM toUnmountPromise (appsToUnmount f) ;;
    unmountUnloadPromises <-
      mapM (fun unmountPromise => then_ unmountPromise (Some KToUnloadPromise) None)
        unmountPromises ;;
    let allUnmountPromises := unmountUnloadPromises ++ unloadPromises in
    unmountAllPromise <- promise_all allUnmountPromises ;;
    then_ unmountAllPromise (Some (KBeforeMount c)) (Some KRethrow) ;;;
    loadThenMountPromises <-
      mapM (fun a => lp <- toLoadPromise a ;;
                     then_ lp (Some (KLoadedTryMount unmountAllPromise)) None)
        (appsToLoad f) ;;
    mountPromises <-
      mapM (fun appToMount => tryToBootstrapAndMount appToMount unmountAllPromise)
        (filter (fun appToMount => appToMount ∉ appsToLoad f) (appsToMount f)) ;;
    d1 <- catch_ unmountAllPromise (KUnmountCatch c) ;;
    d2 <- then_ d1 (Some (KUnmountDone c loadThenMountPromises mountPromises)) None ;;
    ret (VProm d2).

(** [() => { callAllEventListeners(); return Promise.all(...)... }] *)
Definition unmount_done (c : cid) (loadThenMountPromises mountPromises : list pid) : M val :=
  callAllEventListeners c ;;;
  agg <- promise_all (loadThenMountPromises ++ mountPromises) ;;
  d1 <- catch_ agg (KRejectPending c) ;;
  d2 <- then_ d1 (Some (KFinishUpAndReturn c)) None ;;
  d3 <- then_ d2 (Some KProfileOk) (Some KRethrow) ;;
  ret (VProm d3).

(** [(err) => { pendingPromises.forEach((promise) => promise.reject(err)); throw err }] *)
Definition reject_pending (c : cid) (e : val) : M val :=
  f <- frame_of c ;;
  forEach (fun promise => reject (pp_promise promise) e) (pendingPromises f) ;;;
  throw e.

Definition finishUpAndReturn (c : cid) : M val :=
  f <- frame_of c ;;
  returnValue <- getMountedApps ;;
  forEach (fun promise => resolve (pp_promise promise) returnValue) (pendingPromises f) ;;;
  try_catch
    (let appChangeEventName :=
       if bool_decide (length (appsThatChanged f) = 0) then "no-app-change" else "app-change" in
     d1 <- getCustomEventDetail c false false ;;
     fireSingleSpaEvent c appChangeEventName d1 ;;;
     d2 <- getCustomEventDetail c false false ;;
     fireSingleSpaEvent c "routing-event" d2)
    (fun _ => log ObsAsyncThrow) ;;;
  modify (set_appChangeUnderway false) ;;;
  waiting <- get peopleWaitingOnAppChange ;;
  (if bool_decide (0 < length waiting) then
     let nextPendingPromises := waiting in
     modify (set_peopleWaitingOnAppChange []) ;;;
     reroute nextPendingPromises None false ;;; ret tt
   else ret tt) ;;;
  ret returnValue.

(** [loadApps]: [() => { const loadPromises = appsToLoad.map(toLoadPromise); ... }] *)
Definition load_apps (c : cid) : M val :=
  f <- frame_of c ;;
  loadPromises <- mapM toLoadPromise (appsToLoad f) ;;
  agg <- promise_all loadPromises ;;
  d1 <- then_ agg (Some (KLoadAppsListeners c)) None ;;
  d2 <- then_ d1 (Some KLoadAppsEmpty) None ;;
  d3 <- catch_ d2 (KLoadAppsCatch c) ;;
  d4 <- finally_ d3 ;;
  ret (VProm d4).

(** The body of each callback. *)
Definition run_kont (k : kont) (v : val) : M val :=
  match k with
  | KLoadStart a => load_start a
  | KCallLoadApp a l => load_call a l
  | KLoadResolved a l => load_resolved a l v
  | KLoadCatch a l => load_catch a l v
  | KCancelCatch => cancel_catch
  | KLoadApps c => load_apps c
  | KLoadAppsListeners c => callAllEventListeners c ;;; ret undefined
  | KLoadAppsEmpty => ret (VNames [])
  | KLoadAppsCatch c => callAllEventListeners c ;;; throw v
  | KFinallyThen =>
      p <- promise_resolve undefined ;; d <- then_ p (Some (KConst v)) None ;; ret (VProm d)
  | KFinallyCatch =>
      p <- promise_resolve undefined ;; d <- then_ p (Some (KThrow v)) None ;; ret (VProm d)
  | KConst x => ret x
  | KThrow x => throw x
  | KPerformAppChanges c => perform_start c
  | KCancelValues c => cancel_values c v
  | KBeforeMount c =>
      d <- getCustomEventDetail c true false ;;
      fireSingleSpaEvent c "before-mount-routing-event" d ;;; ret undefined
  | KRethrow => throw v
  | KToUnloadPromise => a <- as_app v ;; p <- toUnloadPromise a ;; ret (VProm p)
  | KLoadedTryMount up => a <- as_app v ;; p <- tryToBootstrapAndMount a up ;; ret (VProm p)
  | KUnmountCatch c => callAllEventListeners c ;;; throw v
  | KUnmountDone c ltm mp => unmount_done c ltm mp
  | KRejectPending c => reject_pending c v
  | KFinishUpAndReturn c => finishUpAndReturn c
  | KProfileOk => ret undefined
  | KBootstrapped up => bootstrapped up v
  | KMountIfActive a up => mount_if_active a
  | KReturnApp a => ret (VApp a)
  end.

(** ** Running one job of the microtask queue *)

Definition run_then (onF onR : option kont) (d : pid) (o : outcome) : M unit :=
  match o, onF, onR with
  | Fulfilled v, Some k, _ | Rejected v, _, Some k =>
      fun s => match run_kont k v s with
               | (Ok v', s') => resolve d v' s'
               | (Throw e, s') => reject d e s'
               end
  | Fulfilled v, None, _ => resolve d v
  | Rejected e, _, None => reject d e
  end.

Definition run_job (j : job) : M unit :=
  match j with
  | JReact (HThen onF onR d) o => run_then onF onR d o
  | JReact (HAdopt d) o => settle d o
  | JReact (HAll agg i) o => all_element agg i o
  | JThenable d q => subscribe q (HAdopt d)
  end.

(** ** start.js and the history patch *)

Definition patchHistoryApi (opts : option bool) : M unit :=
  patched <- get historyApiIsPatched ;;
  if patched then throw (VErr (ErrCode 43))
  else
    modify (set_urlRerouteOnly (match opts with Some b => b | None => true end)) ;;;
    modify (set_historyApiIsPatched true) ;;;
    modify (set_originalReplaceState true).

Definition start (opts : option bool) : M unit :=
  modify (set_started true) ;;;
  patchHistoryApi opts ;;;
  reroute [] None false ;;; ret tt.

(** ** The environment *)

Inductive env_action :=
  | EnvRunJob                                   (* the next job of the microtask queue *)
  | EnvStart (opts : option bool)               (* start(opts) *)
  | EnvPatchHistoryApi (opts : option bool)     (* patchHistoryApi(opts) *)
  | EnvTriggerAppChange                         (* triggerAppChange() *)
  | EnvPushState (url : string)                 (* history.pushState(.., url) *)
  | EnvReplaceState (url : string)              (* history.replaceState(.., url) *)
  | EnvBrowserEvent (eventType : string) (url : string) (* the browser moves to url (in the origin) and fires the event *)
  | EnvAddEventListener (eventName : string) (fn : listener)
  | EnvRemoveEventListener (eventName : string) (fn : listener)
  | EnvSettle (p : pid) (r : ext_result)        (* a promise of application code or of a driver settles *)
  | EnvSetStatus (a : appid) (st : status)      (* a driver of another file moves a record *)
  | EnvClock (t : nat).                         (* time passes *)

Definition env_settle (p : pid) (r : ext_result) : M unit :=
  c <- get (fun s => heap s !! p) ;;
  match c with
  | Some {| pprov := PExt k |} => settle p (ext_outcome k r)
  | _ => ret tt
  end.

Definition browser_event (eventType url : string) : M unit :=
  modify (set_href (location_origin W +:+ url)) ;;;
  patched <- get historyApiIsPatched ;;
  if patched && in_routing_events eventType then
    t <- tick ;;
    urlReroute {| ev_type := eventType; ev_id := t |}
  else ret tt.

Definition env_run (e : env_action) : M unit :=
  match e with
  | EnvRunJob =>
      fun s => match queue s with
               | [] => (Ok tt, s)
               | j :: js => run_job j (set_queue js s)
               end
  | EnvStart opts => start opts
  | EnvPatchHistoryApi opts => patchHistoryApi opts
  | EnvTriggerAppChange => triggerAppChange ;;; ret tt
  | EnvPushState url => pushState url
  | EnvReplaceState url => replaceState url
  | EnvBrowserEvent eventType url => browser_event eventType url
  | EnvAddEventListener eventName fn => addEventListener eventName fn
  | EnvRemoveEventListener eventName fn => removeEventListener eventName fn
  | EnvSettle p r => env_settle p r
  | EnvSetStatus a st => update_app a (set_status st)
  | EnvClock t => modify (set_now t)
  end.

(** What is thrown to the top level is reported by the host and lost. *)
Definition step (e : env_action) (s : state) : state := snd (env_run e s).

Definition run (es : list env_action) (s : state) : state := foldl (fun s e => step e s) s es.

End Program.

(** The state when the modules have been evaluated and the applications
    registered: [registerApplication] makes records that are NOT_LOADED. *)
Definition new_app (nm : string) : app :=
  {| name := nm; app_status := NOT_LOADED; loadErrorTime := None;
     loadPromise := None; lifecycles := None |}.

Definition no_frame : frame :=
  {| pendingPromises := []; eventArguments := None; silentNavigation := false;
     appsToUnload := []; appsToUnmount := []; appsToLoad := []; appsToMount := [];
     appsThatChanged := []; cancelPromises := []; oldUrl := ""; newUrl := "" |}.

Definition init (url : string) (names : list string) : state :=
  {| heap := []; queue := []; trace := [];
     apps := fun a => new_app (default "" (names !! a));
     registered := seq 0 (length names);
     frames := fun _ => no_frame;
     nframes := 0;
     loadFrames := fun _ => {| lf_app := 0; appOpts := None; isUserErr := false |};
     nloads := 0;
     appChangeUnderway := false; peopleWaitingOnAppChange := [];
     currentUrl := url; started := false;
     capturedEventListeners := {| hashchange := []; popstate := [] |};
     urlRerouteOnly := false; originalReplaceState := false; historyApiIsPatched := false;
     href := url; now := 0; ticks := 0 |}.

(** The states the program can be in: it starts at a location of its origin,
    and then jobs of the microtask queue and calls from outside follow each
    other in any order. *)
Inductive reachable (W : world) : state -> Prop :=
  | reach_init path names : reachable W (init (location_origin W +:+ path) names)
  | reach_step s e : reachable W s -> reachable W (step W e s).

(** * Reasoning about callback bodies

    [rel R m]: whatever the state and the result, running [m] takes a state to
    an [R]-related one.  With a preorder [R] this composes along [bind], and
    covers invariants ([I s -> I s']), frame properties ([f s = f s']) and
    monotonicity of the store. *)

Definition rel {A} (R : state -> state -> Prop) (m : M A) : Prop :=
  forall s, R s (snd (m s)).

(** [R] does not look at a field: updating it on the right keeps [R]. *)
Definition Touch {X} (R : state -> state -> Prop) (set : X -> state -> state) : Prop :=
  forall x s s', R s s' -> R s (set x s').

Section Rel.

Context (R : state -> state -> Prop) `{!PreOrder R}.

Lemma rel_ret {A} (a : A) : rel R (ret a).
Proof. intros s. reflexivity. Qed.

Lemma rel_throw {A} e : rel R (@throw A e).
Proof. intros s. reflexivity. Qed.

Lemma rel_get {A} (f : state -> A) : rel R (get f).
Proof. intros s. reflexivity. Qed.

Lemma rel_bind {A B} (m : M A) (f : A -> M B) :
  rel R m -> (forall a, rel R (f a)) -> rel R (bind m f).
Proof.
  intros Hm Hf s. unfold bind. specialize (Hm s).
  destruct (m s) as [[a|e] s']; simpl in *; [|done].
  etrans; [exact Hm|apply Hf].
Qed.

Lemma rel_try_catch {A} (m : M A) (h : val -> M A) :
  rel R m -> (forall e, rel R (h e)) -> rel R (try_catch m h).
Proof.
  intros Hm Hh s. unfold try_catch. specialize (Hm s).
  destruct (m s) as [[a|e] s']; simpl in *; [done|].
  etrans; [exact Hm|apply Hh].
Qed.

Lemma rel_forEach {A} (f : A -> M unit) xs :
  (forall x, rel R (f x)) -> rel R (forEach f xs).
Proof.
  intros Hf. induction xs as [|x xs IH]; simpl.
  - apply rel_ret.
  - apply rel_bind; [apply Hf|intros _; exact IH].
Qed.

Lemma rel_mapM {A B} (f : A -> M B) xs :
  (forall x, rel R (f x)) -> rel R (mapM f xs).
Proof.
  intros Hf. induction xs as [|x xs IH]; simpl.
  - apply rel_ret.
  - apply rel_bind; [apply Hf|intros y].
    apply rel_bind; [exact IH|intros ys; apply rel_ret].
Qed.

Lemma rel_modify_set {X} (set : X -> state -> state) (g : state -> X) :
  Touch R set -> rel R (modify (fun s => set (g s) s)).
Proof. intros T s. simpl. apply T. reflexivity. Qed.

Lemma rel_modify_const {X} (set : X -> state -> state) (x : X) :
  Touch R set -> rel R (modify (set x)).
Proof. intros T s. simpl. apply T. reflexivity. Qed.

(** The operations, when [R] does not look at the fields they write. *)

Lemma rel_log o : Touch R set_trace -> rel R (log o).
Proof. apply (rel_modify_set set_trace). Qed.

Lemma rel_alloc pv n : Touch R set_heap -> rel R (alloc pv n).
Proof. intros T s. simpl. apply T. reflexivity. Qed.

Lemma rel_enqueue j : Touch R set_queue -> rel R (enqueue j).
Proof. apply (rel_modify_set set_queue). Qed.

Lemma rel_update_cell p f : Touch R set_heap -> rel R (update_cell p f).
Proof. apply (rel_modify_set set_heap). Qed.

Lemma rel_settle p o : Touch R set_heap -> Touch R set_queue -> rel R (settle p o).
Proof.
  intros Th Tq s. unfold settle. destruct (heap s !! p) as [c|]; [|reflexivity].
  destruct (pst c); [|reflexivity]. simpl. apply Tq, Th. reflexivity.
Qed.

Lemma rel_resolve p v : Touch R set_heap -> Touch R set_queue -> rel R (resolve p v).
Proof.
  intros Th Tq s. unfold resolve. destruct (heap s !! p) as [c|]; [|reflexivity].
  destruct (unresolved c); [|reflexivity].
  destruct v; try (by apply rel_settle).
  case_decide; [by apply rel_settle|].
  apply rel_bind; [by apply rel_update_cell|intros _; by apply rel_enqueue].
Qed.

Lemma rel_reject p e : Touch R set_heap -> Touch R set_queue -> rel R (reject p e).
Proof.
  intros Th Tq s. unfold reject. destruct (heap s !! p) as [c|]; [|reflexivity].
  destruct (unresolved c); [by apply rel_settle|reflexivity].
Qed.

Lemma rel_subscribe p h : Touch R set_heap -> Touch R set_queue -> rel R (subscribe p h).
Proof.
  intros Th Tq s. unfold subscribe. destruct (heap s !! p) as [c|]; [|reflexivity].
  destruct (pst c); [|by apply rel_enqueue]. simpl. apply Th. reflexivity.
Qed.

Lemma rel_all_element agg i o :
  Touch R set_heap -> Touch R set_queue -> rel R (all_element agg i o).
Proof.
  intros Th Tq. destruct o as [v|e]; [|by apply rel_reject].
  intros s. simpl. destruct (heap s !! agg) as [c|]; [|reflexivity].
  destruct (slots c !! i) as [[w|]|]; try reflexivity.
  destruct (all_some _).
  - etrans; [|by apply rel_resolve]. simpl. apply Th. reflexivity.
  - simpl. apply Th. reflexivity.
Qed.

Lemma rel_tick : Touch R set_ticks -> rel R tick.
Proof. intros T s. simpl. apply T. reflexivity. Qed.

Lemma rel_update_app a f : Touch R set_apps -> rel R (update_app a f).
Proof. apply (rel_modify_set set_apps). Qed.

Lemma rel_new_load_frame a :
  Touch R set_loadFrames -> Touch R set_nloads -> rel R (new_load_frame a).
Proof. intros T1 T2 s. simpl. apply T2, T1. reflexivity. Qed.

Lemma rel_set_isUserErr l b : Touch R set_loadFrames -> rel R (set_isUserErr l b).
Proof. apply (rel_modify_set set_loadFrames). Qed.

Lemma rel_set_appOpts l v : Touch R set_loadFrames -> rel R (set_appOpts l v).
Proof. apply (rel_modify_set set_loadFrames). Qed.

Lemma rel_new_frame f : Touch R set_frames -> Touch R set_nframes -> rel R (new_frame f).
Proof. intros T1 T2 s. simpl. apply T2, T1. reflexivity. Qed.

(** A job that runs a callback. *)
Lemma rel_run_then (W : world) onF onR d o :
  (forall k v, rel R (run_kont W k v)) ->
  (forall v, rel R (resolve d v)) -> (forall e, rel R (reject d e)) ->
  rel R (run_then W onF onR d o).
Proof.
  intros Hk Hres Hrej.
  assert (forall k v, rel R (fun s => match run_kont W k v s with
                                      | (Ok v', s') => resolve d v' s'
                                      | (Throw e, s') => reject d e s'
                                      end)) as Hrun.
  { intros k v s. specialize (Hk k v s).
    destruct (run_kont W k v s) as [[v'|e] s']; simpl in *;
      (etrans; [exact Hk|]); [apply Hres|apply Hrej]. }
  destruct o as [v|v], onF as [kf|], onR as [kr|]; simpl; auto.
Qed.

End Rel.

(** The invariant [I] as a relation. *)
Definition keeps (I : state -> Prop) : state -> state -> Prop := fun s s' => I s -> I s'.

Global Instance keeps_preorder I : PreOrder (keeps I).
Proof. split; [intros s H; exact H|intros s1 s2 s3 H12 H23 H; auto]. Qed.

(** A field [f] stays as it is. *)
Definition same {X} (f : state -> X) : state -> state -> Prop := fun s s' => f s = f s'.

Global Instance same_preorder {X} (f : state -> X) : PreOrder (same f).
Proof. split; [intros s; reflexivity|intros s1 s2 s3 H12 H23; unfold same in *; congruence]. Qed.

Create HintDb prog.
Global Hint Unfold toLoadPromise load_start load_call load_resolved load_catch isStarted
  handleAppError getMountedApps ext_call toBootstrapPromise toMountPromise toUnmountPromise
  toUnloadPromise ext_promise frame_of performAppChanges loadApps reroute triggerAppChange
  urlReroute addEventListener removeEventListener updateState pushState replaceState
  cancel_catch cancelNavigation run_action run_actions callCapturedEventListeners
  callAllEventListeners getCustomEventDetail fireSingleSpaEvent tryToBootstrapAndMount
  as_app bootstrapped mount_if_active perform_start cancel_values unmount_done
  reject_pending finishUpAndReturn load_apps hasOwnProperty_bootstrap
  then_ catch_ finally_ promise_resolve promise_all
  patchHistoryApi start env_settle browser_event : prog.

(** A field update that the relation cannot see. *)
Ltac solve_touch :=
  lazymatch goal with
  | |- Touch _ _ =>
      let x := fresh in let s := fresh in let s' := fresh in let H := fresh in
      intros x s s' H; first [exact H | unfold keeps, same in *; simpl in *; exact H]
  end.

Ltac side :=
  lazymatch goal with
  | |- PreOrder _ => apply _
  | |- Touch _ _ => solve_touch
  end.

Ltac head_of t :=
  lazymatch t with
  | ?f _ => head_of f
  | _ => t
  end.

(** Operations the walk must not look into; redefined where there are some. *)
Ltac walk_guard h := idtac.

(** Walk over a callback body: split it along its binds and branches and
    close each operation with its lemma, or with a fact at hand. *)
Ltac walk_step :=
  lazymatch goal with
  | |- rel _ (bind _ _) => apply rel_bind; [side ..| |intros ?]
  | |- rel _ (ret _) => apply rel_ret; side
  | |- rel _ (throw _) => apply rel_throw; side
  | |- rel _ (get _) => apply rel_get; side
  | |- rel _ (try_catch _ _) => apply rel_try_catch; [side ..| |intros ?]
  | |- rel _ (forEach _ _) => apply rel_forEach; [side ..|intros ?]
  | |- rel _ (mapM _ _) => apply rel_mapM; [side ..|intros ?]
  | |- rel _ (if ?b then _ else _) => destruct b eqn:?
  | |- rel _ (match ?x with _ => _ end) => destruct x eqn:?
  | |- rel _ (let _ := _ in _) => cbv zeta
  | |- rel _ (log _) => apply rel_log; side
  | |- rel _ (alloc _ _) => apply rel_alloc; side
  | |- rel _ (enqueue _) => apply rel_enqueue; side
  | |- rel _ (update_cell _ _) => apply rel_update_cell; side
  | |- rel _ (settle _ _) => apply rel_settle; side
  | |- rel _ (resolve _ _) => apply rel_resolve; side
  | |- rel _ (reject _ _) => apply rel_reject; side
  | |- rel _ (subscribe _ _) => apply rel_subscribe; side
  | |- rel _ (all_element _ _ _) => apply rel_all_element; side
  | |- rel _ tick => apply rel_tick; side
  | |- rel _ (update_app _ _) => apply rel_update_app; side
  | |- rel _ (new_load_frame _) => apply rel_new_load_frame; side
  | |- rel _ (set_isUserErr _ _) => apply rel_set_isUserErr; side
  | |- rel _ (set_appOpts _ _) => apply rel_set_appOpts; side
  | |- rel _ (new_frame _) => apply rel_new_frame; side
  | |- rel _ (modify (fun s => ?set _ s)) => apply (rel_modify_set _ set); side
  | |- rel _ (modify (?set _)) => apply (rel_modify_const _ set); side
  | |- rel _ ?m => let h := head_of m in walk_guard h; progress unfold h
  end.

(** Side conditions of the facts at hand; redefined where there are some. *)
Ltac walk_side := fail.

(** A fact at hand about the operation at the head of the goal. *)
Ltac walk_fact :=
  lazymatch goal with
  | |- rel _ ?m =>
      let h := head_of m in
      match goal with
      | H : ?T |- _ => lazymatch T with context [h] => solve [apply H; walk_side] end
      end
  end.

Ltac walk := repeat (first [walk_fact | walk_step]).

(** [emits P]: the trace grows, by observations that satisfy [P]. *)
Definition emits (P : obs -> Prop) : state -> state -> Prop :=
  fun s s' => exists new, trace s' = trace s ++ new /\ Forall P new.

Global Instance emits_preorder P : PreOrder (emits P).
Proof.
  split.
  - intros s. exists []. by rewrite app_nil_r.
  - intros s1 s2 s3 [n1 [E1 F1]] [n2 [E2 F2]]. exists (n1 ++ n2).
    rewrite E2, E1, app_assoc. split; [done|]. by apply Forall_app.
Qed.

Lemma emits_log P o : P o -> rel (emits P) (log o).
Proof. intros H s. exists [o]. simpl. split; [done|]. by constructor. Qed.

Lemma keeps_rel {A} I (m : M A) s : rel (keeps I) m -> I s -> I (snd (m s)).
Proof. intros H. apply H. Qed.

(** Running the next job, for a relation that does not look at the queue. *)
Lemma rel_env_run_job R `{!PreOrder R} (W : world) :
  Touch R set_queue -> (forall j, rel R (run_job W j)) -> rel R (env_run W EnvRunJob).
Proof.
  intros T H s. simpl. destruct (queue s) as [|j js]; [reflexivity|].
  etrans; [|apply H]. apply T. reflexivity.
Qed.

Lemma reachable_run W es path names :
  reachable W (run W es (init (location_origin W +:+ path) names)).
Proof.
  unfold run. generalize (reach_init W path names).
  generalize (init (location_origin W +:+ path) names).
  induction es as [|e es IH]; intros s Hs; simpl; [done|].
  apply IH. by constructor.
Qed.

Lemma reachable_inv W (I : state -> Prop) :
  (forall path names, I (init (location_origin W +:+ path) names)) ->
  (forall e, rel (keeps I) (env_run W e)) ->
  forall s, reachable W s -> I s.
Proof.
  intros Hinit Hstep s Hs. induction Hs as [|s e Hs IH]; [apply Hinit|].
  unfold step. by apply Hstep.
Qed.

(** The whole program keeps a relation when every callback does. *)
Ltac walk_job :=
  lazymatch goal with
  | |- rel _ (run_job _ ?j) =>
      destruct j as [[? ? ?|?|? ?] ?|? ?]; simpl;
      [apply rel_run_then; [side ..|intros ? ?|intros ?|intros ?]| | |]; walk
  end.

Ltac walk_env :=
  lazymatch goal with
  | |- rel _ (env_run _ ?e) =>
      destruct e; [apply rel_env_run_job; [side ..|intros ?]|..]; simpl; walk
  end.

(** * The captured-listener registry *)

(** The calls of captured listeners in a trace, in order. *)
Definition listener_call (o : obs) : option (cid * listener * event) :=
  match o with
  | ObsListener c l e => Some (c, l, e)
  | _ => None
  end.

Definition listener_calls (t : list obs) : list (cid * listener * event) :=
  omap listener_call t.

Definition listeners_nodup (s : state) : Prop :=
  NoDup (hashchange (capturedEventListeners s)) /\
  NoDup (popstate (capturedEventListeners s)).

Lemma listeners_of_nodup s eventName :
  listeners_nodup s -> NoDup (listeners_of eventName (capturedEventListeners s)).
Proof.
  intros [H1 H2]. unfold listeners_of.
  repeat case_match; auto. constructor.
Qed.

Lemma set_listeners_nodup s eventName ls :
  listeners_nodup s -> NoDup ls ->
  listeners_nodup (set_capturedEventListeners
                     (set_listeners eventName ls (capturedEventListeners s)) s).
Proof.
  intros [H1 H2] Hls. unfold listeners_nodup, set_listeners. simpl.
  repeat case_match; simpl; auto.
Qed.

Lemma existsb_eqb_elem_of (fn : nat) ls : existsb (Nat.eqb fn) ls = true <-> fn ∈ ls.
Proof.
  rewrite existsb_exists. split.
  - intros [x [Hx E]]. apply Nat.eqb_eq in E. subst. by apply list_elem_of_In.
  - intros H. exists fn. split; [by apply list_elem_of_In|apply Nat.eqb_refl].
Qed.

Section Listeners.

Context (W : world).

Lemma addEventListener_keeps eventName fn :
  rel (keeps listeners_nodup) (addEventListener eventName fn).
Proof.
  intros s H. unfold addEventListener, bind, get, modify, ret. simpl.
  destruct (historyApiIsPatched s); simpl; [|done].
  destruct (in_routing_events eventName); simpl; [|done].
  destruct (existsb _ _) eqn:E; simpl; [done|].
  apply set_listeners_nodup; [done|].
  apply list.NoDup_app. split; [by apply listeners_of_nodup|]. split; [|apply NoDup_singleton].
  intros x Hx Hx'. apply list_elem_of_singleton in Hx'. subst.
  apply existsb_eqb_elem_of in Hx. congruence.
Qed.

Lemma removeEventListener_keeps eventName fn :
  rel (keeps listeners_nodup) (removeEventListener eventName fn).
Proof.
  intros s H. unfold removeEventListener, bind, get, modify, ret. simpl.
  destruct (historyApiIsPatched s); simpl; [|done].
  destruct (in_routing_events eventName); simpl; [|done].
  apply set_listeners_nodup; [done|].
  apply list.NoDup_filter. by apply listeners_of_nodup.
Qed.

Lemma run_kont_keeps_listeners k v : rel (keeps listeners_nodup) (run_kont W k v).
Proof.
  pose proof addEventListener_keeps. pose proof removeEventListener_keeps.
  destruct k; simpl; walk.
Qed.

Lemma run_job_keeps_listeners j : rel (keeps listeners_nodup) (run_job W j).
Proof. pose proof run_kont_keeps_listeners. walk_job. Qed.

Lemma env_run_keeps_listeners e : rel (keeps listeners_nodup) (env_run W e).
Proof.
  pose proof addEventListener_keeps. pose proof removeEventListener_keeps.
  pose proof run_job_keeps_listeners. walk_env.
Qed.

Lemma reachable_listeners_nodup s : reachable W s -> listeners_nodup s.
Proof.
  apply reachable_inv; [|apply env_run_keeps_listeners].
  intros. split; constructor.
Qed.

(** What a listener does when it is called adds no listener call of its own. *)
Definition not_listener_call (o : obs) : Prop := listener_call o = None.

Lemma run_actions_no_listener_call cap acts :
  rel (emits not_listener_call) (run_actions W cap acts).
Proof.
  pose proof (emits_log not_listener_call) as Hlog.
  assert (forall o, not_listener_call o -> rel (emits not_listener_call) (log o)) as Hl
    by (intros; by apply emits_log).
  clear Hlog. unfold run_actions.
  apply rel_forEach; [apply _|]. intros act.
  destruct act; simpl; walk; apply Hl; done.
Qed.

Lemma listener_calls_app t1 t2 :
  listener_calls (t1 ++ t2) = listener_calls t1 ++ listener_calls t2.
Proof. apply omap_app. Qed.

Lemma listener_calls_none new :
  Forall not_listener_call new -> listener_calls new = [].
Proof.
  induction 1 as [|o new Ho _ IH]; [done|].
  unfold listener_calls in *. simpl. unfold not_listener_call in Ho. by rewrite Ho.
Qed.

(** One listener of the replay: it is called once, and what it throws does
    not reach the loop. *)
Definition replay_one (c : cid) (e : event) (l : listener) : M unit :=
  try_catch
    (t <- tick ;;
     log (ObsListener c l e) ;;;
     run_actions W None (listenerBody W l e t))
    (fun _ => log ObsAsyncThrow).

Lemma replay_one_spec c e l s :
  fst (replay_one c e l s) = Ok tt /\
  listener_calls (trace (snd (replay_one c e l s))) =
    listener_calls (trace s) ++ [(c, l, e)].
Proof.
  unfold replay_one, try_catch, bind, tick, log, modify. simpl.
  pose proof (run_actions_no_listener_call None (listenerBody W l e (ticks s))
                (set_trace (trace s ++ [ObsListener c l e]) (set_ticks (S (ticks s)) s)))
    as [new [E F]].
  destruct (run_actions W None _ _) as [[[]|err] s'] eqn:Hrun; simpl in *.
  - split; [done|]. rewrite E, !listener_calls_app, (listener_calls_none new F).
    by rewrite app_nil_r.
  - split; [done|]. rewrite E, !listener_calls_app, (listener_calls_none new F).
    by rewrite !app_nil_r.
Qed.

Lemma replay_all_spec c e ls s :
  fst (forEach (replay_one c e) ls s) = Ok tt /\
  listener_calls (trace (snd (forEach (replay_one c e) ls s))) =
    listener_calls (trace s) ++ map (fun l => (c, l, e)) ls.
Proof.
  revert s. induction ls as [|l ls IH]; intros s; simpl.
  - by rewrite app_nil_r.
  - unfold bind. destruct (replay_one_spec c e l s) as [H1 H2].
    destruct (replay_one c e l s) as [[[]|err] s1]; simpl in *; [|done].
    destruct (IH s1) as [H3 H4]. split; [done|].
    by rewrite H4, H2, <- app_assoc.
Qed.

Lemma callCapturedEventListeners_spec c e s :
  in_routing_events (ev_type e) = true ->
  listener_calls (trace (snd (callCapturedEventListeners W c (Some e) s))) =
    listener_calls (trace s) ++
    map (fun l => (c, l, e)) (listeners_of (ev_type e) (capturedEventListeners s)).
Proof.
  intros Hr. unfold callCapturedEventListeners. rewrite Hr. unfold bind, get. simpl.
  apply replay_all_spec.
Qed.


End Listeners.

(** * Weakest preconditions

    [wp m Q E s]: run from [s], [m] returns a value and a state that satisfy
    [Q], or throws a value in a state that satisfy [E]. *)

Definition wp {A} (m : M A) (Q : A -> state -> Prop) (E : val -> state -> Prop)
    (s : state) : Prop :=
  match m s with
  | (Ok a, s') => Q a s'
  | (Throw e, s') => E e s'
  end.

Lemma wp_bind {A B} (m : M A) (f : A -> M B) Q E s :
  wp m (fun a => wp (f a) Q E) E s -> wp (bind m f) Q E s.
Proof. unfold wp, bind. destruct (m s) as [[a|e] s']; auto. Qed.

Lemma wp_ret {A} (a : A) (Q : A -> state -> Prop) E s : Q a s -> wp (ret a) Q E s.
Proof. done. Qed.

Lemma wp_throw {A} e (Q : A -> state -> Prop) (E : val -> state -> Prop) s :
  E e s -> wp (throw e) Q E s.
Proof. done. Qed.

Lemma wp_get {A} (f : state -> A) (Q : A -> state -> Prop) E s :
  Q (f s) s -> wp (get f) Q E s.
Proof. done. Qed.

Lemma wp_modify f (Q : unit -> state -> Prop) E s : Q tt (f s) -> wp (modify f) Q E s.
Proof. done. Qed.

Lemma wp_mono {A} (m : M A) (Q Q' : A -> state -> Prop) (E E' : val -> state -> Prop) s :
  wp m Q E s -> (forall a s', Q a s' -> Q' a s') -> (forall e s', E e s' -> E' e s') ->
  wp m Q' E' s.
Proof. unfold wp. destruct (m s) as [[a|e] s']; auto. Qed.

Lemma wp_try_catch {A} (m : M A) h (Q : A -> state -> Prop) E s :
  wp m Q (fun e => wp (h e) Q E) s -> wp (try_catch m h) Q E s.
Proof. unfold wp, try_catch. destruct (m s) as [[a|e] s']; auto. Qed.

(** A relation that [m] keeps gives a weakest precondition. *)
Lemma wp_rel {A} R (m : M A) (Q : A -> state -> Prop) E s :
  rel R m -> (forall a s', R s s' -> Q a s') -> (forall e s', R s s' -> E e s') ->
  wp m Q E s.
Proof.
  intros Hm HQ HE. unfold wp. specialize (Hm s).
  destruct (m s) as [[a|e] s']; simpl in *; auto.
Qed.

Lemma wp_fst_snd {A} (m : M A) (Q : A -> state -> Prop) E s :
  wp m Q E s ->
  match fst (m s) with Ok a => Q a (snd (m s)) | Throw e => E e (snd (m s)) end.
Proof. unfold wp. by destruct (m s) as [[a|e] s']. Qed.

(** Everything of the state but the promise store and the job queue. *)
Definition rest (s : state) :=
  (trace s, apps s, registered s, frames s, nframes s, loadFrames s, nloads s,
   appChangeUnderway s, peopleWaitingOnAppChange s, currentUrl s, started s,
   capturedEventListeners s, urlRerouteOnly s, originalReplaceState s,
   historyApiIsPatched s, href s, now s, ticks s).

Lemma rest_fields s s' :
  rest s = rest s' ->
  trace s' = trace s /\ apps s' = apps s /\ frames s' = frames s /\
  nframes s' = nframes s /\ loadFrames s' = loadFrames s /\ nloads s' = nloads s /\
  appChangeUnderway s' = appChangeUnderway s /\
  peopleWaitingOnAppChange s' = peopleWaitingOnAppChange s /\
  currentUrl s' = currentUrl s /\ started s' = started s /\
  capturedEventListeners s' = capturedEventListeners s /\
  originalReplaceState s' = originalReplaceState s /\
  historyApiIsPatched s' = historyApiIsPatched s /\
  href s' = href s /\ now s' = now s /\ ticks s' = ticks s /\
  registered s' = registered s /\ urlRerouteOnly s' = urlRerouteOnly s.
Proof. unfold rest. intros H. by simplify_eq. Qed.

(** Operations that return. *)
Definition returns {A} (m : M A) : Prop := forall s, exists a, fst (m s) = Ok a.

Lemma returns_bind {A B} (m : M A) (f : A -> M B) :
  returns m -> (forall a, returns (f a)) -> returns (bind m f).
Proof.
  intros Hm Hf s. unfold bind. destruct (Hm s) as [a Ha].
  destruct (m s) as [[a'|e] s']; simpl in *; [|done]. apply Hf.
Qed.

Lemma returns_ret {A} (a : A) : returns (ret a).
Proof. intros s. by exists a. Qed.

Lemma returns_settle p o : returns (settle p o).
Proof. intros s. exists tt. unfold settle. by repeat case_match. Qed.

Lemma returns_subscribe p h : returns (subscribe p h).
Proof. intros s. exists tt. unfold subscribe. by repeat case_match. Qed.

Lemma returns_alloc pv n : returns (alloc pv n).
Proof. intros s. by eexists. Qed.

Lemma returns_log o : returns (log o).
Proof. intros s. by exists tt. Qed.

Lemma returns_then p onF onR : returns (then_ p onF onR).
Proof.
  unfold then_. apply returns_bind; [apply returns_alloc|intros d].
  apply returns_bind; [apply returns_subscribe|intros _; apply returns_ret].
Qed.

Lemma returns_promise_resolve v : returns (promise_resolve v).
Proof.
  destruct v; simpl; try apply returns_ret;
    (apply returns_bind; [apply returns_alloc|intros d];
     apply returns_bind; [apply returns_settle|intros _; apply returns_ret]).
Qed.

Lemma returns_ext_promise k o : returns (ext_promise k o).
Proof.
  unfold ext_promise. apply returns_bind; [apply returns_alloc|intros p].
  destruct o; [|apply returns_ret].
  apply returns_bind; [apply returns_settle|intros _; apply returns_ret].
Qed.

Lemma returns_ext_call op a : returns (ext_call op a).
Proof.
  unfold ext_call. apply returns_bind; [apply returns_alloc|intros p].
  apply returns_bind; [apply returns_log|intros _; apply returns_ret].
Qed.

Lemma returns_forEach {A} (f : A -> M unit) xs :
  (forall x, returns (f x)) -> returns (forEach f xs).
Proof.
  intros Hf. induction xs; simpl; [apply returns_ret|].
  apply returns_bind; [apply Hf|by intros _].
Qed.

Lemma returns_mapM {A B} (f : A -> M B) xs :
  (forall x, returns (f x)) -> returns (mapM f xs).
Proof.
  intros Hf. induction xs; simpl; [apply returns_ret|].
  apply returns_bind; [apply Hf|intros y].
  apply returns_bind; [done|intros ys; apply returns_ret].
Qed.

Lemma returns_promise_all ps : returns (promise_all ps).
Proof.
  unfold promise_all. apply returns_bind; [apply returns_alloc|intros agg].
  destruct ps.
  - apply returns_bind; [apply returns_settle|intros _; apply returns_ret].
  - apply returns_bind; [|intros _; apply returns_ret].
    apply returns_forEach. intros ip. apply returns_subscribe.
Qed.

(** An operation that returns and keeps a relation. *)
Lemma wp_returns {A} R (m : M A) (Q : A -> state -> Prop) E s :
  returns m -> rel R m -> (forall a s', R s s' -> Q a s') -> wp m Q E s.
Proof.
  intros Hr Hm HQ. unfold wp. specialize (Hm s). destruct (Hr s) as [a Ha].
  destruct (m s) as [[a'|e] s']; simpl in *; [auto|done].
Qed.

Lemma then_rest p onF onR : rel (same rest) (then_ p onF onR).
Proof. walk. Qed.

Lemma promise_resolve_rest v : rel (same rest) (promise_resolve v).
Proof. walk. Qed.

Lemma promise_all_rest ps : rel (same rest) (promise_all ps).
Proof. walk. Qed.

Lemma ext_promise_rest k o : rel (same rest) (ext_promise k o).
Proof. walk. Qed.

(** * Loading an application (load.js) *)

(** What the loader requires of the value a load promise resolved with. *)
Definition loader_accepts (j : jsval) : Prop :=
  typeof_is_object j = true /\
  (is_Some (prop_bootstrap j) -> validLifecycleFn (prop_bootstrap j) = true) /\
  validLifecycleFn (prop_mount j) = true /\
  validLifecycleFn (prop_unmount j) = true.

(** The validation as the specification words it: an object with a valid
    [mount]; [bootstrap] and [unmount] are looked at only when present. *)
Definition validated_when_present (j : jsval) : Prop :=
  typeof_is_object j = true /\
  validLifecycleFn (prop_mount j) = true /\
  (is_Some (prop_bootstrap j) -> validLifecycleFn (prop_bootstrap j) = true) /\
  (is_Some (prop_unmount j) -> validLifecycleFn (prop_unmount j) = true).

(** A record that [toLoadPromise] would load. *)
Definition can_load (x : app) : Prop :=
  loadPromise x = None /\ (app_status x = NOT_LOADED \/ app_status x = LOAD_ERROR).

Definition is_load_call (a : appid) (o : obs) : bool :=
  match o with
  | ObsLoadApp a' _ => Nat.eqb a a'
  | _ => false
  end.

Section Load.

Context (W : world).

Lemma load_start_joins a s lp :
  loadPromise (apps s a) = Some lp -> load_start a s = (Ok (VProm lp), s).
Proof. intros H. unfold load_start, bind, get. simpl. by rewrite H. Qed.

Lemma load_start_noop a s :
  loadPromise (apps s a) = None ->
  app_status (apps s a) <> NOT_LOADED -> app_status (apps s a) <> LOAD_ERROR ->
  load_start a s = (Ok (VApp a), s).
Proof.
  intros H H1 H2. unfold load_start, bind, get. simpl. rewrite H.
  by rewrite !bool_decide_eq_true_2.
Qed.

(** The first caller starts the load: the record is marked and the promise of
    the attempt is stored in it; the loading function is not called yet. *)
Lemma load_start_loads a s :
  can_load (apps s a) ->
  wp (load_start a)
    (fun r s' => exists d2, r = VProm d2 /\
       loadPromise (apps s' a) = Some d2 /\
       app_status (apps s' a) = LOADING_SOURCE_CODE /\
       trace s' = trace s /\ nloads s' = S (nloads s))
    (fun _ _ => False) s.
Proof.
  intros [Hp Hst]. unfold load_start.
  apply wp_bind, wp_get. rewrite Hp.
  assert (bool_decide (app_status (apps s a) ≠ NOT_LOADED) &&
          bool_decide (app_status (apps s a) ≠ LOAD_ERROR) = false) as ->.
  { destruct Hst as [-> | ->]; by simpl. }
  apply wp_bind, wp_modify. apply wp_bind. unfold wp at 1, new_load_frame. cbv beta iota.
  apply wp_bind.
  eapply wp_returns; [apply returns_promise_resolve|apply promise_resolve_rest|].
  intros p0 s1 E1.
  apply wp_bind. eapply wp_returns; [apply returns_then|apply then_rest|]. intros d1 s2 E2.
  apply wp_bind. eapply wp_returns; [apply returns_then|apply then_rest|]. intros d2 s3 E3.
  apply wp_bind, wp_modify, wp_ret.
  exists d2. simpl. rewrite fn_lookup_insert. simpl.
  apply rest_fields in E1, E2, E3. simpl in *.
  destruct E1 as (T1 & A1 & _ & _ & _ & N1 & _), E2 as (T2 & A2 & _ & _ & _ & N2 & _),
    E3 as (T3 & A3 & _ & _ & _ & N3 & _).
  rewrite A3, A2, A1, fn_lookup_insert. repeat split; congruence.
Qed.

(** The loading function is called by the callback that [load_start]
    scheduled; what it returns decides the [isUserErr] flag of the attempt. *)
Lemma load_call_spec a l s :
  match loadApp W a (ticks s) with
  | LoadReturns _ =>
      fst (load_call W a l s) = Throw (VErr (ErrCode 33)) /\
      isUserErr (loadFrames (snd (load_call W a l s)) l) = true
  | LoadThrows e =>
      fst (load_call W a l s) = Throw (VErr e) /\
      isUserErr (loadFrames (snd (load_call W a l s)) l) = isUserErr (loadFrames s l)
  | LoadPromise _ =>
      (exists d, fst (load_call W a l s) = Ok (VProm d)) /\
      isUserErr (loadFrames (snd (load_call W a l s)) l) = isUserErr (loadFrames s l)
  end.
Proof.
  unfold load_call, bind, tick, log, modify. simpl.
  destruct (loadApp W a (ticks s)) as [e|j|o]; simpl.
  - done.
  - by rewrite fn_lookup_insert.
  - match goal with |- context [ext_promise ?k ?o ?s0] =>
      pose proof (wp_fst_snd (ext_promise k o)
        (fun _ s' => rest s0 = rest s') (fun _ _ => False) s0) as H1 end.
    lapply H1; [clear H1; intros H1|].
    2:{ eapply wp_returns; [apply returns_ext_promise|apply ext_promise_rest|by intros]. }
    destruct (ext_promise _ _ _) as [[p|?] s1]; simpl in *; [|done].
    match goal with |- context [then_ ?p ?f ?g ?s0] =>
      pose proof (wp_fst_snd (then_ p f g)
        (fun _ s' => rest s0 = rest s') (fun _ _ => False) s0) as H2 end.
    lapply H2; [clear H2; intros H2|].
    2:{ eapply wp_returns; [apply returns_then|apply then_rest|by intros]. }
    destruct (then_ _ _ _ _) as [[d|?] s2]; simpl in *; [|done].
    split; [by eexists|]. apply rest_fields in H1, H2. simpl in *.
    destruct H1 as (_ & _ & _ & _ & L1 & _), H2 as (_ & _ & _ & _ & L2 & _).
    by rewrite L2, L1.
Qed.

Lemma load_catch_spec a l e s :
  let s' := snd (load_catch a l e s) in
  fst (load_catch a l e s) = Ok (VApp a) /\
  loadPromise (apps s' a) = None /\
  if isUserErr (loadFrames s l)
  then app_status (apps s' a) = SKIP_BECAUSE_BROKEN /\
       loadErrorTime (apps s' a) = loadErrorTime (apps s a)
  else app_status (apps s' a) = LOAD_ERROR /\
       loadErrorTime (apps s' a) = Some (now s).
Proof.
  unfold load_catch, handleAppError, update_app, log, bind, get, modify, ret. simpl.
  destruct (isUserErr (loadFrames s l)); simpl; rewrite !fn_lookup_insert; done.
Qed.

Lemma load_resolved_spec a l v s :
  as_js v <> JUndefined -> as_js v <> JNull ->
  let s' := snd (load_resolved a l v s) in
  fst (load_resolved a l v s) = Ok (VApp a) /\
  (loader_accepts (as_js v) ->
     app_status (apps s' a) = NOT_BOOTSTRAPPED /\ loadPromise (apps s' a) = None) /\
  (~ loader_accepts (as_js v) ->
     app_status (apps s' a) = SKIP_BECAUSE_BROKEN /\
     loadPromise (apps s' a) = loadPromise (apps s a)).
Proof.
  intros Hu Hn. unfold loader_accepts.
  unfold load_resolved, handleAppError, hasOwnProperty_bootstrap, update_app, set_appOpts,
    log, bind, get, modify, ret, throw.
  destruct (as_js v) as [| |b|n|str|ex] eqn:Hj; try done; simpl.
  1-3: rewrite !fn_lookup_insert; simpl; split; [done|]; split; [intros [? _]; done|done].
  destruct ex as [eb em eu el]; simpl.
  destruct eb as [[nb|]|], em as [[nm|]|], eu as [[nu|]|]; simpl;
    rewrite ?fn_lookup_insert; simpl;
    (split; [done|]); (split; [try done; intros (_ & H1 & H2 & H3); simpl in *;
       try discriminate; try (by specialize (H1 ltac:(eauto)))
     |try done; intros []; repeat split; simpl; auto; intros [? ?]; done]).
Qed.

End Load.

(** ** The claims about loading *)

Section LoadClaims.

Context (W : world).

(** C6 (as amended).  When a load promise resolves with anything but
    [undefined] or [null], the callback returns the record (its promise does
    not reject); it accepts the value exactly when it is an object with valid
    [mount] and [unmount] functions and, if it has a [bootstrap] property, a
    valid one; a refused value leaves the record SKIP_BECAUSE_BROKEN, and a
    record in that status is never loaded again by [toLoadPromise]. *)
Theorem load_result_validation a l v s :
  as_js v <> JUndefined -> as_js v <> JNull ->
  fst (load_resolved a l v s) = Ok (VApp a) /\
  (loader_accepts (as_js v) ->
     app_status (apps (snd (load_resolved a l v s)) a) = NOT_BOOTSTRAPPED) /\
  (~ loader_accepts (as_js v) ->
     app_status (apps (snd (load_resolved a l v s)) a) = SKIP_BECAUSE_BROKEN) /\
  (forall s2, app_status (apps s2 a) = SKIP_BECAUSE_BROKEN ->
     exists r, load_start a s2 = (Ok r, s2)).
Proof.
  intros Hu Hn. destruct (load_resolved_spec a l v s Hu Hn) as (H1 & H2 & H3).
  split; [done|]. split; [by intros H; apply H2|]. split; [by intros H; apply H3|].
  intros s2 Hst. destruct (loadPromise (apps s2 a)) as [lp|] eqn:Hlp.
  - exists (VProm lp). by apply load_start_joins.
  - exists (VApp a). apply load_start_noop; [done|by rewrite Hst..].
Qed.

(** The two callbacks of a failing load, case by case. *)
Lemma load_failure_cases a l s :
  (forall j, loadApp W a (ticks s) = LoadReturns j ->
     fst (load_call W a l s) = Throw (VErr (ErrCode 33)) /\
     isUserErr (loadFrames (snd (load_call W a l s)) l) = true) /\
  (forall o, loadApp W a (ticks s) = LoadPromise o ->
     (exists d, fst (load_call W a l s) = Ok (VProm d)) /\
     isUserErr (loadFrames (snd (load_call W a l s)) l) = isUserErr (loadFrames s l)) /\
  (forall e, isUserErr (loadFrames s l) = false ->
     fst (load_catch a l e s) = Ok (VApp a) /\
     app_status (apps (snd (load_catch a l e s)) a) = LOAD_ERROR /\
     loadErrorTime (apps (snd (load_catch a l e s)) a) = Some (now s) /\
     can_load (apps (snd (load_catch a l e s)) a)) /\
  (forall e, isUserErr (loadFrames s l) = true ->
     fst (load_catch a l e s) = Ok (VApp a) /\
     app_status (apps (snd (load_catch a l e s)) a) = SKIP_BECAUSE_BROKEN /\
     loadErrorTime (apps (snd (load_catch a l e s)) a) = loadErrorTime (apps s a)).
Proof.
  pose proof (load_call_spec W a l s) as Hc.
  repeat split.
  1-4: match goal with H : loadApp _ _ _ = _ |- _ => rewrite H in Hc; tauto end.
  all: match goal with H : isUserErr _ = _ |- _ =>
         pose proof (load_catch_spec a l e s) as Hk; simpl in Hk; rewrite H in Hk end;
       unfold can_load; intuition congruence.
Qed.

End LoadClaims.

(** * A concrete page

    Two applications: A (record 0) is active at /a and B (record 1) at /b.
    The diff of applications follows the status of the records, as
    applications/apps.js computes it for applications that are never
    unloaded on leaving. *)

Module Demo.

Definition active (a : appid) (url : string) : bool :=
  match a with
  | 0 => String.eqb url "http://h/a"
  | 1 => String.eqb url "http://h/b"
  | _ => false
  end.

Definition diff (apps : appid -> app) (reg : list appid) (url : string) (now : nat)
    : app_changes :=
  {| c_appsToUnload := [];
     c_appsToUnmount :=
       filter (fun a => app_status (apps a) = MOUNTED /\ active a url = false) reg;
     c_appsToLoad :=
       filter (fun a => (app_status (apps a) = NOT_LOADED \/
                         app_status (apps a) = LOADING_SOURCE_CODE) /\
                        active a url = true) reg;
     c_appsToMount :=
       filter (fun a => (app_status (apps a) = NOT_BOOTSTRAPPED \/
                         app_status (apps a) = NOT_MOUNTED) /\
                        active a url = true) reg |}.

Definition module_ok : exports :=
  {| e_bootstrap := Some (LcFns 1); e_mount := Some (LcFns 1);
     e_unmount := Some (LcFns 1); e_unload := None |}.

(** A module with a [mount] function and nothing else. *)
Definition module_mount_only : exports :=
  {| e_bootstrap := None; e_mount := Some (LcFns 1); e_unmount := None; e_unload := None |}.

(** The page: every loading function returns a promise resolved with [m];
    no listener does anything. *)
Definition page (m : jsval) : world :=
  {| loadApp := fun _ _ => LoadPromise (Some (ExtOk m));
     shouldBeActive := active;
     getAppChanges := diff;
     spaListeners := fun _ _ => [];
     listenerBody := fun _ _ _ => [];
     location_origin := "http://h" |}.

Definition jobs (n : nat) : list env_action := replicate n EnvRunJob.

(** The page is opened at /a and started: A is loaded, bootstrapped and
    mounted (promises 20 and 23 are those of its bootstrap and mount). *)
Definition open_at_a : list env_action :=
  [EnvStart None] ++ jobs 30 ++
  [EnvSetStatus 0 NOT_MOUNTED; EnvSettle 20 (ExtOk JUndefined)] ++ jobs 10 ++
  [EnvSetStatus 0 MOUNTED; EnvSettle 23 (ExtOk JUndefined)] ++ jobs 10.

(** Then the page moves to /b: A is to be unmounted and B to be loaded. *)
Definition move_to_b : list env_action := open_at_a ++ [EnvPushState "/b"] ++ jobs 30.

Definition at_a : state := init "http://h/a" ["A"; "B"].

(** An empty page on which a popstate listener is registered after start and
    a popstate event arrives. *)
Definition popstate_on_empty_page : list env_action :=
  [EnvStart None] ++ jobs 20 ++
  [EnvAddEventListener "popstate" 7; EnvBrowserEvent "popstate" "/x"] ++ jobs 20.

(** On the way to /b: the next job calls the bootstrap of B, while the unmount
    of A (promise 28) is still pending. *)
Definition b_loaded : state :=
  run (page (JObject module_ok)) (open_at_a ++ [EnvPushState "/b"] ++ jobs 12) at_a.

(** Further on: A is unmounted and unloaded (promises 28 and 44) and B is
    bootstrapped (promise 42); the next job calls the mount of B. *)
Definition b_bootstrapped : state :=
  run (page (JObject module_ok))
    (move_to_b ++
     [EnvSetStatus 0 NOT_MOUNTED; EnvSettle 28 (ExtOk JUndefined)] ++ jobs 10 ++
     [EnvSetStatus 0 NOT_LOADED; EnvSettle 44 (ExtOk JUndefined)] ++ jobs 10 ++
     [EnvSetStatus 1 NOT_MOUNTED; EnvSettle 42 (ExtOk JUndefined)] ++ jobs 1)
    at_a.

(** The empty page after the popstate event and the reroute call it started. *)
Definition popstate_replayed : state :=
  run (page (JObject module_ok)) popstate_on_empty_page (init "http://h/" []).

Lemma at_a_reachable m es : reachable (page m) (run (page m) es at_a).
Proof. apply (reachable_run (page m) es "/a" ["A"; "B"]). Qed.

Lemma empty_reachable m es : reachable (page m) (run (page m) es (init "http://h/" [])).
Proof. apply (reachable_run (page m) es "/" []). Qed.

End Demo.

(** C6, counterexample.  A module whose only lifecycle property is a valid
    [mount] passes the validation as the claim words it ([unmount] being
    absent, it would not be looked at), yet the loader refuses it. *)
Lemma load_requires_unmount :
  validated_when_present (JObject Demo.module_mount_only) /\
  app_status (apps (snd (load_resolved 0 0 (VJs (JObject Demo.module_mount_only))
                           Demo.at_a)) 0) = SKIP_BECAUSE_BROKEN.
Proof.
  split; [|reflexivity].
  unfold validated_when_present. simpl. repeat split; intros [x Hx]; discriminate.
Qed.

Lemma load_result_validation_witness :
  fst (load_resolved 0 0 (VJs (JObject Demo.module_ok)) Demo.at_a) = Ok (VApp 0) /\
  (loader_accepts (as_js (VJs (JObject Demo.module_ok))) ->
     app_status (apps (snd (load_resolved 0 0 (VJs (JObject Demo.module_ok)) Demo.at_a)) 0)
       = NOT_BOOTSTRAPPED) /\
  (~ loader_accepts (as_js (VJs (JObject Demo.module_ok))) ->
     app_status (apps (snd (load_resolved 0 0 (VJs (JObject Demo.module_ok)) Demo.at_a)) 0)
       = SKIP_BECAUSE_BROKEN) /\
  (forall s2, app_status (apps s2 0) = SKIP_BECAUSE_BROKEN ->
     exists r, load_start 0 s2 = (Ok r, s2)).
Proof.
  apply (load_result_validation 0 0 (VJs (JObject Demo.module_ok)) Demo.at_a);
    simpl; discriminate.
Defined.

(** C9, the failing input.  An application whose loading function resolves
    with an object without lifecycle functions: when the load has settled and
    the job queue is empty, the record is SKIP_BECAUSE_BROKEN and still holds
    its load promise, which is fulfilled with the record. *)
Lemma invalid_module_leaves_load_promise :
  let s := run (Demo.page (JObject no_exports)) (EnvTriggerAppChange :: Demo.jobs 20)
             Demo.at_a in
  queue s = [] /\
  app_status (apps s 0) = SKIP_BECAUSE_BROKEN /\
  loadPromise (apps s 0) = Some 11 /\
  pst <$> heap s !! 11 = Some (Settled (Fulfilled (VApp 0))).
Proof. vm_compute. done. Qed.


(** * The promise store only grows

    A promise keeps its provenance; once locked to a thenable or settled it
    stays so; the collected values of a [Promise.all] are only added to.  The
    variables of a [reroute] call do not change, except for the
    [cancelPromises] it collects; the trace is only appended to. *)

Definition cell_le (c c' : pcell) : Prop :=
  pprov c' = pprov c /\
  (forall q, locked c = Some q -> locked c' = Some q) /\
  (forall o, pst c = Settled o -> pst c' = Settled o) /\
  length (slots c') = length (slots c) /\
  (forall i v, slots c !! i = Some (Some v) -> slots c' !! i = Some (Some v)).

Definition frame_le (f f' : frame) : Prop :=
  pendingPromises f' = pendingPromises f /\ eventArguments f' = eventArguments f /\
  silentNavigation f' = silentNavigation f /\
  appsToUnload f' = appsToUnload f /\ appsToUnmount f' = appsToUnmount f /\
  appsToLoad f' = appsToLoad f /\ appsToMount f' = appsToMount f /\
  appsThatChanged f' = appsThatChanged f /\
  oldUrl f' = oldUrl f /\ newUrl f' = newUrl f.

Definition load_le (f f' : load_frame) : Prop :=
  lf_app f' = lf_app f /\ (isUserErr f = true -> isUserErr f' = true).

Definition grows (s s' : state) : Prop :=
  (forall p c, heap s !! p = Some c -> exists c', heap s' !! p = Some c' /\ cell_le c c') /\
  nframes s <= nframes s' /\
  (forall c, c < nframes s -> frame_le (frames s c) (frames s' c)) /\
  nloads s <= nloads s' /\
  (forall l, l < nloads s -> load_le (loadFrames s l) (loadFrames s' l)) /\
  trace s `prefix_of` trace s'.

Lemma cell_le_refl c : cell_le c c.
Proof. by repeat split. Qed.

Lemma cell_le_trans c1 c2 c3 : cell_le c1 c2 -> cell_le c2 c3 -> cell_le c1 c3.
Proof.
  intros (P1 & L1 & S1 & N1 & V1) (P2 & L2 & S2 & N2 & V2).
  repeat split; intros; eauto; congruence.
Qed.

Lemma frame_le_refl f : frame_le f f.
Proof. by repeat split. Qed.

Lemma frame_le_trans f1 f2 f3 : frame_le f1 f2 -> frame_le f2 f3 -> frame_le f1 f3.
Proof. unfold frame_le. intros H1 H2. intuition congruence. Qed.

Lemma load_le_refl f : load_le f f.
Proof. by split. Qed.

Lemma load_le_trans f1 f2 f3 : load_le f1 f2 -> load_le f2 f3 -> load_le f1 f3.
Proof. unfold load_le. intuition congruence. Qed.

Global Instance grows_preorder : PreOrder grows.
Proof.
  split.
  - intros s. unfold grows. split_and!; auto using frame_le_refl, load_le_refl.
    intros p c H. exists c. split; [done|apply cell_le_refl].
  - intros s1 s2 s3 (H1 & F1 & R1 & L1 & U1 & T1) (H2 & F2 & R2 & L2 & U2 & T2).
    unfold grows. split_and!; try lia.
    + intros p c Hc. destruct (H1 p c Hc) as (c2 & Hc2 & Hle).
      destruct (H2 p c2 Hc2) as (c3 & Hc3 & Hle'). exists c3.
      split; [done|by eapply cell_le_trans].
    + intros c Hc. eapply frame_le_trans; [by apply R1|apply R2; lia].
    + intros l Hl. eapply load_le_trans; [by apply U1|apply U2; lia].
    + by etrans.
Qed.

Lemma grows_heap_only s h' :
  (forall p c, heap s !! p = Some c -> exists c', h' !! p = Some c' /\ cell_le c c') ->
  grows s (set_heap h' s).
Proof.
  intros H. unfold grows. simpl. split_and!; auto using frame_le_refl, load_le_refl.
Qed.

(** The store after a cell was replaced by a later version of itself. *)
Lemma grows_update s p c c' :
  heap s !! p = Some c -> cell_le c c' ->
  grows s (set_heap (<[p := c']> (heap s)) s).
Proof.
  intros Hp Hle. apply grows_heap_only.
  intros p' c0 H0. destruct (decide (p' = p)) as [->|Hne].
  - exists c'. split; [|congruence].
    apply list_lookup_insert_eq. by eapply lookup_lt_Some.
  - exists c0. split; [by rewrite list_lookup_insert_ne|apply cell_le_refl].
Qed.

Lemma grows_alloc s c : grows s (set_heap (heap s ++ [c]) s).
Proof.
  apply grows_heap_only.
  intros p c0 H0. exists c0. split; [|apply cell_le_refl].
  by apply lookup_app_l_Some.
Qed.

Lemma rel_grows_alloc pv n : rel grows (alloc pv n).
Proof. intros s. apply grows_alloc. Qed.

Lemma cell_le_set_pst c st :
  (forall o, pst c = Settled o -> st = Settled o) -> cell_le c (set_pst st c).
Proof. intros H. unfold cell_le. simpl. split_and!; auto. Qed.

Lemma rel_grows_enqueue j : rel grows (enqueue j).
Proof. apply rel_enqueue; [apply _|solve_touch]. Qed.

Lemma rel_grows_settle p o : rel grows (settle p o).
Proof.
  intros s. unfold settle. destruct (heap s !! p) as [c|] eqn:Hp; [|reflexivity].
  destruct (pst c) as [rs|] eqn:Hst; [|reflexivity]. simpl.
  pose proof (grows_update s p c (set_pst (Settled o) c) Hp) as Hg.
  apply Hg. apply cell_le_set_pst. intros. congruence.
Qed.

Lemma rel_grows_subscribe p h : rel grows (subscribe p h).
Proof.
  intros s. unfold subscribe. destruct (heap s !! p) as [c|] eqn:Hp; [|reflexivity].
  destruct (pst c) as [rs|] eqn:Hst.
  - simpl. eapply grows_update; [done|]. apply cell_le_set_pst. intros. congruence.
  - apply rel_grows_enqueue.
Qed.

Lemma alter_as_insert {A} (f : A -> A) p (l : list A) x :
  l !! p = Some x -> alter f p l = <[p := f x]> l.
Proof.
  intros Hp. apply list_eq. intros i. destruct (decide (i = p)) as [->|Hne].
  - rewrite list_lookup_alter_eq, list_lookup_insert_eq by (by eapply lookup_lt_Some).
    by rewrite Hp.
  - by rewrite list_lookup_alter_ne, list_lookup_insert_ne.
Qed.

Lemma rel_grows_resolve p v : rel grows (resolve p v).
Proof.
  intros s. unfold resolve. destruct (heap s !! p) as [c|] eqn:Hp; [|reflexivity].
  destruct (unresolved c) eqn:Hu; [|reflexivity].
  assert (rel grows (settle p (Fulfilled v))) by apply rel_grows_settle.
  destruct v; try done.
  case_decide; [apply rel_grows_settle|].
  unfold bind, update_cell, enqueue, modify. simpl.
  unfold unresolved in Hu. destruct (pst c) eqn:Hst; [|done].
  destruct (locked c) eqn:Hl; [done|].
  rewrite (alter_as_insert _ _ _ c Hp).
  pose proof (grows_update s p c (set_locked (Some p0) c) Hp) as Hg.
  apply Hg. unfold cell_le. simpl. split_and!; auto. intros. congruence.
Qed.

Lemma rel_grows_reject p e : rel grows (reject p e).
Proof.
  intros s. unfold reject. destruct (heap s !! p) as [c|]; [|reflexivity].
  destruct (unresolved c); [apply rel_grows_settle|reflexivity].
Qed.

Lemma rel_grows_all_element agg i o : rel grows (all_element agg i o).
Proof.
  destruct o as [v|e]; [|apply rel_grows_reject].
  intros s. simpl. destruct (heap s !! agg) as [c|] eqn:Hp; [|reflexivity].
  destruct (slots c !! i) as [[w|]|] eqn:Hi; try reflexivity.
  assert (grows s (set_heap (<[agg:=set_slots (<[i:=Some v]> (slots c)) c]> (heap s)) s))
    as Hg.
  { eapply grows_update; [done|]. unfold cell_le. simpl. split_and!; auto.
    - by rewrite length_insert.
    - intros i' v' Hi'. destruct (decide (i' = i)) as [->|Hne]; [congruence|].
      by rewrite list_lookup_insert_ne. }
  destruct (all_some _); [|done].
  etrans; [exact Hg|apply rel_grows_resolve].
Qed.

Lemma grows_rest_only s s' :
  heap s' = heap s -> nframes s <= nframes s' ->
  (forall c, c < nframes s -> frame_le (frames s c) (frames s' c)) ->
  nloads s <= nloads s' ->
  (forall l, l < nloads s -> load_le (loadFrames s l) (loadFrames s' l)) ->
  trace s `prefix_of` trace s' -> grows s s'.
Proof.
  intros Hh ? ? ? ? ?. unfold grows. split_and!; auto.
  intros p c Hc. exists c. rewrite Hh. split; [done|apply cell_le_refl].
Qed.

Lemma rel_grows_log o : rel grows (log o).
Proof.
  intros s. apply grows_rest_only; simpl; auto using frame_le_refl, load_le_refl.
  by apply prefix_app_r.
Qed.

Lemma rel_grows_new_frame f : rel grows (new_frame f).
Proof.
  intros s. apply grows_rest_only; simpl; auto using load_le_refl.
  intros c Hc. rewrite fn_lookup_insert_ne by lia. apply frame_le_refl.
Qed.

Lemma rel_grows_new_load_frame a : rel grows (new_load_frame a).
Proof.
  intros s. apply grows_rest_only; simpl; auto using frame_le_refl.
  intros l Hl. rewrite fn_lookup_insert_ne by lia. apply load_le_refl.
Qed.

Lemma rel_grows_set_isUserErr l : rel grows (set_isUserErr l true).
Proof.
  intros s. apply grows_rest_only; simpl; auto using frame_le_refl.
  intros l' Hl. destruct (decide (l' = l)) as [->|Hne].
  - rewrite fn_lookup_insert. by split.
  - rewrite fn_lookup_insert_ne by done. apply load_le_refl.
Qed.

Lemma rel_grows_set_appOpts l v : rel grows (set_appOpts l v).
Proof.
  intros s. apply grows_rest_only; simpl; auto using frame_le_refl.
  intros l' Hl. destruct (decide (l' = l)) as [->|Hne].
  - rewrite fn_lookup_insert. by split.
  - rewrite fn_lookup_insert_ne by done. apply load_le_refl.
Qed.

Lemma rel_grows_cancelNavigation c arg : rel grows (cancelNavigation c arg).
Proof.
  pose proof rel_grows_alloc. pose proof rel_grows_settle. pose proof rel_grows_subscribe.
  unfold cancelNavigation.
  apply rel_bind; [apply _| |intros promise].
  { destruct arg; walk. }
  apply rel_bind; [apply _|walk|intros d].
  intros s. apply grows_rest_only; simpl; auto using load_le_refl.
  intros c1 Hc1. destruct (decide (c1 = c)) as [->|Hne].
  - rewrite fn_lookup_insert. unfold frame_le. by split_and!.
  - rewrite fn_lookup_insert_ne by done. apply frame_le_refl.
Qed.

(** Everything the program does makes the store grow. *)
Ltac grows_facts :=
  pose proof rel_grows_alloc; pose proof rel_grows_settle; pose proof rel_grows_subscribe;
  pose proof rel_grows_resolve; pose proof rel_grows_reject;
  pose proof rel_grows_all_element; pose proof rel_grows_log;
  pose proof rel_grows_new_frame; pose proof rel_grows_new_load_frame;
  pose proof rel_grows_set_isUserErr; pose proof rel_grows_set_appOpts;
  pose proof rel_grows_cancelNavigation.

Lemma rel_grows_run_kont W k v : rel grows (run_kont W k v).
Proof. grows_facts. destruct k; simpl; walk. Qed.

Lemma rel_grows_run_job W j : rel grows (run_job W j).
Proof. grows_facts. pose proof (rel_grows_run_kont W). walk_job. Qed.

Lemma rel_grows_env_run W e : rel grows (env_run W e).
Proof. grows_facts. pose proof (rel_grows_run_job W). walk_env. Qed.

(** * The invariant of the promise store *)

Definition settled_with (s : state) (p : pid) (o : outcome) : Prop :=
  exists c, heap s !! p = Some c /\ pst c = Settled o.

Definition fulfilled (s : state) (p : pid) : Prop :=
  exists v, settled_with s p (Fulfilled v).

Definition prov_of (s : state) (p : pid) (pv : prov) : Prop :=
  exists c, heap s !! p = Some c /\ pprov c = pv.

Definition locked_to (s : state) (d q : pid) : Prop :=
  exists c, heap s !! d = Some c /\ locked c = Some q.

(** A promise made by [new Promise] or [Promise.resolve]. *)
Definition plain (s : state) (p : pid) : Prop := prov_of s p PPlain.

(** Facts that stay true while the store grows. *)
Definition stable (P : state -> Prop) : Prop :=
  forall s s', grows s s' -> P s -> P s'.

Lemma stable_settled_with p o : stable (fun s => settled_with s p o).
Proof.
  intros s s' (H & _) (c & Hc & Hst). destruct (H p c Hc) as (c' & Hc' & Hle).
  exists c'. split; [done|]. by apply Hle.
Qed.

Lemma stable_fulfilled p : stable (fun s => fulfilled s p).
Proof. intros s s' Hg [v Hv]. exists v. by eapply stable_settled_with. Qed.

Lemma stable_prov_of p pv : stable (fun s => prov_of s p pv).
Proof.
  intros s s' (H & _) (c & Hc & Hst). destruct (H p c Hc) as (c' & Hc' & Hle).
  exists c'. split; [done|]. destruct Hle as (-> & _). done.
Qed.

Lemma stable_locked_to d q : stable (fun s => locked_to s d q).
Proof.
  intros s s' (H & _) (c & Hc & Hst). destruct (H d c Hc) as (c' & Hc' & Hle).
  exists c'. split; [done|]. by apply Hle.
Qed.

Lemma prov_of_fun s p pv pv' : prov_of s p pv -> prov_of s p pv' -> pv = pv'.
Proof. intros (c & Hc & <-) (c' & Hc' & <-). congruence. Qed.

Lemma locked_to_fun s d q q' : locked_to s d q -> locked_to s d q' -> q = q'.
Proof. intros (c & Hc & H) (c' & Hc' & H'). congruence. Qed.

Lemma settled_with_fun s p o o' : settled_with s p o -> settled_with s p o' -> o = o'.
Proof. intros (c & Hc & H) (c' & Hc' & H'). congruence. Qed.

(** A reaction waits on, or was scheduled by, the promise [p]. *)
Definition hwf (s : state) (p : pid) (h : handler) : Prop :=
  match h with
  | HThen onF onR d => prov_of s d (PThen p onF onR)
  | HAdopt d => locked_to s d p
  | HAll agg i => exists ins, prov_of s agg (PAll ins) /\ ins !! i = Some p
  end.

Lemma stable_hwf p h : stable (fun s => hwf s p h).
Proof.
  intros s s' Hg. destruct h as [onF onR d|d|agg i]; simpl.
  - by apply stable_prov_of.
  - by apply stable_locked_to.
  - intros (ins & H1 & H2). exists ins. split; [|done]. by eapply stable_prov_of.
Qed.

(** The promise of an unmount followed by an unload of [a]. *)
Definition chain (s : state) (a : appid) (d : pid) : Prop :=
  exists p, prov_of s d (PThen p (Some KToUnloadPromise) None) /\
            prov_of s p (PExt (EOp OpUnmount a)).

(** [up] is the [unmountAllPromise] of a reroute call [c]: the [Promise.all]
    of the unmount-then-unload promises of its [appsToUnmount], followed by
    the unload promises of its [appsToUnload]. *)
Definition unmount_all_of (s : state) (c : cid) (up : pid) : Prop :=
  exists ds qs,
    c < nframes s /\ prov_of s up (PAll (ds ++ qs)) /\
    Forall2 (chain s) (appsToUnmount (frames s c)) ds /\
    Forall2 (fun a q => prov_of s q (PExt (EOp OpUnload a))) (appsToUnload (frames s c)) qs.

Definition unmount_all (s : state) (up : pid) : Prop := exists c, unmount_all_of s c up.

Lemma stable_chain a d : stable (fun s => chain s a d).
Proof.
  intros s s' Hg (p & H1 & H2). exists p.
  split; by eapply stable_prov_of.
Qed.

Lemma stable_unmount_all_of c up : stable (fun s => unmount_all_of s c up).
Proof.
  intros s s' Hg (ds & qs & Hc & Hup & Hds & Hqs).
  pose proof Hg as (_ & Hn & Hf & _). destruct (Hf c Hc) as (_ & _ & _ & E1 & E2 & _).
  exists ds, qs. rewrite E1, E2. split_and!; [lia|by eapply stable_prov_of|..].
  - eapply list.Forall2_impl; [exact Hds|]. intros a d. by apply stable_chain.
  - eapply list.Forall2_impl; [exact Hqs|]. intros a q. by apply stable_prov_of.
Qed.

Lemma stable_unmount_all up : stable (fun s => unmount_all s up).
Proof. intros s s' Hg [c Hc]. exists c. by eapply stable_unmount_all_of. Qed.

(** What a callback may assume about the variables it captured. *)
Definition kont_ok (s : state) (k : kont) : Prop :=
  match k with
  | KCallLoadApp a l | KLoadResolved a l | KLoadCatch a l =>
      l < nloads s /\ lf_app (loadFrames s l) = a
  | KLoadApps c | KLoadAppsListeners c | KLoadAppsCatch c | KPerformAppChanges c
  | KCancelValues c | KBeforeMount c | KUnmountCatch c | KUnmountDone c _ _
  | KRejectPending c | KFinishUpAndReturn c => c < nframes s
  | KLoadedTryMount up | KBootstrapped up | KMountIfActive _ up => unmount_all s up
  | _ => True
  end.

Lemma stable_kont_ok k : stable (fun s => kont_ok s k).
Proof.
  intros s s' Hg. pose proof Hg as (_ & Hn & _ & Hl & Hlf & _).
  destruct k; simpl; try done; try lia; try (by apply stable_unmount_all).
  all: intros [H1 H2]; (split; [lia|]); destruct (Hlf l H1) as [E _]; congruence.
Qed.

(** Where a callback may be registered: as fulfilment callback on [p] ... *)
Definition site_f (s : state) (p : pid) (k : kont) : Prop :=
  match k with
  | KMountIfActive _ up => p = up
  | KCallLoadApp _ _ => fulfilled s p
  | _ => True
  end.

(** ... and as rejection callback on [p]. *)
Definition site_r (s : state) (p : pid) (k : kont) : Prop :=
  match k with
  | KMountIfActive _ _ => False
  | KLoadCatch a l => exists p0, prov_of s p (PThen p0 (Some (KCallLoadApp a l)) None)
  | _ => True
  end.

Definition site_ok (s : state) (p : pid) (onF onR : option kont) : Prop :=
  (forall k, onF = Some k -> kont_ok s k /\ site_f s p k) /\
  (forall k, onR = Some k -> kont_ok s k /\ site_r s p k).

Lemma stable_site_ok p onF onR : stable (fun s => site_ok s p onF onR).
Proof.
  intros s s' Hg [HF HR]. split; intros k Hk.
  - destruct (HF k Hk) as [H1 H2]. split; [by eapply stable_kont_ok|].
    destruct k; simpl in *; try done. by eapply stable_fulfilled.
  - destruct (HR k Hk) as [H1 H2]. split; [by eapply stable_kont_ok|].
    destruct k; simpl in *; try done. destruct H2 as [p0 H2]. exists p0.
    by eapply stable_prov_of.
Qed.

Section Invariant.

Context (W : world).

(** What running a callback on [w] gives, for the callbacks the claims need. *)
Definition kpost (s : state) (k : kont) (w : val) (r : result val) : Prop :=
  match k with
  | KToUnloadPromise =>
      match r with
      | Ok v => exists a q, w = VApp a /\ v = VProm q /\ prov_of s q (PExt (EOp OpUnload a))
      | Throw _ => True
      end
  | KCallLoadApp a l =>
      match r with
      | Ok _ => exists t o, loadApp W a t = LoadPromise o
      | Throw _ =>
          (l < nloads s /\ isUserErr (loadFrames s l) = true) \/
          exists t e, loadApp W a t = LoadThrows e
      end
  | _ => True
  end.

Lemma stable_kpost k w r : stable (fun s => kpost s k w r).
Proof.
  intros s s' Hg. pose proof Hg as (_ & _ & _ & Hl & Hlf & _).
  destruct k; simpl; try done; destruct r; try done.
  - intros [[H1 H2]|H]; [left|by right]. split; [lia|]. by apply (Hlf l H1).
  - intros (x & q & -> & -> & H). exists x, q. split_and!; try done.
    by eapply stable_prov_of.
Qed.

(** The promise [c] of a [then] was resolved with the result [r] of its
    callback. *)
Definition resolved_as (c : pcell) (r : result val) : Prop :=
  match r with
  | Ok (VProm q) => locked c = Some q \/ pst c = Settled (Rejected (VErr TypeError))
  | Ok v => pst c = Settled (Fulfilled v)
  | Throw e => pst c = Settled (Rejected e)
  end.

(** How the promise [c] of [p.then(onF, onR)] was resolved when [p] settled
    with [o]. *)
Definition how (s : state) (c : pcell) (onF onR : option kont) (o : outcome) : Prop :=
  match o with
  | Fulfilled w =>
      match onF with
      | Some k => exists r, kpost s k w r /\ resolved_as c r
      | None => pst c = Settled (Fulfilled w)
      end
  | Rejected e =>
      match onR with
      | Some k => exists r, kpost s k e r /\ resolved_as c r
      | None => pst c = Settled (Rejected e)
      end
  end.

Lemma resolved_as_le c c' r : cell_le c c' -> resolved_as c r -> resolved_as c' r.
Proof.
  intros (_ & HL & HS & _). destruct r as [v|e]; simpl; [|by apply HS].
  destruct v; try (by apply HS). intros [H|H]; [left; by apply HL|right; by apply HS].
Qed.

Lemma how_le s s' c c' onF onR o :
  grows s s' -> cell_le c c' -> how s c onF onR o -> how s' c' onF onR o.
Proof.
  intros Hg Hle. pose proof Hle as (_ & _ & HS & _).
  destruct o as [w|e]; simpl; [destruct onF as [k|]|destruct onR as [k|]];
    try (by apply HS).
  all: intros (r & H1 & H2); exists r; split;
    [by eapply stable_kpost|by eapply resolved_as_le].
Qed.

Definition all_ok (s : state) (c : pcell) (ins : list pid) : Prop :=
  length (slots c) = length ins /\ locked c = None /\
  (forall i v, slots c !! i = Some (Some v) ->
     exists q, ins !! i = Some q /\ settled_with s q (Fulfilled v)) /\
  (forall v, pst c = Settled (Fulfilled v) -> forall q, q ∈ ins -> fulfilled s q).

Definition ext_ok (c : pcell) (k : extkind) : Prop :=
  locked c = None /\
  forall v, pst c = Settled (Fulfilled v) -> exists j, Fulfilled v = ext_outcome k (ExtOk j).

(** What holds of each promise of the store. *)
Definition cell_ok (s : state) (p : pid) (c : pcell) : Prop :=
  (forall rs h, pst c = Pending rs -> h ∈ rs -> hwf s p h) /\
  (forall ins, pprov c = PAll ins -> all_ok s c ins) /\
  (forall q o, locked c = Some q -> pst c = Settled o -> settled_with s q o) /\
  (forall v, pst c = Settled (Fulfilled v) -> forall q, v <> VProm q) /\
  (forall k, pprov c = PExt k -> ext_ok c k) /\
  (forall q onF onR, pprov c = PThen q onF onR ->
     site_ok s q onF onR /\
     (unresolved c = false -> exists o, settled_with s q o /\ how s c onF onR o)).

Definition job_ok (s : state) (j : job) : Prop :=
  match j with
  | JReact h o => exists p, settled_with s p o /\ hwf s p h
  | JThenable d q => locked_to s d q
  end.

Definition requests_ok (s : state) : Prop :=
  (forall c pp, pp ∈ pendingPromises (frames s c) -> plain s (pp_promise pp)) /\
  (forall pp, pp ∈ peopleWaitingOnAppChange s -> plain s (pp_promise pp)).

Definition flags_ok (s : state) : Prop :=
  forall l, l < nloads s -> isUserErr (loadFrames s l) = true ->
    exists t j, loadApp W (lf_app (loadFrames s l)) t = LoadReturns j.

Definition INV (s : state) : Prop :=
  (forall p c, heap s !! p = Some c -> cell_ok s p c) /\
  (forall j, j ∈ queue s -> job_ok s j) /\
  requests_ok s /\
  flags_ok s.

Lemma cell_ok_grows s s' p c : grows s s' -> cell_ok s p c -> cell_ok s' p c.
Proof.
  intros Hg (H1 & H2 & H3 & H4 & H5 & H6). unfold cell_ok. split_and!; auto.
  - intros rs h Hst Hh. eapply stable_hwf; eauto.
  - intros ins Hp. destruct (H2 ins Hp) as (A1 & A2 & A3 & A4).
    unfold all_ok. split_and!; auto.
    + intros i v Hi. destruct (A3 i v Hi) as (q & Hq & Hs). exists q.
      split; [done|]. by eapply stable_settled_with.
    + intros v Hv q Hq. eapply stable_fulfilled; eauto.
  - intros q o Hl Hst. eapply stable_settled_with; eauto.
  - intros q onF onR Hp. destruct (H6 q onF onR Hp) as [A1 A2].
    split; [by eapply stable_site_ok|].
    intros Hu. destruct (A2 Hu) as (o & Ho & Hh). exists o.
    split; [by eapply stable_settled_with|]. eapply how_le; eauto using cell_le_refl.
Qed.

Lemma job_ok_grows s s' j : grows s s' -> job_ok s j -> job_ok s' j.
Proof.
  intros Hg. destruct j as [h o|d q]; simpl.
  - intros (p & H1 & H2). exists p.
    split; [by eapply stable_settled_with|by eapply stable_hwf].
  - by apply stable_locked_to.
Qed.

Lemma requests_ok_grows s s' :
  grows s s' -> frames s' = frames s ->
  peopleWaitingOnAppChange s' = peopleWaitingOnAppChange s ->
  requests_ok s -> requests_ok s'.
Proof.
  intros Hg Hf Hw [H1 H2]. split.
  - intros c pp. rewrite Hf. intros Hpp.
    apply (stable_prov_of _ _ s s' Hg). by apply (H1 c).
  - intros pp. rewrite Hw. intros Hpp.
    apply (stable_prov_of _ _ s s' Hg). by apply H2.
Qed.

(** The invariant after a step that made the store grow: only what is new
    has to be looked at. *)
Lemma INV_step s s' :
  INV s -> grows s s' ->
  (forall p c, heap s' !! p = Some c -> heap s !! p = Some c \/ cell_ok s' p c) ->
  (forall j, j ∈ queue s' -> j ∈ queue s \/ job_ok s' j) ->
  requests_ok s' -> flags_ok s' -> INV s'.
Proof.
  intros (I1 & I2 & I3 & I4) Hg Hc Hj Hr Hf. unfold INV. split_and!; auto.
  - intros p c Hp. destruct (Hc p c Hp) as [H|H]; [|done].
    eapply cell_ok_grows; eauto.
  - intros j Hin. destruct (Hj j Hin) as [H|H]; [|done].
    eapply job_ok_grows; eauto.
Qed.

(** A step that touches neither the frames nor the load attempts. *)
Lemma INV_store_step s s' :
  INV s -> grows s s' ->
  frames s' = frames s -> peopleWaitingOnAppChange s' = peopleWaitingOnAppChange s ->
  loadFrames s' = loadFrames s -> nloads s' = nloads s ->
  (forall p c, heap s' !! p = Some c -> heap s !! p = Some c \/ cell_ok s' p c) ->
  (forall j, j ∈ queue s' -> j ∈ queue s \/ job_ok s' j) ->
  INV s'.
Proof.
  intros HI Hg Hf Hw Hl Hn Hc Hj. pose proof HI as (_ & _ & I3 & I4).
  apply (INV_step s s'); auto.
  - by eapply requests_ok_grows.
  - unfold flags_ok. rewrite Hl, Hn. apply I4.
Qed.

End Invariant.

Lemma lookup_insert_cases {A} (h : list A) p c' p' x :
  (<[p := c']> h) !! p' = Some x ->
  (p' = p /\ x = c') \/ (p' <> p /\ h !! p' = Some x).
Proof.
  intros H. destruct (decide (p' = p)) as [->|Hne].
  - left. split; [done|]. destruct (decide (p < length h)) as [Hlt|Hge].
    + rewrite list_lookup_insert_eq in H by done. congruence.
    + rewrite list_insert_ge in H by lia. apply lookup_lt_Some in H. lia.
  - right. by rewrite list_lookup_insert_ne in H.
Qed.

Lemma lookup_snoc_cases {A} (h : list A) c p x :
  (h ++ [c]) !! p = Some x -> h !! p = Some x \/ (p = length h /\ x = c).
Proof.
  intros H. destruct (decide (p < length h)) as [Hlt|Hge].
  - left. by rewrite lookup_app_l in H.
  - right. rewrite lookup_app_r in H by lia.
    destruct (p - length h) as [|m] eqn:E; simpl in H; [|done].
    split; [lia|congruence].
Qed.

Lemma lookup_snoc_last {A} (h : list A) c : (h ++ [c]) !! length h = Some c.
Proof. by apply list_lookup_middle. Qed.

Lemma all_some_lookup {A} (l : list (option A)) xs i :
  all_some l = Some xs -> i < length l -> exists x, l !! i = Some (Some x).
Proof.
  revert xs i. induction l as [|[y|] l IH]; intros xs i H Hi; simpl in *; try done; [lia|].
  destruct (all_some l) as [ys|] eqn:E; [|done].
  destruct i as [|i]; simpl; [by eexists|]. eapply IH; [done|lia].
Qed.

Section StoreSteps.

Context (W : world).

Definition alloc_ok (s : state) (pv : prov) (n : nat) : Prop :=
  match pv with
  | PAll ins => n = length ins
  | PThen q onF onR => site_ok s q onF onR
  | _ => True
  end.

Lemma cell_ok_new s p pv n : alloc_ok s pv n -> cell_ok W s p (new_cell pv n).
Proof.
  intros Ha. unfold cell_ok, new_cell. simpl. split_and!; try done.
  - intros rs h [= <-] Hh. by apply elem_of_nil in Hh.
  - intros ins ->. unfold all_ok. simpl. split_and!; try done.
    + by rewrite length_replicate.
    + intros i v Hi. apply lookup_replicate in Hi. by destruct Hi.
  - intros q onF onR ->. done.
Qed.

Lemma INV_alloc s pv n :
  INV W s -> alloc_ok s pv n -> INV W (snd (alloc pv n s)).
Proof.
  intros HI Ha. simpl. eapply INV_store_step; [exact HI|apply grows_alloc|done..| |by left].
  simpl. intros p c Hp. apply lookup_snoc_cases in Hp as [Hp|[-> ->]]; [by left|right].
  apply cell_ok_new. destruct pv; simpl in *; try done.
  eapply stable_site_ok; [|exact Ha]. apply grows_alloc.
Qed.

(** A pending cell whose reactions were replaced. *)
Lemma cell_ok_pending s p c rs rs' :
  cell_ok W s p c -> pst c = Pending rs -> (forall h, h ∈ rs' -> hwf s p h) ->
  cell_ok W s p (set_pst (Pending rs') c).
Proof.
  intros (H1 & H2 & H3 & H4 & H5 & H6) Hst Hrs.
  assert (cell_le c (set_pst (Pending rs') c)) as Hle.
  { apply cell_le_set_pst. intros. congruence. }
  unfold cell_ok. simpl. split_and!; try done.
  - intros rs0 h [= <-]. apply Hrs.
  - intros ins Hp. destruct (H2 ins Hp) as (A1 & A2 & A3 & A4).
    unfold all_ok. simpl. split_and!; done.
  - intros k Hp. destruct (H5 k Hp) as [A1 A2]. split; simpl; done.
  - intros q onF onR Hp. destruct (H6 q onF onR Hp) as [A1 A2]. split; [done|].
    intros Hu. unfold unresolved in *. simpl in Hu. rewrite Hst in A2.
    destruct (A2 Hu) as (o & Ho & Hh). exists o. split; [done|].
    eapply how_le; [reflexivity|exact Hle|done].
Qed.

Lemma INV_subscribe s p h :
  INV W s -> hwf s p h -> INV W (snd (subscribe p h s)).
Proof.
  intros HI Hh. pose proof (rel_grows_subscribe p h s) as Hg.
  unfold subscribe in *. destruct (heap s !! p) as [c|] eqn:Hp; [|done].
  pose proof HI as (I1 & I2 & _).
  destruct (pst c) as [rs|o] eqn:Hst; simpl in *.
  - eapply INV_store_step; [exact HI|exact Hg|done..| |by left].
    simpl. intros p' c' Hp'. apply lookup_insert_cases in Hp' as [[-> ->]|[_ Hp']];
      [right|by left].
    eapply cell_ok_grows; [exact Hg|].
    eapply cell_ok_pending; [by apply I1|done|].
    intros h' Hin. apply elem_of_app in Hin as [Hin|Hin].
    + destruct (I1 p c Hp) as (A1 & _). by eapply A1.
    + apply list_elem_of_singleton in Hin. by subst.
  - eapply INV_store_step; [exact HI|exact Hg|done..|by left|].
    simpl. intros j Hj. apply elem_of_app in Hj as [Hj|Hj]; [by left|right].
    apply list_elem_of_singleton in Hj. subst. simpl. exists p.
    split; [by exists c|done].
Qed.

(** What settling the pending promise [c] with [o] needs. *)
Definition settle_pre (s : state) (c : pcell) (o : outcome) : Prop :=
  (forall q, locked c = Some q -> settled_with s q o) /\
  (forall v, o = Fulfilled v -> forall q, v <> VProm q) /\
  (forall ins v, pprov c = PAll ins -> o = Fulfilled v -> forall q, q ∈ ins -> fulfilled s q) /\
  (forall k v, pprov c = PExt k -> o = Fulfilled v ->
     exists j, Fulfilled v = ext_outcome k (ExtOk j)) /\
  (forall q onF onR, pprov c = PThen q onF onR -> unresolved c = true ->
     exists o', settled_with s q o' /\ how W s (set_pst (Settled o) c) onF onR o').

Lemma cell_ok_settled s p c rs o :
  cell_ok W s p c -> pst c = Pending rs -> settle_pre s c o ->
  cell_ok W s p (set_pst (Settled o) c).
Proof.
  intros (H1 & H2 & H3 & H4 & H5 & H6) Hst (P1 & P2 & P3 & P4 & P5).
  assert (cell_le c (set_pst (Settled o) c)) as Hle.
  { apply cell_le_set_pst. intros. congruence. }
  unfold cell_ok. simpl. split_and!; try done.
  - intros ins Hp. destruct (H2 ins Hp) as (A1 & A2 & A3 & A4).
    unfold all_ok. simpl. split_and!; try done.
    intros v [= ->]. by eapply P3.
  - intros q o' Hl [= <-]. by apply P1.
  - intros v [= ->]. by eapply P2.
  - intros k Hp. destruct (H5 k Hp) as [A1 A2]. split; simpl; [done|].
    intros v [= ->]. by eapply P4.
  - intros q onF onR Hp. destruct (H6 q onF onR Hp) as [A1 A2]. split; [done|].
    intros _. destruct (unresolved c) eqn:Hu.
    + by eapply P5.
    + destruct (A2 eq_refl) as (o' & Ho' & Hh). exists o'. split; [done|].
      eapply how_le; [reflexivity|exact Hle|done].
Qed.

Lemma INV_settle s p o :
  INV W s ->
  (forall c rs, heap s !! p = Some c -> pst c = Pending rs -> settle_pre s c o) ->
  INV W (snd (settle p o s)).
Proof.
  intros HI Hpre. pose proof (rel_grows_settle p o s) as Hg.
  unfold settle in *. destruct (heap s !! p) as [c|] eqn:Hp; [|done].
  pose proof HI as (I1 & I2 & _).
  destruct (pst c) as [rs|o'] eqn:Hst; simpl in *; [|done].
  eapply INV_store_step; [exact HI|exact Hg|done..| |].
  - simpl. intros p' c' Hp'. apply lookup_insert_cases in Hp' as [[-> ->]|[_ Hp']];
      [right|by left].
    eapply cell_ok_grows; [exact Hg|].
    eapply cell_ok_settled; [by apply I1|done|by eapply Hpre].
  - simpl. intros j Hj. apply elem_of_app in Hj as [Hj|Hj]; [by left|right].
    apply list_elem_of_fmap in Hj as (h & -> & Hh). simpl. exists p. split.
    + eexists. split; [apply list_lookup_insert_eq; by eapply lookup_lt_Some|done].
    + eapply stable_hwf; [exact Hg|]. destruct (I1 p c Hp) as (A1 & _). by eapply A1.
Qed.

End StoreSteps.

Section StoreSteps2.

Context (W : world).

(** Resolving, or rejecting, a promise with the result of a callback. *)
Definition settle_result (d : pid) (r : result val) : M unit :=
  match r with
  | Ok v => resolve d v
  | Throw e => reject d e
  end.

Definition resolve_pre (s : state) (c : pcell) (r : result val) : Prop :=
  (forall ins, pprov c <> PAll ins) /\
  (forall k, pprov c <> PExt k) /\
  (forall q onF onR, pprov c = PThen q onF onR ->
     exists o', settled_with s q o' /\
                forall c', resolved_as c' r -> how W s c' onF onR o').

Lemma unresolved_true c :
  unresolved c = true -> exists rs, pst c = Pending rs /\ locked c = None.
Proof.
  unfold unresolved. destruct (pst c) as [rs|]; [|done].
  destruct (locked c); [done|]. by exists rs.
Qed.

Lemma settle_pre_of_resolve s c r o :
  unresolved c = true -> resolve_pre s c r ->
  (forall v, o = Fulfilled v -> forall q, v <> VProm q) ->
  resolved_as (set_pst (Settled o) c) r ->
  settle_pre W s c o.
Proof.
  intros Hu (R1 & R2 & R3) Hv Hr. apply unresolved_true in Hu as (rs & Hst & Hl).
  unfold settle_pre. split_and!; try done.
  - intros q. by rewrite Hl.
  - intros ins v Hp. by destruct (R1 ins).
  - intros k v Hp. by destruct (R2 k).
  - intros q onF onR Hp _. destruct (R3 q onF onR Hp) as (o' & Ho' & Hh).
    exists o'. split; [done|]. by apply Hh.
Qed.

Lemma INV_lock s p q :
  INV W s -> q <> p ->
  (forall c, heap s !! p = Some c -> unresolved c = true ->
     resolve_pre s c (Ok (VProm q))) ->
  forall c, heap s !! p = Some c -> unresolved c = true ->
  INV W (snd ((update_cell p (set_locked (Some q)) ;;; enqueue (JThenable p q)) s)).
Proof.
  intros HI Hne Hpre c Hp Hu. pose proof HI as (I1 & _).
  destruct (Hpre c Hp Hu) as (R1 & R2 & R3).
  pose proof (unresolved_true c Hu) as (rs & Hst & Hl).
  unfold bind, update_cell, enqueue, modify. simpl.
  rewrite (alter_as_insert _ _ _ c Hp).
  assert (cell_le c (set_locked (Some q) c)) as Hle.
  { unfold cell_le. simpl. split_and!; auto. intros. congruence. }
  pose proof (grows_update s p c _ Hp Hle) as Hg.
  assert (grows s (set_queue (queue s ++ [JThenable p q])
                     (set_heap (<[p:=set_locked (Some q) c]> (heap s)) s))) as Hg'.
  { exact Hg. }
  eapply INV_store_step; [exact HI|exact Hg'|done..| |].
  - simpl. intros p' c' Hp'. apply lookup_insert_cases in Hp' as [[-> ->]|[_ Hp']];
      [right|by left].
    eapply cell_ok_grows; [exact Hg'|].
    destruct (I1 p c Hp) as (H1 & H2 & H3 & H4 & H5 & H6).
    unfold cell_ok. simpl. split_and!; try done.
    + intros ins Hpv. by destruct (R1 ins).
    + intros q0 o _ Hs. congruence.
    + intros k Hpv. by destruct (R2 k).
    + intros q0 onF onR Hpv. destruct (H6 q0 onF onR Hpv) as [A1 _]. split; [done|].
      intros _. destruct (R3 q0 onF onR Hpv) as (o' & Ho' & Hh). exists o'.
      split; [done|]. apply Hh. simpl. by left.
  - simpl. intros j Hj. apply elem_of_app in Hj as [Hj|Hj]; [by left|right].
    apply list_elem_of_singleton in Hj. subst. simpl. eexists.
    split; [apply list_lookup_insert_eq; by eapply lookup_lt_Some|done].
Qed.

Lemma INV_settle_result s d r :
  INV W s ->
  (forall c, heap s !! d = Some c -> unresolved c = true -> resolve_pre s c r) ->
  INV W (snd (settle_result d r s)).
Proof.
  intros HI Hpre. destruct r as [v|e]; simpl.
  - unfold resolve. destruct (heap s !! d) as [c|] eqn:Hd; [|done].
    destruct (unresolved c) eqn:Hu; [|done]. specialize (Hpre c eq_refl Hu).
    assert (forall o, (forall v, o = Fulfilled v -> forall q, v <> VProm q) ->
                      resolved_as (set_pst (Settled o) c) (Ok v) ->
                      INV W (snd (settle d o s))) as Hsettle.
    { intros o Hv' Hr. apply INV_settle; [done|]. intros c' rs Hc' Hst.
      assert (c' = c) as -> by congruence.
      by apply (settle_pre_of_resolve s c (Ok v)). }
    destruct v; try (apply Hsettle; [by intros v0 [= <-]|by simpl]).
    case_decide as Hq.
    + apply Hsettle; [done|]. simpl. by right.
    + eapply INV_lock; try done. intros c' Hc' _. congruence.
  - unfold reject. destruct (heap s !! d) as [c|] eqn:Hd; [|done].
    destruct (unresolved c) eqn:Hu; [|done]. specialize (Hpre c eq_refl Hu).
    apply INV_settle; [done|]. intros c' rs Hc' Hst.
    assert (c' = c) as -> by congruence.
    by apply (settle_pre_of_resolve s c (Throw e)).
Qed.

Lemma resolve_pre_plain s p c r :
  plain s p -> heap s !! p = Some c -> resolve_pre s c r.
Proof.
  intros (c' & Hc' & Hp) Hc. assert (c' = c) as -> by congruence.
  unfold resolve_pre. rewrite Hp. split_and!; done.
Qed.

Lemma INV_resolve_plain s p v : INV W s -> plain s p -> INV W (snd (resolve p v s)).
Proof.
  intros HI Hp. apply (INV_settle_result s p (Ok v)); [done|].
  intros c Hc _. by eapply resolve_pre_plain.
Qed.

Lemma INV_reject_plain s p e : INV W s -> plain s p -> INV W (snd (reject p e s)).
Proof.
  intros HI Hp. apply (INV_settle_result s p (Throw e)); [done|].
  intros c Hc _. by eapply resolve_pre_plain.
Qed.

End StoreSteps2.

Section StoreSteps3.

Context (W : world).

Lemma INV_all_element s agg i o :
  INV W s -> job_ok s (JReact (HAll agg i) o) -> INV W (snd (all_element agg i o s)).
Proof.
  intros HI (q & Hq & ins & (c0 & Hc0 & Hpv) & Hi). pose proof HI as (I1 & _).
  destruct o as [v|e]; simpl.
  - rewrite Hc0. destruct (slots c0 !! i) as [[w|]|] eqn:Hsl; try done.
    set (sl := <[i:=Some v]> (slots c0)).
    set (c1 := set_slots sl c0).
    set (s1 := set_heap (<[agg:=c1]> (heap s)) s).
    destruct (I1 agg c0 Hc0) as (H1 & H2 & H3 & H4 & H5 & H6).
    destruct (H2 ins Hpv) as (A1 & A2 & A3 & A4).
    assert (cell_le c0 c1) as Hle.
    { unfold cell_le, c1, sl. simpl. split_and!; auto.
      - by rewrite length_insert.
      - intros i' v' Hi'. destruct (decide (i' = i)) as [->|Hne]; [congruence|].
        by rewrite list_lookup_insert_ne. }
    assert (grows s s1) as Hg by (by eapply grows_update).
    assert (all_ok s c1 ins) as Hall.
    { unfold all_ok, c1, sl. simpl. split_and!; auto.
      - by rewrite length_insert.
      - intros i' v' Hi'. destruct (decide (i' = i)) as [->|Hne].
        + rewrite list_lookup_insert_eq in Hi' by (by eapply lookup_lt_Some).
          injection Hi' as <-. by exists q.
        + rewrite list_lookup_insert_ne in Hi' by done. by apply A3. }
    assert (INV W s1) as HI1.
    { eapply INV_store_step; [exact HI|exact Hg|done..| |by left].
      simpl. intros p' c' Hp'. apply lookup_insert_cases in Hp' as [[-> ->]|[_ Hp']];
        [right|by left].
      eapply cell_ok_grows; [exact Hg|].
      unfold cell_ok, c1. simpl. split_and!; try done.
      intros ins' Hpv'. assert (ins' = ins) as -> by congruence. done. }
    destruct (all_some sl) as [vs|] eqn:Hvs; [|done].
    unfold resolve.
    assert (heap s1 !! agg = Some c1) as Hc1.
    { apply list_lookup_insert_eq. by eapply lookup_lt_Some. }
    rewrite Hc1. destruct (unresolved c1) eqn:Hu; [|done].
    apply INV_settle; [done|]. intros c' rs Hc' Hst.
    assert (c' = c1) as -> by congruence.
    pose proof (unresolved_true c1 Hu) as (rs' & _ & Hl).
    unfold settle_pre. split_and!.
    + intros q0. by rewrite Hl.
    + intros v0 [= <-]. done.
    + intros ins' v0 Hpv' _ q' Hq'. assert (ins' = ins) as -> by (simpl in Hpv'; congruence).
      apply list_elem_of_lookup in Hq' as [i' Hi'].
      destruct (all_some_lookup sl vs i' Hvs) as [x Hx].
      { unfold sl. rewrite length_insert, A1. by eapply lookup_lt_Some. }
      destruct Hall as (_ & _ & B3 & _). destruct (B3 i' x Hx) as (q'' & Hq'' & Hs).
      assert (q'' = q') as -> by congruence. exists x.
      by eapply stable_settled_with.
    + intros k v0 Hpv'. simpl in Hpv'. congruence.
    + intros q0 onF onR Hpv'. simpl in Hpv'. congruence.
  - unfold reject. rewrite Hc0. destruct (unresolved c0) eqn:Hu; [|done].
    apply INV_settle; [done|]. intros c' rs Hc' Hst.
    assert (c' = c0) as -> by congruence.
    pose proof (unresolved_true c0 Hu) as (rs' & _ & Hl).
    unfold settle_pre. split_and!; try done.
    + intros q0. by rewrite Hl.
    + intros q0 onF onR Hpv'. congruence.
Qed.

(** [then], [Promise.resolve], [Promise.all] and the promises of the
    environment. *)

Lemma then_result p onF onR s : fst (then_ p onF onR s) = Ok (length (heap s)).
Proof.
  unfold then_, bind, alloc. simpl.
  destruct (subscribe p _ _) as [[[]|e] s'] eqn:E; simpl; [done|].
  pose proof (returns_subscribe p (HThen onF onR (length (heap s)))
                (set_heap (heap s ++ [new_cell (PThen p onF onR) 0]) s)) as [a Ha].
  rewrite E in Ha. done.
Qed.

Lemma INV_then s p onF onR :
  INV W s -> site_ok s p onF onR -> INV W (snd (then_ p onF onR s)).
Proof.
  intros HI Hsite. unfold then_, bind.
  pose proof (INV_alloc W s (PThen p onF onR) 0 HI Hsite) as HI1.
  unfold alloc in *. simpl in *.
  set (s1 := set_heap (heap s ++ [new_cell (PThen p onF onR) 0]) s) in *.
  pose proof (INV_subscribe W s1 p (HThen onF onR (length (heap s))) HI1) as HI2.
  destruct (subscribe p _ s1) as [[[]|e] s2]; simpl in *; apply HI2.
  all: eexists; split; [apply lookup_snoc_last|done].
Qed.

Lemma then_prov p onF onR s :
  prov_of (snd (then_ p onF onR s)) (length (heap s)) (PThen p onF onR).
Proof.
  pose proof (rel_grows_subscribe p (HThen onF onR (length (heap s)))
                (set_heap (heap s ++ [new_cell (PThen p onF onR) 0]) s)) as Hg.
  unfold then_, bind, alloc. simpl.
  destruct (subscribe p _ _) as [[[]|e] s']; simpl in *.
  all: eapply stable_prov_of; [exact Hg|]; eexists; split;
    [simpl; apply lookup_snoc_last|done].
Qed.

Lemma INV_promise_resolve s v : INV W s -> INV W (snd (promise_resolve v s)).
Proof.
  intros HI. destruct v; simpl; try done.
  all: unfold bind, alloc; simpl;
    match goal with |- context [settle ?d ?o ?s1] =>
      pose proof (INV_settle W s1 d o) as HS;
      destruct (settle d o s1) as [[[]|ex] s2]; simpl in *; apply HS
    end;
    try (apply (INV_alloc W s PPlain 0 HI I));
    intros c rs Hc Hst; simpl in Hc;
    rewrite lookup_snoc_last in Hc;
    injection Hc as <-; unfold settle_pre; simpl; split_and!; try done;
    intros v0 [= <-]; done.
Qed.

Lemma INV_ext_promise s k o : INV W s -> INV W (snd (ext_promise k o s)).
Proof.
  intros HI. unfold ext_promise, bind, alloc. simpl.
  pose proof (INV_alloc W s (PExt k) 0 HI I) as HI1. simpl in HI1.
  destruct o as [r|]; [|done].
  match goal with |- context [settle ?d ?o ?s1] =>
    pose proof (INV_settle W s1 d o HI1) as HS;
    destruct (settle d o s1) as [[[]|ex] s2]; simpl in *; apply HS
  end.
  all: intros c rs Hc Hst; simpl in Hc;
    rewrite lookup_snoc_last in Hc;
    injection Hc as <-; unfold settle_pre; simpl; split_and!; try done.
  all: try (intros v Hv q ->; destruct r, k; simpl in Hv; congruence).
  all: intros k' v [= <-] Hv; destruct r as [j|e0]; [by exists j|done].
Qed.

Lemma INV_ext_call s op a : INV W s -> INV W (snd (ext_call op a s)).
Proof.
  intros HI. unfold ext_call, bind, alloc, log, modify. simpl.
  apply (INV_alloc W s (PExt (EOp op a)) 0 HI I).
Qed.

Lemma ext_call_spec op a s :
  fst (ext_call op a s) = Ok (length (heap s)) /\
  prov_of (snd (ext_call op a s)) (length (heap s)) (PExt (EOp op a)).
Proof.
  unfold ext_call, bind, alloc, log, modify. simpl. split; [done|].
  eexists. split; [simpl; apply lookup_snoc_last|done].
Qed.

End StoreSteps3.

(** * Every step keeps the invariant *)

Class Stable (P : state -> Prop) : Prop := is_stable : stable P.

Global Instance stable_true : Stable (fun _ => True).
Proof. by intros s s' _ _. Qed.

Global Instance stable_and P Q : Stable P -> Stable Q -> Stable (fun s => P s /\ Q s).
Proof. intros HP HQ s s' Hg [H1 H2]. split; [by eapply HP|by eapply HQ]. Qed.

Global Instance stable_kont_ok_inst k : Stable (fun s => kont_ok s k).
Proof. apply stable_kont_ok. Qed.

Global Instance stable_plain_inst p : Stable (fun s => plain s p).
Proof. apply stable_prov_of. Qed.

Global Instance stable_prov_of_inst p pv : Stable (fun s => prov_of s p pv).
Proof. apply stable_prov_of. Qed.

Global Instance stable_fulfilled_inst p : Stable (fun s => fulfilled s p).
Proof. apply stable_fulfilled. Qed.

Global Instance stable_unmount_all_inst up : Stable (fun s => unmount_all s up).
Proof. apply stable_unmount_all. Qed.

Global Instance stable_unmount_all_of_inst c up : Stable (fun s => unmount_all_of s c up).
Proof. apply stable_unmount_all_of. Qed.

Global Instance stable_nframes c : Stable (fun s => c < nframes s).
Proof. intros s s' (_ & H & _) ?. lia. Qed.

Global Instance stable_Forall {A} (P : A -> state -> Prop) (l : list A) :
  (forall x, Stable (P x)) -> Stable (fun s => Forall (fun x => P x s) l).
Proof.
  intros HP s s' Hg H. induction H as [|x l' Hx _ IH]; constructor; [|done].
  by eapply HP.
Qed.

Global Instance stable_Forall2 {A B} (P : A -> B -> state -> Prop) (l : list A) (k : list B) :
  (forall x y, Stable (P x y)) -> Stable (fun s => Forall2 (fun x y => P x y s) l k).
Proof.
  intros HP s s' Hg H. induction H as [|x y l' k' Hx _ IH]; constructor; [|done].
  by eapply HP.
Qed.

Global Instance stable_chain_inst a d : Stable (fun s => chain s a d).
Proof. apply stable_chain. Qed.

Section Keeps.

Context (W : world).

(** The relation of the walk: the store grows and, under the stable fact
    [P], the invariant is kept. *)
Definition keeps_inv (P : state -> Prop) : state -> state -> Prop :=
  fun s s' => grows s s' /\ (INV W s -> P s -> INV W s').

Global Instance keeps_inv_preorder P `{!Stable P} : PreOrder (keeps_inv P).
Proof.
  split.
  - intros s. split; [reflexivity|auto].
  - intros s1 s2 s3 [G1 H1] [G2 H2]. split; [by etrans|].
    intros HI HP. apply H2; [by apply H1|]. by eapply is_stable.
Qed.

Lemma lift_inv {A} (m : M A) P (pre : state -> Prop) :
  rel grows m ->
  (forall s, INV W s -> pre s -> INV W (snd (m s))) ->
  (forall s, INV W s -> P s -> pre s) ->
  rel (keeps_inv P) m.
Proof. intros Hg Hm Hpre s. split; [apply Hg|]. intros HI HP. apply Hm; auto. Qed.

Lemma keeps_inv_weaken {A} (m : M A) (P Q : state -> Prop) :
  (forall s, INV W s -> P s -> Q s) -> rel (keeps_inv Q) m -> rel (keeps_inv P) m.
Proof. intros HPQ Hm s. destruct (Hm s) as [Hg H]. split; [done|]. auto. Qed.

(** A bind whose first part establishes a stable fact [Q] about its result. *)
Lemma keeps_inv_bind_post {A B} P (Q : A -> state -> Prop) (m : M A) (f : A -> M B)
    `{!Stable P} :
  rel (keeps_inv P) m ->
  (forall s a s', INV W s -> P s -> m s = (Ok a, s') -> Q a s') ->
  (forall x, rel (keeps_inv (fun s => P s /\ Q x s)) (f x)) ->
  rel (keeps_inv P) (bind m f).
Proof.
  intros Hm HQ Hf s. unfold bind. destruct (Hm s) as [Hg HI1].
  destruct (m s) as [[a|e] s1] eqn:E; simpl in *; [|done].
  destruct (Hf a s1) as [Hg2 HI2]. split; [by etrans|].
  intros HI HP. apply HI2; [by apply HI1|]. split; [by eapply is_stable|].
  by eapply HQ.
Qed.

Lemma keeps_inv_then P p onF onR :
  (forall s, INV W s -> P s -> site_ok s p onF onR) ->
  rel (keeps_inv P) (then_ p onF onR).
Proof.
  apply lift_inv; [|intros s; apply INV_then].
  grows_facts. unfold then_. walk.
Qed.

Lemma keeps_inv_promise_resolve P v : rel (keeps_inv P) (promise_resolve v).
Proof.
  apply (lift_inv _ P (fun _ => True)); [|intros s HI _; by apply INV_promise_resolve|done].
  grows_facts. unfold promise_resolve. walk.
Qed.

Lemma keeps_inv_ext_promise P k o : rel (keeps_inv P) (ext_promise k o).
Proof.
  apply (lift_inv _ P (fun _ => True)); [|intros s HI _; by apply INV_ext_promise|done].
  grows_facts. unfold ext_promise. walk.
Qed.

Lemma keeps_inv_ext_call P op a : rel (keeps_inv P) (ext_call op a).
Proof.
  apply (lift_inv _ P (fun _ => True)); [|intros s HI _; by apply INV_ext_call|done].
  grows_facts. unfold ext_call. walk.
Qed.

Lemma keeps_inv_resolve P p v :
  (forall s, INV W s -> P s -> plain s p) -> rel (keeps_inv P) (resolve p v).
Proof. apply lift_inv; [apply rel_grows_resolve|intros s; apply INV_resolve_plain]. Qed.

Lemma keeps_inv_reject P p e :
  (forall s, INV W s -> P s -> plain s p) -> rel (keeps_inv P) (reject p e).
Proof. apply lift_inv; [apply rel_grows_reject|intros s; apply INV_reject_plain]. Qed.

End Keeps.
Section StoreSteps4.

Context (W : world).

Lemma subscribe_all_spec s agg ps (l : list (nat * pid)) :
  INV W s -> prov_of s agg (PAll ps) ->
  (forall ip, ip ∈ l -> ps !! fst ip = Some (snd ip)) ->
  let r := forEach (fun ip => subscribe (snd ip) (HAll agg (fst ip))) l s in
  fst r = Ok tt /\ INV W (snd r) /\ grows s (snd r).
Proof.
  revert s. induction l as [|[i q] l IH]; intros s HI Hagg Hl; simpl.
  - split_and!; [done|done|reflexivity].
  - unfold bind.
    pose proof (INV_subscribe W s q (HAll agg i) HI) as H1.
    pose proof (rel_grows_subscribe q (HAll agg i) s) as Hg.
    destruct (returns_subscribe q (HAll agg i) s) as [[] Hr].
    destruct (subscribe q (HAll agg i) s) as [[[]|e] s1]; simpl in *; [|done].
    destruct (IH s1) as (R1 & R2 & R3).
    + apply H1. exists ps. split; [done|]. apply (Hl (i, q)). apply list_elem_of_here.
    + by eapply stable_prov_of.
    + intros ip Hip. apply Hl. by apply list_elem_of_further.
    + split_and!; [done|done|by etrans].
Qed.

Lemma promise_all_spec s ps :
  INV W s ->
  let r := promise_all ps s in
  fst r = Ok (length (heap s)) /\ INV W (snd r) /\ prov_of (snd r) (length (heap s)) (PAll ps).
Proof.
  intros HI. unfold promise_all, bind, alloc. cbv zeta.
  set (s1 := set_heap (heap s ++ [new_cell (PAll ps) (length ps)]) s).
  assert (INV W s1) as HI1 by (by apply (INV_alloc W s (PAll ps) (length ps) HI)).
  assert (prov_of s1 (length (heap s)) (PAll ps)) as Hp1.
  { eexists. split; [apply lookup_snoc_last|done]. }
  destruct ps as [|q ps'].
  - pose proof (INV_settle W s1 (length (heap s)) (Fulfilled (VList [])) HI1) as HS.
    pose proof (rel_grows_settle (length (heap s)) (Fulfilled (VList [])) s1) as Hg.
    destruct (returns_settle (length (heap s)) (Fulfilled (VList [])) s1) as [[] Hr].
    destruct (settle _ _ s1) as [[[]|e] s2]; simpl in *; [|done].
    split_and!; [done| |by eapply stable_prov_of].
    apply HS. intros c rs Hc Hst. rewrite lookup_snoc_last in Hc. injection Hc as <-.
    unfold settle_pre. simpl. split_and!; try done.
    + intros v [= <-]. done.
    + intros ins v [= <-] _ q Hq. by apply elem_of_nil in Hq.
  - destruct (subscribe_all_spec s1 (length (heap s)) (q :: ps') (imap pair (q :: ps')) HI1 Hp1)
      as (R1 & R2 & R3).
    { intros [i x] Hin. apply elem_of_lookup_imap in Hin as (i' & y & Heq & Hy).
      by simplify_eq. }
    destruct (forEach _ _ s1) as [[[]|e] s2]; simpl in *; [|done].
    split_and!; [done|done|by eapply stable_prov_of].
Qed.

Lemma INV_promise_all s ps : INV W s -> INV W (snd (promise_all ps s)).
Proof. intros HI. by apply promise_all_spec. Qed.

(** ** The variables of reroute calls and load attempts *)

(** A step that leaves the promise store and the queue alone. *)
Lemma INV_rest_step s s' :
  INV W s -> grows s s' -> heap s' = heap s -> queue s' = queue s ->
  requests_ok s' -> flags_ok W s' -> INV W s'.
Proof.
  intros HI Hg Hh Hq Hr Hf. apply (INV_step W s s'); auto.
  - intros p c. rewrite Hh. by left.
  - intros j. rewrite Hq. by left.
Qed.

Lemma INV_new_frame s f :
  INV W s -> Forall (fun pp => plain s (pp_promise pp)) (pendingPromises f) ->
  INV W (snd (new_frame f s)).
Proof.
  intros HI Hf. pose proof HI as (_ & _ & [R1 R2] & I4).
  apply (INV_rest_step s); [done|apply rel_grows_new_frame|done..| |done].
  split; simpl; [|done]. intros c pp. destruct (decide (c = nframes s)) as [->|Hne].
  - rewrite fn_lookup_insert. intros Hpp. rewrite list.Forall_forall in Hf. by apply Hf.
  - rewrite fn_lookup_insert_ne by done. apply R1.
Qed.

Lemma INV_cancelNavigation s c arg : INV W s -> INV W (snd (cancelNavigation c arg s)).
Proof.
  intros HI. unfold cancelNavigation, bind.
  set (m := match arg with
            | CancelVal j => promise_resolve (VJs match j with JUndefined => JBool true | _ => j end)
            | CancelPromise o => ext_promise ECancel o
            end).
  assert (INV W (snd (m s))) as HI1.
  { unfold m. destruct arg; [by apply INV_promise_resolve|by apply INV_ext_promise]. }
  destruct (m s) as [[promise|e] s1]; simpl in *; [|done].
  pose proof (INV_then W s1 promise None (Some KCancelCatch) HI1) as HI2.
  unfold catch_. destruct (then_ promise None (Some KCancelCatch) s1) as [[d|e] s2];
    simpl in *.
  2:{ apply HI2. split; intros k [= <-]. done. }
  assert (INV W s2) as HI3.
  { apply HI2. split; intros k [= <-]. done. }
  pose proof HI3 as (_ & _ & [R1 R2] & I4).
  assert (rel grows (modify (fun s =>
    let f := frames s c in
    set_frames (<[c := {| pendingPromises := pendingPromises f;
                          eventArguments := eventArguments f;
                          silentNavigation := silentNavigation f;
                          appsToUnload := appsToUnload f; appsToUnmount := appsToUnmount f;
                          appsToLoad := appsToLoad f; appsToMount := appsToMount f;
                          appsThatChanged := appsThatChanged f;
                          cancelPromises := cancelPromises f ++ [d];
                          oldUrl := oldUrl f; newUrl := newUrl f |}]> (frames s)) s))) as Hg.
  { intros s0. apply grows_rest_only; simpl; auto using load_le_refl.
    intros c1 Hc1. destruct (decide (c1 = c)) as [->|Hne].
    - rewrite fn_lookup_insert. unfold frame_le. by split_and!.
    - rewrite fn_lookup_insert_ne by done. apply frame_le_refl. }
  apply (INV_rest_step s2); [done|apply Hg|done..| |done].
  split; simpl; [|done]. intros c1 pp. destruct (decide (c1 = c)) as [->|Hne].
  - rewrite fn_lookup_insert. simpl. apply R1.
  - rewrite fn_lookup_insert_ne by done. apply R1.
Qed.

Lemma INV_set_waiting s l :
  INV W s -> Forall (fun pp => plain s (pp_promise pp)) l ->
  INV W (set_peopleWaitingOnAppChange l s).
Proof.
  intros HI Hl. pose proof HI as (_ & _ & [R1 R2] & I4).
  apply (INV_rest_step s); [done| |done..| |done].
  - apply grows_rest_only; simpl; auto using frame_le_refl, load_le_refl.
  - split; simpl; [done|]. intros pp Hpp. rewrite list.Forall_forall in Hl. by apply Hl.
Qed.

Lemma INV_new_load_frame s a : INV W s -> INV W (snd (new_load_frame a s)).
Proof.
  intros HI. pose proof HI as (_ & _ & I3 & I4).
  apply (INV_rest_step s); [done|apply rel_grows_new_load_frame|done..|].
  intros l Hl. simpl in *. destruct (decide (l = nloads s)) as [->|Hne].
  - rewrite fn_lookup_insert. done.
  - rewrite fn_lookup_insert_ne by done. apply I4. lia.
Qed.

Lemma INV_set_isUserErr s l :
  INV W s -> (exists t j, loadApp W (lf_app (loadFrames s l)) t = LoadReturns j) ->
  INV W (snd (set_isUserErr l true s)).
Proof.
  intros HI Hl. pose proof HI as (_ & _ & I3 & I4).
  apply (INV_rest_step s); [done|apply rel_grows_set_isUserErr|done..|].
  intros l' Hl'. simpl in *. destruct (decide (l' = l)) as [->|Hne].
  - rewrite fn_lookup_insert. done.
  - rewrite fn_lookup_insert_ne by done. by apply I4.
Qed.

Lemma INV_set_appOpts s l v : INV W s -> INV W (snd (set_appOpts l v s)).
Proof.
  intros HI. pose proof HI as (_ & _ & I3 & I4).
  apply (INV_rest_step s); [done|apply rel_grows_set_appOpts|done..|].
  intros l' Hl'. simpl in *. destruct (decide (l' = l)) as [->|Hne].
  - rewrite fn_lookup_insert. simpl. by apply I4.
  - rewrite fn_lookup_insert_ne by done. by apply I4.
Qed.

End StoreSteps4.

Section Keeps2.

Context (W : world).

Lemma keeps_inv_rest_step {A} (m : M A) P :
  rel grows m -> rel (same heap) m -> rel (same queue) m ->
  rel (same frames) m -> rel (same peopleWaitingOnAppChange) m ->
  rel (same loadFrames) m -> rel (same nloads) m ->
  rel (keeps_inv W P) m.
Proof.
  intros Hg H1 H2 H3 H4 H5 H6 s. split; [apply Hg|]. intros HI _.
  pose proof HI as (_ & _ & I3 & I4).
  apply (INV_rest_step W s); [done|apply Hg|symmetry; apply H1|symmetry; apply H2|..].
  - destruct I3 as [R1 R2]. split.
    + intros c pp. rewrite <- (H3 s). intros Hpp.
      eapply stable_prov_of; [apply Hg|]. by eapply R1.
    + intros pp. rewrite <- (H4 s). intros Hpp.
      eapply stable_prov_of; [apply Hg|]. by eapply R2.
  - unfold flags_ok. rewrite <- (H5 s), <- (H6 s). apply I4.
Qed.

Lemma keeps_inv_log P o : rel (keeps_inv W P) (log o).
Proof. apply keeps_inv_rest_step; [apply rel_grows_log|by intros s..]. Qed.

Lemma keeps_inv_promise_all P ps : rel (keeps_inv W P) (promise_all ps).
Proof.
  apply (lift_inv W _ P (fun _ => True)); [|intros s HI _; by apply INV_promise_all|done].
  grows_facts. unfold promise_all. walk.
Qed.

Lemma keeps_inv_cancelNavigation P c arg : rel (keeps_inv W P) (cancelNavigation c arg).
Proof.
  apply (lift_inv W _ P (fun _ => True));
    [apply rel_grows_cancelNavigation|intros s HI _; by apply INV_cancelNavigation|done].
Qed.

Lemma keeps_inv_new_load_frame P a : rel (keeps_inv W P) (new_load_frame a).
Proof.
  apply (lift_inv W _ P (fun _ => True));
    [apply rel_grows_new_load_frame|intros s HI _; by apply INV_new_load_frame|done].
Qed.

Lemma keeps_inv_set_appOpts P l v : rel (keeps_inv W P) (set_appOpts l v).
Proof.
  apply (lift_inv W _ P (fun _ => True));
    [apply rel_grows_set_appOpts|intros s HI _; by apply INV_set_appOpts|done].
Qed.

Lemma keeps_inv_set_isUserErr P l :
  (forall s, INV W s -> P s ->
     exists t j, loadApp W (lf_app (loadFrames s l)) t = LoadReturns j) ->
  rel (keeps_inv W P) (set_isUserErr l true).
Proof.
  apply lift_inv; [apply rel_grows_set_isUserErr|intros s; apply INV_set_isUserErr].
Qed.

Lemma keeps_inv_new_frame P f :
  (forall s, INV W s -> P s -> Forall (fun pp => plain s (pp_promise pp)) (pendingPromises f)) ->
  rel (keeps_inv W P) (new_frame f).
Proof. apply lift_inv; [apply rel_grows_new_frame|intros s; apply INV_new_frame]. Qed.

Lemma keeps_inv_clear_waiting P : rel (keeps_inv W P) (modify (set_peopleWaitingOnAppChange [])).
Proof.
  intros s. split.
  - apply grows_rest_only; simpl; auto using frame_le_refl, load_le_refl.
  - intros HI _. by apply INV_set_waiting.
Qed.

End Keeps2.

(** ** What the operations return *)

Global Instance stable_frame_le f c : Stable (fun s => frame_le f (frames s c) /\ c < nframes s).
Proof.
  intros s s' Hg [H1 H2]. pose proof Hg as (_ & Hn & Hf & _).
  split; [|lia]. eapply frame_le_trans; [exact H1|by apply Hf].
Qed.

Section Post.

Context (W : world).

(** [post P m Q]: under the invariant and [P], what [m] returns satisfies [Q]. *)
Definition post {A} (P : state -> Prop) (m : M A) (Q : A -> state -> Prop) : Prop :=
  forall s a s', INV W s -> P s -> m s = (Ok a, s') -> Q a s'.

Lemma bind_post {A B} P (Q : A -> state -> Prop) (m : M A) (f : A -> M B) :
  Stable P -> post P m Q -> rel (keeps_inv W P) m ->
  (forall x, rel (keeps_inv W (fun s => P s /\ Q x s)) (f x)) ->
  rel (keeps_inv W P) (bind m f).
Proof. intros HS HQ Hm Hf. by eapply keeps_inv_bind_post. Qed.

Lemma post_then P p onF onR :
  post P (then_ p onF onR) (fun d s => prov_of s d (PThen p onF onR)).
Proof.
  intros s d s' _ _ E. pose proof (then_prov p onF onR s) as H1.
  pose proof (then_result p onF onR s) as H2. rewrite E in *. simpl in *. by simplify_eq.
Qed.

Lemma post_ext_call P op a :
  post P (ext_call op a) (fun p s => prov_of s p (PExt (EOp op a))).
Proof.
  intros s p s' _ _ E. destruct (ext_call_spec op a s) as [H1 H2].
  rewrite E in *. simpl in *. by simplify_eq.
Qed.

Lemma post_promise_all P ps :
  post P (promise_all ps) (fun agg s => prov_of s agg (PAll ps)).
Proof.
  intros s p s' HI _ E. destruct (promise_all_spec W s ps HI) as (H1 & _ & H2).
  rewrite E in *. simpl in *. by simplify_eq.
Qed.

Lemma post_new_frame P f : post P (new_frame f) (fun c s => c < nframes s).
Proof. intros s c s' _ _ [= <- <-]. simpl. lia. Qed.

Lemma post_new_load_frame P a :
  post P (new_load_frame a) (fun l s => kont_ok s (KCallLoadApp a l)).
Proof.
  intros s c s' _ _ [= <- <-]. simpl. split; [lia|]. by rewrite fn_lookup_insert.
Qed.

Lemma post_promise_resolve_undefined P :
  post P (promise_resolve undefined) (fun p s => fulfilled s p).
Proof.
  intros s p s' _ _ E. unfold promise_resolve, undefined, bind, alloc, settle in E.
  simpl in E. rewrite lookup_snoc_last in E. simpl in E. unfold ret in E.
  injection E as <- <-. exists (VJs JUndefined). eexists. split.
  - simpl. apply list_lookup_insert_eq. rewrite length_app. simpl. lia.
  - done.
Qed.

Lemma post_alloc_plain P : post P (alloc PPlain 0) (fun p s => plain s p).
Proof.
  intros s p s' _ _ [= <- <-]. eexists. split; [simpl; apply lookup_snoc_last|done].
Qed.

Lemma keeps_inv_alloc_plain P : rel (keeps_inv W P) (alloc PPlain 0).
Proof.
  apply (lift_inv W _ P (fun _ => True)); [apply rel_grows_alloc| |done].
  intros s HI _. by apply INV_alloc.
Qed.

Lemma post_frame_of P c :
  (forall s, INV W s -> P s -> c < nframes s) ->
  post P (frame_of c) (fun f s => frame_le f (frames s c) /\ c < nframes s).
Proof.
  intros Hc s f s' HI HP [= <- <-]. split; [apply frame_le_refl|by apply Hc].
Qed.

Lemma frame_requests s c f :
  INV W s -> frame_le f (frames s c) ->
  Forall (fun pp => plain s (pp_promise pp)) (pendingPromises f).
Proof.
  intros (_ & _ & [R1 _] & _) (E & _). rewrite <- E.
  apply list.Forall_forall. intros pp Hpp. by eapply R1.
Qed.

Lemma post_waiting P :
  post P (get peopleWaitingOnAppChange)
    (fun w s => Forall (fun pp => plain s (pp_promise pp)) w).
Proof.
  intros s w s' (_ & _ & [_ R2] & _) _ [= <- <-].
  apply list.Forall_forall. intros pp Hpp. by eapply R2.
Qed.

Lemma post_mapM {A B} P (Q : A -> B -> state -> Prop) (f : A -> M B) xs :
  Stable P -> (forall x y, Stable (Q x y)) ->
  (forall x, rel (keeps_inv W P) (f x)) -> (forall x, post P (f x) (Q x)) ->
  post P (mapM f xs) (fun ys s => Forall2 (fun x y => Q x y s) xs ys).
Proof.
  intros HS HQ Hf Hp. induction xs as [|x xs IH]; intros s ys s' HI HP E; simpl in E.
  - injection E as <- <-. constructor.
  - unfold bind in E. destruct (f x s) as [[y|e] s1] eqn:E1; [|done].
    destruct (mapM f xs s1) as [[ys'|e] s2] eqn:E2; [|done].
    injection E as <- <-.
    pose proof (Hf x s) as [Hg1 HI1]. rewrite E1 in Hg1, HI1. simpl in *.
    assert (rel (keeps_inv W P) (mapM f xs)) as Hm by (apply rel_mapM; [apply _|done]).
    pose proof (Hm s1) as [Hg2 _]. rewrite E2 in Hg2. simpl in Hg2.
    constructor.
    + eapply (HQ x y); [exact Hg2|]. by eapply Hp.
    + eapply IH; [by apply HI1| |exact E2]. by eapply HS.
Qed.

Lemma keeps_inv_enqueue_request P p e :
  (forall s, INV W s -> P s -> plain s p) ->
  rel (keeps_inv W P) (modify (fun s => set_peopleWaitingOnAppChange
      (peopleWaitingOnAppChange s ++ [{| pp_promise := p; pp_eventArguments := e |}]) s)).
Proof.
  intros Hp s. split.
  - apply grows_rest_only; simpl; auto using frame_le_refl, load_le_refl.
  - intros HI HP. apply INV_set_waiting; [done|]. apply Forall_app. split.
    + destruct HI as (_ & _ & [_ R2] & _). apply list.Forall_forall. intros pp Hpp. by apply R2.
    + constructor; [|constructor]. by apply Hp.
Qed.

End Post.

(** The walk for the invariant: the facts at hand are those of the
    operations on the store. *)
Ltac walk_guard h ::=
  lazymatch h with
  | then_ => fail | promise_resolve => fail | promise_all => fail
  | ext_promise => fail | ext_call => fail | cancelNavigation => fail
  | @reroute => fail
  | _ => idtac
  end.

Ltac inv_side :=
  let s := fresh "s" in let HI := fresh "HI" in let HP := fresh "HP" in
  intros s HI HP; cbv beta in HP; destruct_and?;
  first
    [ done
    | by eapply frame_requests
    | solve [simpl; eauto]
    | unfold site_ok; split; intros ? [= <-]; simpl in *; destruct_and?;
      split_and?; try done; eauto ].

Ltac walk_side ::= inv_side.

Ltac inv_facts :=
  lazymatch goal with
  | |- rel (keeps_inv ?W ?P) _ =>
      pose proof (keeps_inv_then W P); pose proof (keeps_inv_promise_resolve W P);
      pose proof (keeps_inv_ext_promise W P); pose proof (keeps_inv_ext_call W P);
      pose proof (keeps_inv_resolve W P); pose proof (keeps_inv_reject W P);
      pose proof (keeps_inv_log W P); pose proof (keeps_inv_promise_all W P);
      pose proof (keeps_inv_cancelNavigation W P); pose proof (keeps_inv_new_load_frame W P);
      pose proof (keeps_inv_set_appOpts W P); pose proof (keeps_inv_set_isUserErr W P);
      pose proof (keeps_inv_new_frame W P); pose proof (keeps_inv_clear_waiting W P)
  end.

Ltac walk_inv := cbv beta; inv_facts; walk.

(** A bind whose first part returns something with the property [lem]. *)
Ltac bind_with lem :=
  eapply bind_post; [apply _|apply lem|walk_inv|intros ?; cbv beta].

Section Keeps3.

Context (W : world).

Lemma reroute_keeps P L e b :
  Stable P ->
  (forall s, INV W s -> P s -> Forall (fun pp => plain s (pp_promise pp)) L) ->
  rel (keeps_inv W P) (reroute W L e b).
Proof.
  intros HS HL. unfold reroute.
  apply rel_bind; [apply _|apply rel_get; apply _|intros underway]. destruct underway.
  - eapply bind_post; [apply _|apply post_alloc_plain|apply keeps_inv_alloc_plain|intros p].
    apply rel_bind; [apply _| |intros ?; apply rel_ret; apply _].
    apply keeps_inv_enqueue_request. by intros s _ [_ H].
  - apply rel_bind; [apply _|apply rel_get; apply _|intros ch].
    apply rel_bind; [apply _|apply rel_get; apply _|intros old].
    apply rel_bind; [apply _|apply rel_get; apply _|intros new].
    apply rel_bind; [apply _|walk_inv|intros _]. cbv zeta.
    apply rel_bind; [apply _|walk_inv|intros st]. destruct st.
    + apply rel_bind; [apply _|walk_inv|intros _].
      bind_with post_new_frame. unfold performAppChanges. walk_inv.
    + bind_with post_new_frame. unfold loadApps. walk_inv.
Qed.

End Keeps3.

Ltac inv_side ::=
  let s := fresh "s" in let HI := fresh "HI" in let HP := fresh "HP" in
  intros s HI HP; cbv beta in HP; destruct_and?;
  first
    [ done
    | by eapply frame_requests
    | solve [simpl; eauto]
    | unfold site_ok; split; intros ? [= <-]; simpl in *; destruct_and?;
      split_and?; try done; eauto
    | solve [simpl in *; destruct_and?; subst; eauto] ].

Ltac walk_side ::= first [apply _ | inv_side].

Ltac bind_frame :=
  eapply bind_post; [apply _|apply post_frame_of; inv_side|walk_inv|intros ?; cbv beta].

Lemma rel_forEach_in {A} R `{!PreOrder R} (f : A -> M unit) xs :
  (forall x, x ∈ xs -> rel R (f x)) -> rel R (forEach f xs).
Proof.
  induction xs as [|x xs IH]; intros Hf; simpl.
  - by apply rel_ret.
  - apply rel_bind; [done|apply Hf; apply list_elem_of_here|intros _].
    apply IH. intros y Hy. apply Hf. by apply list_elem_of_further.
Qed.

Lemma Forall2_chain s (apps : list nat) ps ds :
  Forall2 (fun a p => prov_of s p (PExt (EOp OpUnmount a))) apps ps ->
  Forall2 (fun p d => prov_of s d (PThen p (Some KToUnloadPromise) None)) ps ds ->
  Forall2 (chain s) apps ds.
Proof.
  intros H. revert ds. induction H as [|a p apps ps Hp _ IH]; intros ds Hds.
  - inversion Hds. constructor.
  - inversion Hds as [|? d ? ds' Hd Hds']; subst. constructor; [by exists p|by apply IH].
Qed.

Ltac inv_facts ::=
  lazymatch goal with
  | |- rel (keeps_inv ?W ?P) _ =>
      pose proof (keeps_inv_then W P); pose proof (keeps_inv_promise_resolve W P);
      pose proof (keeps_inv_ext_promise W P); pose proof (keeps_inv_ext_call W P);
      pose proof (keeps_inv_resolve W P); pose proof (keeps_inv_reject W P);
      pose proof (keeps_inv_log W P); pose proof (keeps_inv_promise_all W P);
      pose proof (keeps_inv_cancelNavigation W P); pose proof (keeps_inv_new_load_frame W P);
      pose proof (keeps_inv_set_appOpts W P); pose proof (keeps_inv_set_isUserErr W P);
      pose proof (keeps_inv_new_frame W P); pose proof (keeps_inv_clear_waiting W P);
      pose proof (reroute_keeps W P)
  end.

Section Handlers.

Context (W : world).

Lemma run_actions_keeps P cap acts : Stable P -> rel (keeps_inv W P) (run_actions W cap acts).
Proof. intros HS. unfold run_actions. walk_inv. Qed.


Lemma load_start_keeps P a : Stable P -> rel (keeps_inv W P) (load_start a).
Proof.
  intros HS. unfold load_start.
  apply rel_bind; [apply _|apply rel_get; apply _|intros x].
  destruct (loadPromise x); [apply rel_ret; apply _|].
  destruct (_ && _); [apply rel_ret; apply _|].
  apply rel_bind; [apply _|walk_inv|intros _].
  bind_with post_new_load_frame.
  bind_with post_promise_resolve_undefined.
  bind_with post_then.
  walk_inv.
Qed.

Lemma load_call_keeps a l :
  rel (keeps_inv W (fun s => kont_ok s (KCallLoadApp a l))) (load_call W a l).
Proof. unfold load_call. walk_inv. Qed.

Lemma reject_pending_keeps c e :
  rel (keeps_inv W (fun s => c < nframes s)) (reject_pending c e).
Proof.
  unfold reject_pending. bind_frame.
  apply rel_bind; [apply _| |intros _; apply rel_throw; apply _].
  apply rel_forEach_in; [apply _|intros pp Hpp]. apply keeps_inv_reject.
  intros s HI [_ [Hle _]]. pose proof (frame_requests W s c x HI Hle) as HF.
  rewrite list.Forall_forall in HF. by apply HF.
Qed.

Lemma finishUpAndReturn_keeps c :
  rel (keeps_inv W (fun s => c < nframes s)) (finishUpAndReturn W c).
Proof.
  unfold finishUpAndReturn. bind_frame.
  apply rel_bind; [apply _|walk_inv|intros returnValue].
  apply rel_bind; [apply _| |intros _].
  { apply rel_forEach_in; [apply _|intros pp Hpp]. apply keeps_inv_resolve.
    intros s HI [_ [Hle _]]. pose proof (frame_requests W s c x HI Hle) as HF.
    rewrite list.Forall_forall in HF. by apply HF. }
  apply rel_bind; [apply _|walk_inv|intros _].
  apply rel_bind; [apply _|walk_inv|intros _].
  bind_with post_waiting.
  walk_inv.
Qed.

Lemma cancel_values_keeps c v :
  rel (keeps_inv W (fun s => c < nframes s)) (cancel_values W c v).
Proof.
  unfold cancel_values. bind_frame. rename x into f. cbv zeta.
  destruct (existsb truthy (values_of v)); [walk_inv|].
  eapply bind_post;
    [apply _
    |apply (post_mapM W _ (fun a q s => prov_of s q (PExt (EOp OpUnload a))));
       [apply _|intros; apply _|intros; walk_inv|intros; apply post_ext_call]
    |walk_inv|intros unloadPromises; cbv beta].
  eapply bind_post;
    [apply _
    |apply (post_mapM W _ (fun a q s => prov_of s q (PExt (EOp OpUnmount a))));
       [apply _|intros; apply _|intros; walk_inv|intros; apply post_ext_call]
    |walk_inv|intros unmountPromises; cbv beta].
  eapply bind_post;
    [apply _
    |apply (post_mapM W _
              (fun p d s => prov_of s d (PThen p (Some KToUnloadPromise) None)));
       [apply _|intros; apply _|intros; walk_inv|intros; apply post_then]
    |walk_inv|intros unmountUnloadPromises; cbv beta].
  cbv zeta. bind_with post_promise_all. rename x into up.
  apply (keeps_inv_weaken W _ _ (fun s => c < nframes s /\ unmount_all s up)).
  { intros s HI HP. destruct_and?. split; [done|]. exists c.
    exists unmountUnloadPromises, unloadPromises.
    match goal with H : frame_le f _ |- _ => destruct H as (_ & _ & _ & E1 & E2 & _) end.
    rewrite E1, E2. split_and!; try done. by eapply Forall2_chain. }
  walk_inv.
Qed.

Lemma run_kont_keeps k v : rel (keeps_inv W (fun s => kont_ok s k)) (run_kont W k v).
Proof.
  destruct k; cbn [run_kont];
    first [ apply load_start_keeps; apply _ | apply load_call_keeps
          | apply cancel_values_keeps | apply reject_pending_keeps
          | apply finishUpAndReturn_keeps | solve [walk_inv] ].
Qed.

End Handlers.

Section Jobs.

Context (W : world).

(** What the callbacks the claims look at return. *)
Lemma run_kont_post k v s :
  kont_ok s k -> kpost W (snd (run_kont W k v s)) k v (fst (run_kont W k v s)).
Proof.
  intros Hk. destruct k; try done; cbn [run_kont].
  - (* KCallLoadApp *)
    destruct Hk as [Hl Ha]. unfold load_call, bind, tick, log, modify. simpl.
    destruct (loadApp W a (ticks s)) as [e|j|o] eqn:E; simpl.
    + right. eauto.
    + left. split; [done|]. by rewrite fn_lookup_insert.
    + match goal with |- context [ext_promise ?k ?o ?s1] =>
        destruct (returns_ext_promise k o s1) as [lp Hlp];
        destruct (ext_promise k o s1) as [[lp'|e] s2]; simpl in *; [|done]
      end.
      pose proof (then_result lp' (Some (KLoadResolved a l)) None s2) as Hd.
      destruct (then_ lp' _ _ s2) as [[d|e] s3]; simpl in *; [|done].
      eauto.
  - (* KToUnloadPromise *)
    unfold bind, as_app. destruct v as [| a | | | |]; simpl; try done.
    exists a, (length (heap s)). split_and!; try done.
    eexists. split; [simpl; apply lookup_snoc_last|done].
Qed.

(** The promise of a [then] is resolved with the result of its callback. *)
Lemma INV_settle_then s d p onF onR o r :
  INV W s -> prov_of s d (PThen p onF onR) -> settled_with s p o ->
  (forall c, resolved_as c r -> how W s c onF onR o) ->
  INV W (snd (settle_result d r s)).
Proof.
  intros HI (c0 & Hc0 & Hpv) Hp Hhow. apply INV_settle_result; [done|].
  intros c Hc _. assert (c = c0) as -> by congruence.
  unfold resolve_pre. rewrite Hpv. split_and!; try done.
  intros q onF' onR' [= <- <- <-]. exists o. done.
Qed.

Lemma grows_settle_result d r : rel grows (settle_result d r).
Proof. destruct r; [apply rel_grows_resolve|apply rel_grows_reject]. Qed.

Lemma run_callback_keeps s k v d p onF onR o :
  INV W s -> prov_of s d (PThen p onF onR) -> settled_with s p o -> kont_ok s k ->
  (forall s' c r, kpost W s' k v r -> resolved_as c r -> how W s' c onF onR o) ->
  INV W (snd (match run_kont W k v s with
              | (Ok v', s') => resolve d v' s'
              | (Throw e, s') => reject d e s'
              end)).
Proof.
  intros HI Hd Hp Hk Hhow.
  pose proof (run_kont_keeps W k v s) as [Hg HI1].
  pose proof (run_kont_post k v s Hk) as Hpost.
  destruct (run_kont W k v s) as [r s1]; simpl in *.
  assert (INV W (snd (settle_result d r s1))) as H.
  { eapply INV_settle_then; [by apply HI1| | |].
    - by eapply stable_prov_of.
    - by eapply stable_settled_with.
    - intros c Hr. by eapply Hhow. }
  by destruct r.
Qed.

Lemma run_then_keeps onF onR d o :
  rel (keeps_inv W (fun s => job_ok s (JReact (HThen onF onR d) o))) (run_then W onF onR d o).
Proof.
  intros s. split; [apply rel_grows_run_job with (j := JReact (HThen onF onR d) o)|].
  intros HI (p & Hp & Hd). simpl in Hd. pose proof HI as (I1 & _).
  destruct Hd as (cd & Hcd & Hpv). destruct (I1 d cd Hcd) as (_ & _ & _ & _ & _ & H6).
  destruct (H6 p onF onR Hpv) as [[HF HR] _].
  assert (prov_of s d (PThen p onF onR)) as Hd by (by exists cd).
  destruct Hp as (cp & Hcp & Hst). destruct (I1 p cp Hcp) as (_ & _ & _ & H4 & _).
  assert (settled_with s p o) as Hp by (by exists cp).
  destruct o as [v|v], onF as [kf|], onR as [kr|]; cbn [run_then].
  - eapply (run_callback_keeps s kf v d p); [done|exact Hd|exact Hp|by apply HF|].
    intros s' c r H1 H2. simpl. eauto.
  - eapply (run_callback_keeps s kf v d p); [done|exact Hd|exact Hp|by apply HF|].
    intros s' c r H1 H2. simpl. eauto.
  - eapply (INV_settle_then s d p _ _ _ (Ok v)); [done|exact Hd|exact Hp|].
    intros c Hr. simpl. destruct v; try done. by destruct (H4 _ Hst p0).
  - eapply (INV_settle_then s d p _ _ _ (Ok v)); [done|exact Hd|exact Hp|].
    intros c Hr. simpl. destruct v; try done. by destruct (H4 _ Hst p0).
  - eapply (run_callback_keeps s kr v d p); [done|exact Hd|exact Hp|by apply HR|].
    intros s' c r H1 H2. simpl. eauto.
  - eapply (INV_settle_then s d p _ _ _ (Throw v)); [done|exact Hd|exact Hp|done].
  - eapply (run_callback_keeps s kr v d p); [done|exact Hd|exact Hp|by apply HR|].
    intros s' c r H1 H2. simpl. eauto.
  - eapply (INV_settle_then s d p _ _ _ (Throw v)); [done|exact Hd|exact Hp|done].
Qed.

Lemma run_job_keeps j : rel (keeps_inv W (fun s => job_ok s j)) (run_job W j).
Proof.
  destruct j as [[onF onR d|d|agg i] o|d q]; cbn [run_job].
  - apply run_then_keeps.
  - intros s. split; [apply rel_grows_settle|]. intros HI (p & Hp & Hd). simpl in Hd.
    pose proof HI as (I1 & _). apply INV_settle; [done|]. intros c rs Hc Hst.
    destruct Hd as (c' & Hc' & Hl). assert (c' = c) as -> by congruence.
    destruct (I1 d c Hc) as (_ & H2 & _ & _ & H5 & H6).
    destruct Hp as (cp & Hcp & Hstp). destruct (I1 p cp Hcp) as (_ & _ & _ & H4 & _).
    unfold settle_pre. split_and!.
    + intros q0 Hq0. assert (q0 = p) as -> by congruence. by exists cp.
    + intros v -> q0. by apply (H4 v).
    + intros ins v Hpv. destruct (H2 ins Hpv) as (_ & A2 & _). congruence.
    + intros k v Hpv. destruct (H5 k Hpv) as (A1 & _). congruence.
    + intros q0 onF onR Hpv Hu. unfold unresolved in Hu. rewrite Hst, Hl in Hu. done.
  - intros s. split; [apply rel_grows_all_element|]. intros HI Hj.
    by apply INV_all_element.
  - intros s. split; [apply rel_grows_subscribe|]. intros HI Hj.
    by apply INV_subscribe.
Qed.

Lemma env_settle_keeps p r : rel (keeps_inv W (fun _ => True)) (env_settle p r).
Proof.
  intros s. unfold env_settle, bind, get. simpl.
  destruct (heap s !! p) as [c|] eqn:Hc; [|split; [reflexivity|done]].
  destruct c as [st lk sl pv]. destruct pv as [| | |k]; try (split; [reflexivity|done]).
  split; [apply rel_grows_settle|]. intros HI _. pose proof HI as (I1 & _).
  apply INV_settle; [done|]. intros c' rs Hc' Hst. assert (c' = Build_pcell st lk sl (PExt k))
    as -> by congruence.
  destruct (I1 p _ Hc) as (_ & _ & _ & _ & H5 & _). destruct (H5 k eq_refl) as [A1 _].
  simpl in *. subst lk. unfold settle_pre. simpl. split_and!; try done.
  - intros v Hv q ->. destruct r, k; simpl in Hv; congruence.
  - intros k' v [= <-] Hv. destruct r as [j|e0]; [by exists j|done].
Qed.

Lemma INV_pop s j js : INV W s -> queue s = j :: js -> INV W (set_queue js s) /\ job_ok s j.
Proof.
  intros HI Hq. pose proof HI as (I1 & I2 & I3 & I4). split.
  - apply (INV_step W s); [done| |by left| |done..].
    { apply grows_rest_only; simpl; auto using frame_le_refl, load_le_refl. }
    simpl. intros j' Hj'. left. rewrite Hq. by apply list_elem_of_further.
  - apply I2. rewrite Hq. apply list_elem_of_here.
Qed.

Lemma env_run_keeps e : rel (keeps (INV W)) (env_run W e).
Proof.
  assert (forall (m : M unit), rel (keeps_inv W (fun _ => True)) m -> rel (keeps (INV W)) m)
    as Hlift.
  { intros m Hm s HI. by apply (Hm s). }
  destruct e; cbn [env_run]; try (apply Hlift; solve [walk_inv]).
  - intros s HI. destruct (queue s) as [|j js] eqn:Hq; [done|].
    destruct (INV_pop s j js HI Hq) as [HI' Hj].
    by apply (run_job_keeps j (set_queue js s)).
  - apply Hlift. apply env_settle_keeps.
Qed.

Lemma INV_init url names : INV W (init url names).
Proof.
  unfold INV, init. simpl. split_and!.
  - intros p c Hp. by rewrite lookup_nil in Hp.
  - intros j Hj. by apply elem_of_nil in Hj.
  - split; simpl; intros; by match goal with H : _ ∈ [] |- _ => apply elem_of_nil in H end.
  - intros l Hl. simpl in Hl. lia.
Qed.

(** The invariant holds in every state the program can be in. *)
Lemma reachable_INV s : reachable W s -> INV W s.
Proof.
  apply reachable_inv; [intros; apply INV_init|apply env_run_keeps].
Qed.

End Jobs.

(** * Mounting waits for the unmounts and unloads of the reroute call *)

(** What a step adds to the trace. *)
Definition new_obs (s s' : state) : list obs := drop (length (trace s)) (trace s').

Definition no_mount (o : obs) : Prop :=
  match o with
  | ObsCall OpMount _ _ => False
  | _ => True
  end.

(** The callback that a job runs, and its argument. *)
Definition job_callback (j : job) : option (kont * val) :=
  match j with
  | JReact (HThen onF _ _) (Fulfilled v) => (fun k => (k, v)) <$> onF
  | JReact (HThen _ onR _) (Rejected v) => (fun k => (k, v)) <$> onR
  | _ => None
  end.

(** The unmount of [a] and the unload that follows it are done; [d] is the
    promise of the two. *)
Definition chain_done (s : state) (a : appid) (d : pid) : Prop :=
  exists pu pl,
    prov_of s d (PThen pu (Some KToUnloadPromise) None) /\
    prov_of s pu (PExt (EOp OpUnmount a)) /\ fulfilled s pu /\
    prov_of s pl (PExt (EOp OpUnload a)) /\ fulfilled s pl.

(** Every unmount and unload of the reroute call [c] is done; [up] is its
    [unmountAllPromise]. *)
Definition unmounts_settled (s : state) (c : cid) (up : pid) : Prop :=
  exists ds qs,
    prov_of s up (PAll (ds ++ qs)) /\
    Forall2 (chain_done s) (appsToUnmount (frames s c)) ds /\
    Forall2 (fun a q => prov_of s q (PExt (EOp OpUnload a)) /\ fulfilled s q)
      (appsToUnload (frames s c)) qs.

Lemma new_obs_emits P s s' : emits P s s' -> Forall P (new_obs s s').
Proof.
  intros (new & E & H). unfold new_obs. rewrite E.
  by rewrite drop_app_length.
Qed.

Lemma new_obs_app s s' new : trace s' = trace s ++ new -> new_obs s s' = new.
Proof. intros E. unfold new_obs. rewrite E. by rewrite drop_app_length. Qed.

Ltac walk_guard h ::= idtac.
Ltac walk_side ::= first [exact I | done | apply _ | inv_side].

Section Mount.

Context (W : world).

Lemma run_kont_no_mount k v :
  (forall a up, k <> KMountIfActive a up) -> rel (emits no_mount) (run_kont W k v).
Proof.
  intros Hk. pose proof (emits_log no_mount) as Hlog.
  destruct k; cbn [run_kont]; try (by destruct (Hk _ _ eq_refl)); clear Hk; walk.
Qed.

Lemma settle_result_trace d r : rel (same trace) (settle_result d r).
Proof. destruct r; simpl; walk. Qed.

Lemma emits_same P s s' : trace s' = trace s -> emits P s s'.
Proof. intros E. exists []. rewrite E, app_nil_r. by split. Qed.

Lemma run_job_no_mount j :
  (forall a up v, job_callback j <> Some (KMountIfActive a up, v)) ->
  rel (emits no_mount) (run_job W j).
Proof.
  intros Hj. pose proof (emits_log no_mount) as Hlog.
  destruct j as [[onF onR d|d|agg i] o|d q]; cbn [run_job];
    [|clear Hj; walk..].
  assert (forall k v, job_callback (JReact (HThen onF onR d) o) = Some (k, v) ->
            rel (emits no_mount) (fun s => match run_kont W k v s with
                                           | (Ok v', s') => resolve d v' s'
                                           | (Throw e, s') => reject d e s'
                                           end)) as Hrun.
  { intros k v Hkv s. pose proof (run_kont_no_mount k v) as Hk.
    pose proof (settle_result_trace d (fst (run_kont W k v s)) (snd (run_kont W k v s))) as Hs.
    destruct (run_kont W k v s) as [r s1] eqn:E. simpl in *.
    assert (emits no_mount s s1) as H1.
    { replace s1 with (snd (run_kont W k v s)) by (by rewrite E). apply Hk.
      intros a up ->. by eapply Hj. }
    etrans; [exact H1|]. apply emits_same. by destruct r. }
  clear Hj. destruct o as [v|v], onF as [kf|], onR as [kr|]; cbn [run_then];
    try (by apply Hrun); walk.
Qed.

Lemma env_run_no_mount e : e <> EnvRunJob -> rel (emits no_mount) (env_run W e).
Proof.
  intros He. pose proof (emits_log no_mount) as Hlog.
  destruct e; try done; clear He; cbn [env_run]; walk.
Qed.

(** The mount callback calls [toMountPromise] for its own application, and
    only when the application is active at that moment. *)
Lemma mount_job_obs a up v d onF onR o s a' p :
  job_callback (JReact (HThen onF onR d) o) = Some (KMountIfActive a up, v) ->
  ObsCall OpMount a' p ∈ new_obs s (snd (run_then W onF onR d o s)) ->
  a' = a /\ shouldBeActive W a (href s) = true.
Proof.
  intros Hj.
  assert (run_then W onF onR d o s =
          match run_kont W (KMountIfActive a up) v s with
          | (Ok v', s') => resolve d v' s'
          | (Throw e, s') => reject d e s'
          end) as ->.
  { destruct o as [w|w], onF as [kf|], onR as [kr|]; simpl in *; by simplify_eq. }
  cbn [run_kont]. unfold mount_if_active, bind, get, toMountPromise, ext_call, alloc, log,
    modify, ret. simpl.
  destruct (shouldBeActive W a (href s)) eqn:E; simpl.
  - match goal with |- context [resolve ?d ?v ?s1] =>
      pose proof (settle_result_trace d (Ok v) s1) as Hs
    end.
    unfold same in Hs. simpl in Hs.
    erewrite new_obs_app; [|symmetry; exact Hs].
    intros Hin. apply list_elem_of_singleton in Hin. by simplify_eq.
  - pose proof (settle_result_trace d (Ok (VApp a)) s) as Hs.
    unfold same in Hs. simpl in Hs.
    erewrite (new_obs_app s _ []); [|by rewrite app_nil_r].
    intros Hin. by apply elem_of_nil in Hin.
Qed.

(** Where a call of [toMountPromise] comes from: the step runs the job of a
    mount callback. *)
Lemma step_mount s e a p :
  ObsCall OpMount a p ∈ new_obs s (step W e s) ->
  exists onF onR d o js up v,
    e = EnvRunJob /\ queue s = JReact (HThen onF onR d) o :: js /\
    job_callback (JReact (HThen onF onR d) o) = Some (KMountIfActive a up, v) /\
    shouldBeActive W a (href s) = true.
Proof.
  intros Hin.
  assert (forall s0 s', emits no_mount s0 s' -> ObsCall OpMount a p ∈ new_obs s0 s' -> False)
    as Hno.
  { intros s0 s' He Hin'. apply new_obs_emits in He. rewrite list.Forall_forall in He.
    by apply (He _ Hin'). }
  assert (e = EnvRunJob \/ e <> EnvRunJob) as [->|Hne]
    by (destruct e; first [by left|by right]).
  2:{ exfalso. eapply Hno; [|exact Hin]. by apply env_run_no_mount. }
  unfold step in Hin. simpl in Hin. destruct (queue s) as [|j js] eqn:Hq.
  { exfalso. eapply Hno; [|exact Hin]. reflexivity. }
  change (new_obs s (run_job W j (set_queue js s)).2)
    with (new_obs (set_queue js s) (run_job W j (set_queue js s)).2) in Hin.
  destruct (job_callback j) as [[k v]|] eqn:Hj.
  2:{ exfalso. eapply Hno; [|exact Hin].
      apply (run_job_no_mount j). intros a0 up0 v0. congruence. }
  destruct j as [[onF onR d|d|agg i] o|d q]; try done.
  assert ((exists a0 up0, k = KMountIfActive a0 up0) \/
          forall a0 up0, k <> KMountIfActive a0 up0) as [(a0 & up0 & ->)|Hk]
    by (destruct k; first [by right|left; by eauto]).
  - cbn [run_job] in Hin. destruct (mount_job_obs _ _ _ _ _ _ _ _ _ _ Hj Hin) as [-> Ha].
    exists onF, onR, d, o, js, up0, v. done.
  - exfalso. eapply Hno; [|exact Hin].
    apply run_job_no_mount. intros a0 up0 v0 E. apply (Hk a0 up0). congruence.
Qed.

End Mount.

Section MountOrder.

Context (W : world).

Lemma settled_not_unresolved c o : pst c = Settled o -> unresolved c = false.
Proof. unfold unresolved. by intros ->. Qed.

(** A fulfilled unmount-then-unload promise: both operations are done. *)
Lemma chain_fulfilled s a d : INV W s -> chain s a d -> fulfilled s d -> chain_done s a d.
Proof.
  intros HI (pu & (cd & Hcd & Hpd) & Hpu) (v & cd' & Hcd' & Hst).
  assert (cd' = cd) as -> by congruence. pose proof HI as (I1 & _).
  destruct (I1 d cd Hcd) as (_ & _ & H3 & _ & _ & H6).
  destruct (H6 _ _ _ Hpd) as [_ Hhow].
  destruct (Hhow (settled_not_unresolved _ _ Hst)) as (o & Ho & Hh).
  destruct o as [w|e]; simpl in Hh; [|congruence].
  destruct Hh as (r & Hpost & Hr). destruct r as [v'|e]; simpl in Hr; [|congruence].
  simpl in Hpost. destruct Hpost as (a' & q & -> & -> & Hq). simpl in Hr.
  destruct Hr as [Hl|Hrej]; [|congruence].
  destruct Hpu as (cu & Hcu & Hpvu). destruct Ho as (cu' & Hcu' & Hstu).
  assert (cu' = cu) as -> by congruence.
  destruct (I1 pu cu Hcu) as (_ & _ & _ & _ & H5 & _).
  destruct (H5 _ Hpvu) as [_ Hext]. destruct (Hext _ Hstu) as [j Hj].
  simpl in Hj. injection Hj as ->.
  exists pu, q. split_and!.
  - by exists cd.
  - by exists cu.
  - exists (VApp a). by exists cu.
  - done.
  - exists v. by apply (H3 q).
Qed.

Lemma unmount_all_settled s c up :
  INV W s -> unmount_all_of s c up -> fulfilled s up -> unmounts_settled s c up.
Proof.
  intros HI (ds & qs & Hc & Hup & Hds & Hqs) (v & cu & Hcu & Hst).
  pose proof HI as (I1 & _). destruct (I1 up cu Hcu) as (_ & H2 & _).
  destruct Hup as (cu' & Hcu' & Hpv). assert (cu' = cu) as -> by congruence.
  destruct (H2 _ Hpv) as (_ & _ & _ & Hall). specialize (Hall v Hst).
  exists ds, qs. split_and!.
  - by exists cu.
  - assert (forall q, q ∈ ds -> fulfilled s q) as Hall'.
    { intros q Hq. apply Hall. apply elem_of_app. by left. }
    clear Hqs Hall Hpv. induction Hds as [|a d apps ds' Had _ IH]; constructor.
    + apply chain_fulfilled; [done..|]. apply Hall'. apply list_elem_of_here.
    + apply IH. intros q Hq. apply Hall'. by apply list_elem_of_further.
  - assert (forall q, q ∈ qs -> fulfilled s q) as Hall'.
    { intros q Hq. apply Hall. apply elem_of_app. by right. }
    clear Hds Hall Hpv. induction Hqs as [|a q apps qs' Haq _ IH]; constructor.
    + split; [done|]. apply Hall'. apply list_elem_of_here.
    + apply IH. intros q' Hq'. apply Hall'. by apply list_elem_of_further.
Qed.

(** The job of a mount callback is scheduled by the fulfilment of the
    [unmountAllPromise] the callback captured. *)
Lemma mount_job_site s onF onR d o a up v :
  INV W s -> JReact (HThen onF onR d) o ∈ queue s ->
  job_callback (JReact (HThen onF onR d) o) = Some (KMountIfActive a up, v) ->
  unmount_all s up /\ fulfilled s up.
Proof.
  intros HI Hin Hj. pose proof HI as (I1 & I2 & _).
  destruct (I2 _ Hin) as (p & Hp & (cd & Hcd & Hpv)).
  destruct (I1 d cd Hcd) as (_ & _ & _ & _ & _ & H6).
  destruct (H6 _ _ _ Hpv) as [[HF HR] _].
  destruct o as [w|w]; simpl in Hj.
  - destruct onF as [k|]; simpl in Hj; [|done]. injection Hj as -> ->.
    destruct (HF _ eq_refl) as [Hk Hs]. simpl in Hk, Hs. subst p.
    split; [done|by exists v].
  - destruct onR as [k|]; simpl in Hj; [|done]. injection Hj as -> ->.
    by destruct (HR _ eq_refl) as [_ []].
Qed.

End MountOrder.

(** Where a mount comes from, and what is done by then. *)
Lemma mount_step (W : world) (s : state) (e : env_action) (a : appid) (p : pid) :
  reachable W s ->
  ObsCall OpMount a p ∈ new_obs s (step W e s) ->
  shouldBeActive W a (href s) = true /\
  exists c up, c < nframes s /\ fulfilled s up /\ unmounts_settled s c up.
Proof.
  intros Hs Hin. pose proof (reachable_INV W s Hs) as HI.
  destruct (step_mount W s e a p Hin) as (onF & onR & d & o & js & up & v & -> & Hq & Hj & Ha).
  split; [done|].
  destruct (mount_job_site W s onF onR d o a up v HI) as [[c Hc] Hup]; [|done|].
  { rewrite Hq. apply list_elem_of_here. }
  exists c, up. split_and!; [by destruct Hc as (? & ? & ? & _)|done|].
  by apply (unmount_all_settled W).
Qed.



(** * Bootstrap does not wait *)

(** The calls of lifecycle drivers in a trace, in order. *)
Definition driver_call (o : obs) : option (extop * appid * pid) :=
  match o with
  | ObsCall op a p => Some (op, a, p)
  | _ => None
  end.

Definition driver_calls (t : list obs) : list (extop * appid * pid) := omap driver_call t.


Section Emits.

Context (W : world) (P : obs -> Prop).

(** The callbacks that may emit something else than [P]. *)
Context (special : kont -> bool).

Hypothesis run_kont_emits :
  forall k v, special k = false -> rel (emits P) (run_kont W k v).

Lemma run_job_emits j :
  (forall k v, job_callback j = Some (k, v) -> special k = false) ->
  rel (emits P) (run_job W j).
Proof.
  intros Hj. destruct j as [[onF onR d|d|agg i] o|d q]; cbn [run_job];
    [|clear Hj; walk..].
  assert (forall k v, job_callback (JReact (HThen onF onR d) o) = Some (k, v) ->
            rel (emits P) (fun s => match run_kont W k v s with
                                    | (Ok v', s') => resolve d v' s'
                                    | (Throw e, s') => reject d e s'
                                    end)) as Hrun.
  { intros k v Hkv s.
    pose proof (run_kont_emits k v (Hj k v Hkv) s) as H1.
    pose proof (settle_result_trace d (fst (run_kont W k v s)) (snd (run_kont W k v s))) as Hs.
    destruct (run_kont W k v s) as [r s1] eqn:E. simpl in *.
    etrans; [exact H1|]. apply emits_same. by destruct r. }
  clear Hj. destruct o as [v|v], onF as [kf|], onR as [kr|]; cbn [run_then];
    try (by apply Hrun); walk.
Qed.

Hypothesis popstate_ok : forall m, P (ObsPopState m).

Lemma env_run_emits e : e <> EnvRunJob -> rel (emits P) (env_run W e).
Proof.
  intros He. pose proof (emits_log P) as Hlog.
  destruct e; try done; clear He; cbn [env_run]; walk.
Qed.

(** A step that emits something else than [P] runs a special callback. *)
Lemma step_emits s e o :
  o ∈ new_obs s (step W e s) -> ~ P o ->
  exists j js k v, e = EnvRunJob /\ queue s = j :: js /\
                   job_callback j = Some (k, v) /\ special k = true.
Proof.
  intros Hin Ho.
  assert (forall s0 s', emits P s0 s' -> o ∈ new_obs s0 s' -> False) as Hno.
  { intros s0 s' He Hin'. apply new_obs_emits in He. rewrite list.Forall_forall in He.
    by apply Ho, He. }
  assert (e = EnvRunJob \/ e <> EnvRunJob) as [->|Hne]
    by (destruct e; first [by left|by right]).
  2:{ exfalso. eapply Hno; [|exact Hin]. by apply env_run_emits. }
  unfold step in Hin. simpl in Hin. destruct (queue s) as [|j js] eqn:Hq.
  { exfalso. eapply Hno; [|exact Hin]. reflexivity. }
  change (new_obs s (run_job W j (set_queue js s)).2)
    with (new_obs (set_queue js s) (run_job W j (set_queue js s)).2) in Hin.
  destruct (job_callback j) as [[k v]|] eqn:Hj.
  2:{ exfalso. eapply Hno; [|exact Hin]. apply (run_job_emits j). intros k v. congruence. }
  exists j, js, k, v. split_and!; try done.
  destruct (special k) eqn:Hk; [done|].
  exfalso. eapply Hno; [|exact Hin]. apply (run_job_emits j). intros k' v'. congruence.
Qed.

End Emits.

Definition no_bootstrap (o : obs) : Prop :=
  match o with
  | ObsCall OpBootstrap _ _ => False
  | _ => True
  end.

(** The callbacks that call [tryToBootstrapAndMount]. *)
Definition calls_try_mount (k : kont) : bool :=
  match k with
  | KCancelValues _ | KLoadedTryMount _ => true
  | _ => false
  end.

Section Bootstrap.

Context (W : world).

(** A bootstrap is called for an application that is active at [u]. *)
Definition boot_ok (u : string) (o : obs) : Prop :=
  match o with
  | ObsCall OpBootstrap a _ => shouldBeActive W a u = true
  | _ => True
  end.

(** While the location stays [u], only such bootstraps are called. *)
Definition boots (u : string) : state -> state -> Prop :=
  fun s s' => href s = u -> href s' = u /\ emits (boot_ok u) s s'.

Global Instance boots_preorder u : PreOrder (boots u).
Proof.
  split.
  - intros s Hu. split; [done|reflexivity].
  - intros s1 s2 s3 H12 H23 Hu. destruct (H12 Hu) as [Hu2 E12].
    destruct (H23 Hu2) as [Hu3 E23]. split; [done|by etrans].
Qed.

Lemma boots_log u o : boot_ok u o -> rel (boots u) (log o).
Proof. intros Ho s Hu. split; [done|]. by apply emits_log. Qed.

Lemma run_kont_no_bootstrap k v :
  calls_try_mount k = false -> rel (emits no_bootstrap) (run_kont W k v).
Proof.
  intros Hk. pose proof (emits_log no_bootstrap) as Hlog.
  destruct k; try done; clear Hk; cbn [run_kont]; walk.
Qed.

Lemma tryToBootstrapAndMount_boots u a up : rel (boots u) (tryToBootstrapAndMount W a up).
Proof.
  intros s Hu. unfold tryToBootstrapAndMount, bind, get. simpl.
  destruct (shouldBeActive W a (href s)) eqn:E.
  - unfold toBootstrapPromise, ext_call, bind, alloc, log, modify. simpl.
    match goal with |- context [then_ ?p ?onF ?onR ?s1] =>
      pose proof (then_rest p onF onR s1) as Hr
    end.
    apply rest_fields in Hr. destruct_and?. simpl in *. split; [congruence|].
    exists [ObsCall OpBootstrap a (length (heap s))]. split; [done|].
    constructor; [|done]. simpl. congruence.
  - pose proof (then_rest up (Some (KReturnApp a)) None s) as Hr.
    apply rest_fields in Hr. destruct_and?. split; [congruence|]. by apply emits_same.
Qed.

Lemma no_bootstrap_ok u o : no_bootstrap o -> boot_ok u o.
Proof. by destruct o as [| |[]| | | | | |]. Qed.

Lemma cancel_values_boots c v s :
  Forall (boot_ok (href s)) (new_obs s (snd (cancel_values W c v s))).
Proof.
  destruct (existsb truthy (values_of v)) eqn:Hv.
  - assert (rel (emits no_bootstrap) (cancel_values W c v)) as He.
    { pose proof (emits_log no_bootstrap) as Hlog. unfold cancel_values.
      apply rel_bind; [apply _|walk|intros f]. cbv zeta. rewrite Hv. walk. }
    specialize (He s). apply new_obs_emits in He.
    eapply list.Forall_impl; [exact He|]. apply no_bootstrap_ok.
  - assert (rel (boots (href s)) (cancel_values W c v)) as Hb.
    { generalize (href s). intros u.
      pose proof (boots_log u) as Hlog. pose proof (tryToBootstrapAndMount_boots u) as Htry.
      unfold cancel_values.
      apply rel_bind; [apply _|walk|intros f]. cbv zeta. rewrite Hv. walk. }
    destruct (Hb s eq_refl) as [_ He]. by apply new_obs_emits.
Qed.

Lemma run_kont_boots k v s :
  Forall (boot_ok (href s)) (new_obs s (snd (run_kont W k v s))).
Proof.
  destruct (calls_try_mount k) eqn:Hk.
  2:{ pose proof (run_kont_no_bootstrap k v Hk s) as He. apply new_obs_emits in He.
      eapply list.Forall_impl; [exact He|]. apply no_bootstrap_ok. }
  destruct k; try done; cbn [run_kont]; [apply cancel_values_boots|].
  assert (rel (boots (href s)) (a <- as_app v;; p <- tryToBootstrapAndMount W a up;;
                                ret (VProm p))) as Hb.
  { generalize (href s). intros u.
    pose proof (boots_log u) as Hlog. pose proof (tryToBootstrapAndMount_boots u) as Htry.
    walk. }
  destruct (Hb s eq_refl) as [_ He]. by apply new_obs_emits.
Qed.

(** Whenever a step calls [toBootstrapPromise] for an application, the
    application is active for the location at that moment. *)
Lemma step_bootstrap s e a p :
  ObsCall OpBootstrap a p ∈ new_obs s (step W e s) -> shouldBeActive W a (href s) = true.
Proof.
  intros Hin.
  destruct (step_emits W no_bootstrap calls_try_mount run_kont_no_bootstrap
              (fun _ => I) s e _ Hin) as (j & js & k & v & -> & Hq & Hj & Hk); [by intros []|].
  unfold step in Hin. simpl in Hin. rewrite Hq in Hin.
  destruct j as [[onF onR d|d|agg i] o|d q]; try done. cbn [run_job] in Hin.
  assert (run_then W onF onR d o (set_queue js s) =
          match run_kont W k v (set_queue js s) with
          | (Ok v', s') => resolve d v' s'
          | (Throw e, s') => reject d e s'
          end) as E.
  { destruct o as [w|w], onF as [kf|], onR as [kr|]; simpl in *; by simplify_eq. }
  rewrite E in Hin. clear E.
  pose proof (run_kont_boots k v (set_queue js s)) as Hb.
  pose proof (settle_result_trace d (fst (run_kont W k v (set_queue js s)))
                (snd (run_kont W k v (set_queue js s)))) as Hs.
  destruct (run_kont W k v (set_queue js s)) as [r s1]. simpl in *.
  assert (new_obs s (snd (settle_result d r s1)) = new_obs (set_queue js s) s1) as En.
  { unfold new_obs. simpl. by rewrite <- Hs. }
  assert (ObsCall OpBootstrap a p ∈ new_obs (set_queue js s) s1) as Hin'.
  { rewrite <- En. by destruct r. }
  rewrite list.Forall_forall in Hb. by apply (Hb _ Hin').
Qed.

End Bootstrap.

Lemma tryToBootstrapAndMount_calls (W : world) a up s :
  driver_calls (new_obs s (snd (tryToBootstrapAndMount W a up s))) =
    if shouldBeActive W a (href s) then [(OpBootstrap, a, length (heap s))] else [].
Proof.
  unfold tryToBootstrapAndMount, bind, get. simpl.
  destruct (shouldBeActive W a (href s)) eqn:E.
  - unfold toBootstrapPromise, ext_call, bind, alloc, log, modify. simpl.
    match goal with |- context [then_ ?p ?onF ?onR ?s1] =>
      pose proof (then_rest p onF onR s1) as Hr
    end.
    apply rest_fields in Hr. destruct Hr as (Ht & _). simpl in Ht.
    by rewrite (new_obs_app s _ [ObsCall OpBootstrap a (length (heap s))]).
  - pose proof (then_rest up (Some (KReturnApp a)) None s) as Hr.
    apply rest_fields in Hr. destruct Hr as (Ht & _).
    rewrite (new_obs_app s _ []); [done|]. by rewrite app_nil_r.
Qed.



(** * The release of the buffered navigation events *)

(** The events dispatched and the captured listeners called for the reroute
    call [c], in order. *)
Definition cycle_log (c : cid) (t : list obs) : list (string + listener * event) :=
  omap (fun o => match o with
                 | ObsDispatch c' nm _ => if Nat.eqb c c' then Some (inl nm) else None
                 | ObsListener c' l e => if Nat.eqb c c' then Some (inr (l, e)) else None
                 | _ => None
                 end) t.


(** What a listener does leaves the registry alone. *)
Definition registry_free (act : action) : Prop :=
  match act with
  | ActAddEventListener _ _ | ActRemoveEventListener _ _ => False
  | _ => True
  end.

(** The calls of one replay. *)
Definition released (c : cid) (reg : captured) (oe : option event)
    : list (cid * listener * event) :=
  match oe with
  | Some e =>
      if in_routing_events (ev_type e)
      then map (fun l => (c, l, e)) (listeners_of (ev_type e) reg)
      else []
  | None => []
  end.

(** The callbacks that call [callAllEventListeners]. *)
Definition releases (k : kont) : bool :=
  match k with
  | KLoadAppsListeners _ | KLoadAppsCatch _ | KUnmountCatch _ | KUnmountDone _ _ _ => true
  | _ => false
  end.

Section Release.

Context (W : world).

Lemma run_kont_no_listener_call k v :
  releases k = false -> rel (emits not_listener_call) (run_kont W k v).
Proof.
  intros Hk. pose proof (emits_log not_listener_call) as Hlog.
  destruct k; try done; clear Hk; cbn [run_kont]; walk.
Qed.

Lemma finishUpAndReturn_no_listener_call c :
  rel (emits not_listener_call) (finishUpAndReturn W c).
Proof. apply (run_kont_no_listener_call (KFinishUpAndReturn c) undefined eq_refl). Qed.

Hypothesis listeners_static : forall l e t, Forall registry_free (listenerBody W l e t).

Lemma run_actions_registry cap acts :
  Forall registry_free acts -> rel (same capturedEventListeners) (run_actions W cap acts).
Proof.
  intros Hacts. unfold run_actions. apply rel_forEach_in; [apply _|].
  intros act Hact. rewrite list.Forall_forall in Hacts. specialize (Hacts act Hact).
  destruct act; try done; cbn [run_action]; walk.
Qed.

Lemma callCapturedEventListeners_registry c oe :
  rel (same capturedEventListeners) (callCapturedEventListeners W c oe).
Proof.
  pose proof run_actions_registry as Hr. unfold callCapturedEventListeners.
  destruct oe as [e|]; [|walk]. cbv zeta. destruct (in_routing_events (ev_type e)); walk.
Qed.

Lemma callCapturedEventListeners_released c oe s :
  listener_calls (trace (snd (callCapturedEventListeners W c oe s))) =
    listener_calls (trace s) ++ released c (capturedEventListeners s) oe.
Proof.
  destruct oe as [e|]; [|simpl; by rewrite app_nil_r].
  unfold released. destruct (in_routing_events (ev_type e)) eqn:Hr.
  - by rewrite callCapturedEventListeners_spec.
  - unfold callCapturedEventListeners. rewrite Hr. simpl. by rewrite app_nil_r.
Qed.

Lemma callCapturedEventListeners_returns c oe s :
  fst (callCapturedEventListeners W c oe s) = Ok tt.
Proof.
  destruct oe as [e|]; [|done]. unfold callCapturedEventListeners.
  destruct (in_routing_events (ev_type e)); [|done].
  unfold bind, get. simpl. apply replay_all_spec.
Qed.

Lemma replay_pending_released c (pps : list pending_request) s :
  let s' := snd (forEach (fun pp => callCapturedEventListeners W c (pp_eventArguments pp))
                   pps s) in
  fst (forEach (fun pp => callCapturedEventListeners W c (pp_eventArguments pp)) pps s)
    = Ok tt /\
  capturedEventListeners s' = capturedEventListeners s /\
  listener_calls (trace s') =
    listener_calls (trace s) ++
    flat_map (released c (capturedEventListeners s)) (map pp_eventArguments pps).
Proof.
  revert s. induction pps as [|pp pps IH]; intros s; simpl.
  - by rewrite app_nil_r.
  - unfold bind.
    pose proof (callCapturedEventListeners_released c (pp_eventArguments pp) s) as H1.
    pose proof (callCapturedEventListeners_registry c (pp_eventArguments pp) s) as H2.
    pose proof (callCapturedEventListeners_returns c (pp_eventArguments pp) s) as H3.
    destruct (callCapturedEventListeners W c (pp_eventArguments pp) s) as [[[]|err] s1];
      simpl in *; [|done].
    destruct (IH s1) as (R1 & R2 & R3). unfold same in H2.
    split_and!; [done|congruence|]. rewrite R3, H1, <- H2. by rewrite app_assoc.
Qed.

Lemma callAllEventListeners_released c s :
  listener_calls (trace (snd (callAllEventListeners W c s))) =
    listener_calls (trace s) ++
    if silentNavigation (frames s c) then []
    else flat_map (released c (capturedEventListeners s))
           (map pp_eventArguments (pendingPromises (frames s c)) ++
            [eventArguments (frames s c)]).
Proof.
  unfold callAllEventListeners, bind, frame_of, get. simpl.
  destruct (silentNavigation (frames s c)); simpl; [by rewrite app_nil_r|].
  destruct (replay_pending_released c (pendingPromises (frames s c)) s) as (R1 & R2 & R3).
  destruct (forEach _ _ s) as [[[]|e] s1]; simpl in *; [|done].
  rewrite callCapturedEventListeners_released, R3, R2, flat_map_app. simpl.
  by rewrite app_nil_r, app_assoc.
Qed.


End Release.


(** * Starting and queueing reroute calls *)

Lemma substring_all (b : string) : String.substring 0 (String.length b) b = b.
Proof. induction b as [|ch b IH]; simpl; [done|by rewrite IH]. Qed.

Lemma length_app_string (a b : string) :
  String.length (a +:+ b) = String.length a + String.length b.
Proof. induction a as [|ch a IH]; simpl; [done|by rewrite IH]. Qed.

Lemma substring_suffix (a b : string) :
  String.substring (String.length a) (String.length (a +:+ b) - String.length a) (a +:+ b) = b.
Proof.
  rewrite length_app_string.
  replace (String.length a + String.length b - String.length a) with (String.length b) by lia.
  induction a as [|ch a IH]; simpl; [apply substring_all|done].
Qed.

(** The variables of a reroute call that starts. *)
Definition frame_for (W : world) (s : state) (pendingPromises : list pending_request)
    (eventArguments : option event) (silentNavigation : bool) : frame :=
  let ch := getAppChanges W (apps s) (registered s) (href s) (now s) in
  {| pendingPromises := pendingPromises; eventArguments := eventArguments;
     silentNavigation := silentNavigation;
     appsToUnload := c_appsToUnload ch; appsToUnmount := c_appsToUnmount ch;
     appsToLoad := c_appsToLoad ch; appsToMount := c_appsToMount ch;
     appsThatChanged := c_appsToUnload ch ++ c_appsToLoad ch ++
                        c_appsToUnmount ch ++ c_appsToMount ch;
     cancelPromises := [];
     oldUrl := currentUrl s; newUrl := href s |}.

Section Reroute.

Context (W : world).

Lemma path_of_origin path : path_of W (location_origin W +:+ path) = path.
Proof. unfold path_of. apply substring_suffix. Qed.

(** While a reroute call is underway, a call of [reroute] only joins the
    queue: it makes the promise it returns and nothing else. *)
Lemma reroute_queues L ev silent s :
  appChangeUnderway s = true ->
  reroute W L ev silent s =
    (Ok (length (heap s)),
     set_peopleWaitingOnAppChange
       (peopleWaitingOnAppChange s ++
          [{| pp_promise := length (heap s); pp_eventArguments := ev |}])
       (set_heap (heap s ++ [new_cell PPlain 0]) s)).
Proof. intros H. unfold reroute, bind, get. simpl. by rewrite H. Qed.

Lemma performAppChanges_rest c : rel (same rest) (performAppChanges c).
Proof.
  pose proof promise_resolve_rest. pose proof then_rest.
  unfold performAppChanges. apply rel_bind; [apply _|done|intros p0]. done.
Qed.

Lemma performAppChanges_returns c : returns (performAppChanges c).
Proof.
  unfold performAppChanges. apply returns_bind; [apply returns_promise_resolve|].
  intros p0. apply returns_then.
Qed.

(** When none is underway and single-spa is started, a call of [reroute]
    starts a reroute call: it takes the next frame and sets the flag. *)
Lemma reroute_starts L ev silent s :
  appChangeUnderway s = false -> started s = true ->
  (exists d, fst (reroute W L ev silent s) = Ok d) /\
  rest (snd (reroute W L ev silent s)) =
    rest (set_nframes (S (nframes s))
            (set_frames (<[nframes s := frame_for W s L ev silent]> (frames s))
               (set_appChangeUnderway true (set_currentUrl (href s) s)))).
Proof.
  intros H1 H2. unfold reroute, bind, get, isStarted, modify, new_frame. simpl.
  rewrite H1. simpl. rewrite H2. simpl.
  match goal with |- context [performAppChanges ?c ?s1] =>
    pose proof (performAppChanges_rest c s1) as Hr;
    destruct (performAppChanges_returns c s1) as [d Hd]
  end.
  split; [by exists d|]. unfold same in Hr. by rewrite <- Hr.
Qed.

End Reroute.

Section Cancel.

Context (W : world).

Lemma run_grows es s : grows s (run W es s).
Proof.
  revert s. induction es as [|e es IH]; intros s; simpl; [reflexivity|].
  etrans; [apply (rel_grows_env_run W e s)|apply IH].
Qed.

Lemma fireSingleSpaEvent_silent c nm d s :
  silentNavigation (frames s c) = true -> fireSingleSpaEvent W c nm d s = (Ok tt, s).
Proof. intros H. unfold fireSingleSpaEvent, bind, frame_of, get. simpl. by rewrite H. Qed.

Lemma callAllEventListeners_silent c s :
  silentNavigation (frames s c) = true -> callAllEventListeners W c s = (Ok tt, s).
Proof. intros H. unfold callAllEventListeners, bind, frame_of, get. simpl. by rewrite H. Qed.


End Cancel.

(** * One reroute call at a time *)

(** While a reroute call is underway the flag stays set, no reroute call
    starts, and the queue of waiting requests only grows at its end. *)
Definition queues : state -> state -> Prop :=
  fun s s' =>
    appChangeUnderway s = true ->
    appChangeUnderway s' = true /\ nframes s' = nframes s /\
    peopleWaitingOnAppChange s `prefix_of` peopleWaitingOnAppChange s'.

Global Instance queues_preorder : PreOrder queues.
Proof.
  split.
  - intros s H. by split_and!.
  - intros s1 s2 s3 H12 H23 H. destruct (H12 H) as (A1 & A2 & A3).
    destruct (H23 A1) as (B1 & B2 & B3). split_and!; [done|congruence|by etrans].
Qed.

(** The callbacks that end a reroute call. *)
Definition finishes (k : kont) : bool :=
  match k with
  | KFinishUpAndReturn _ | KCancelValues _ => true
  | _ => false
  end.

Lemma returns_get {A} (f : state -> A) : returns (get f).
Proof. intros s. by eexists. Qed.

Lemma returns_resolve p v : returns (resolve p v).
Proof.
  intros s. unfold resolve. destruct (heap s !! p) as [c|]; [|by eexists].
  destruct (unresolved c); [|by eexists].
  destruct v; try apply returns_settle.
  case_decide; [apply returns_settle|]. by eexists.
Qed.

Lemma returns_try_catch {A} (m : M A) h :
  (forall e, returns (h e)) -> returns (try_catch m h).
Proof.
  intros Hh s. unfold try_catch. destruct (m s) as [[a|e] s']; [by eexists|apply Hh].
Qed.

Lemma rel_and {A} (R1 R2 : state -> state -> Prop) (m : M A) :
  rel R1 m -> rel R2 m -> rel (fun s s' => R1 s s' /\ R2 s s') m.
Proof. intros H1 H2 s. split; [apply H1|apply H2]. Qed.

Section SingleFlight.

Context (W : world).

Lemma reroute_queues_rel L ev silent : rel queues (reroute W L ev silent).
Proof.
  intros s H. rewrite (reroute_queues W L ev silent s H). simpl.
  split_and!; [done..|]. by apply prefix_app_r.
Qed.

Lemma run_kont_queues k v : finishes k = false -> rel queues (run_kont W k v).
Proof.
  intros Hk. pose proof reroute_queues_rel as Hr.
  destruct k; try done; clear Hk; cbn [run_kont]; walk.
Qed.

Lemma run_job_queues j :
  (forall k v, job_callback j = Some (k, v) -> finishes k = false) ->
  rel queues (run_job W j).
Proof.
  intros Hj. destruct j as [[onF onR d|d|agg i] o|d q]; cbn [run_job];
    [|clear Hj; walk..].
  assert (forall k v, job_callback (JReact (HThen onF onR d) o) = Some (k, v) ->
            rel queues (fun s => match run_kont W k v s with
                                 | (Ok v', s') => resolve d v' s'
                                 | (Throw e, s') => reject d e s'
                                 end)) as Hrun.
  { intros k v Hkv s.
    pose proof (run_kont_queues k v (Hj k v Hkv) s) as H1.
    assert (rel queues (settle_result d (fst (run_kont W k v s)))) as H2
      by (destruct (fst (run_kont W k v s)); simpl; walk).
    specialize (H2 (snd (run_kont W k v s))).
    destruct (run_kont W k v s) as [r s1]. simpl in *.
    etrans; [exact H1|]. by destruct r. }
  clear Hj. destruct o as [v|v], onF as [kf|], onR as [kr|]; cbn [run_then];
    try (by apply Hrun); walk.
Qed.

Lemma env_run_queues e : e <> EnvRunJob -> rel queues (env_run W e).
Proof.
  intros He. pose proof reroute_queues_rel as Hr.
  destruct e; try done; clear He; cbn [env_run]; walk.
Qed.

Lemma step_queues e s :
  (forall j js k v, e = EnvRunJob -> queue s = j :: js -> job_callback j = Some (k, v) ->
     finishes k = false) ->
  queues s (step W e s).
Proof.
  intros Hq.
  assert (e = EnvRunJob \/ e <> EnvRunJob) as [->|Hne]
    by (destruct e; first [by left|by right]).
  2:{ by apply env_run_queues. }
  unfold step. simpl. destruct (queue s) as [|j js] eqn:E; [reflexivity|].
  change (queues (set_queue js s) (snd (run_job W j (set_queue js s)))).
  apply run_job_queues. intros k v Hj. by eapply Hq.
Qed.

End SingleFlight.

Section Finish.

Context (W : world).

(** What [finishUpAndReturn] does before it clears the flag. *)
Lemma finish_events_queues nm c d : rel queues (fireSingleSpaEvent W c nm d).
Proof. pose proof (reroute_queues_rel W) as Hr. walk. Qed.

Lemma finish_events_started nm c d : rel (same started) (fireSingleSpaEvent W c nm d).
Proof. walk. Qed.

(** When a reroute call completes, the requests that queued up while it ran
    are taken over, all of them, by exactly one new reroute call; when there
    are none, no reroute call starts and the flag is left cleared. *)
Lemma finishUpAndReturn_batches c s :
  appChangeUnderway s = true -> started s = true ->
  let s' := snd (finishUpAndReturn W c s) in
  exists waiting,
    peopleWaitingOnAppChange s `prefix_of` waiting /\
    peopleWaitingOnAppChange s' = [] /\
    match waiting with
    | [] => nframes s' = nframes s /\ appChangeUnderway s' = false
    | _ => nframes s' = S (nframes s) /\ appChangeUnderway s' = true /\
           pendingPromises (frames s' (nframes s)) = waiting /\
           eventArguments (frames s' (nframes s)) = None /\
           silentNavigation (frames s' (nframes s)) = false
    end.
Proof.
  intros Hflag Hst. cbv zeta.
  set (POST := fun s' : state => exists waiting,
    peopleWaitingOnAppChange s `prefix_of` waiting /\
    peopleWaitingOnAppChange s' = [] /\
    match waiting with
    | [] => nframes s' = nframes s /\ appChangeUnderway s' = false
    | _ => nframes s' = S (nframes s) /\ appChangeUnderway s' = true /\
           pendingPromises (frames s' (nframes s)) = waiting /\
           eventArguments (frames s' (nframes s)) = None /\
           silentNavigation (frames s' (nframes s)) = false
    end).
  set (R := fun s s' : state => queues s s' /\ same started s s').
  assert (PreOrder R) as HR.
  { split; [intros x; split; reflexivity|].
    intros x y z [A1 A2] [B1 B2]. split; by etrans. }
  assert (wp (finishUpAndReturn W c) (fun _ => POST) (fun _ => POST) s) as Hwp.
  2:{ apply wp_fst_snd in Hwp. by destruct (fst (finishUpAndReturn W c s)). }
  pose proof (reroute_queues_rel W) as Hr.
  pose proof finish_events_queues as Hq. pose proof finish_events_started as Hs.
  unfold finishUpAndReturn.
  apply wp_bind. eapply (wp_returns R); [apply returns_get|apply rel_and; walk|].
  intros f s1 R1.
  apply wp_bind. eapply (wp_returns R);
    [apply returns_bind; [apply returns_get|intros; apply returns_ret]|apply rel_and; walk|].
  intros rv s2 R2.
  apply wp_bind. eapply (wp_returns R);
    [apply returns_forEach; intros; apply returns_resolve|apply rel_and; walk|].
  intros [] s3 R3.
  apply wp_bind. eapply (wp_returns R);
    [apply returns_try_catch; intros; apply returns_log|apply rel_and; walk|].
  intros [] s4 R4.
  assert (R s s4) as [Hqs Hss].
  { etrans; [exact R1|]. etrans; [exact R2|]. etrans; [exact R3|exact R4]. }
  destruct (Hqs Hflag) as (F4 & N4 & P4). unfold same in Hss.
  unfold wp, bind, modify, get. simpl.
  destruct (peopleWaitingOnAppChange s4) as [|pp more] eqn:Hw; simpl.
  - exists []. split_and!; simpl; try done.
  - match goal with |- context [reroute W ?L ?ev false ?s5] =>
      destruct (reroute_starts W L ev false s5 eq_refl) as [[d Hd] Hrest];
        [simpl; congruence|];
      destruct (reroute W L ev false s5) as [[p|e] s6]
    end; simpl in *; [|done].
    apply rest_fields in Hrest. simpl in Hrest. destruct_and?.
    exists (pp :: more). split_and!; try congruence.
    all: match goal with H : _ = frames _ |- _ => rewrite <- H end;
      rewrite N4, fn_lookup_insert; done.
Qed.

End Finish.

(** * Counting the callbacks that wait

    The callbacks of a kind [T] that are registered on pending promises or
    sit in jobs of the queue are counted; a potential adds to the count a
    number read from the rest of the state.  An operation has gain [n] when
    it raises the potential by [n] at most. *)

Lemma sum_list_with_insert {A} (f : A -> nat) (l : list A) p c c' :
  l !! p = Some c ->
  sum_list_with f (<[p := c']> l) + f c = sum_list_with f l + f c'.
Proof.
  revert p. induction l as [|x l IH]; intros p Hp; [done|].
  destruct p as [|p]; simpl in *.
  - injection Hp as ->. lia.
  - specialize (IH p Hp). lia.
Qed.

Section Potential.

Context (T : kont -> bool) (extra : state -> nat).

Definition tok (k : kont) : nat := if T k then 1 else 0.

Definition tok_opt (o : option kont) : nat :=
  match o with
  | Some k => tok k
  | None => 0
  end.

Definition tok_handler (h : handler) : nat :=
  match h with
  | HThen onF onR _ => tok_opt onF + tok_opt onR
  | _ => 0
  end.

Definition count_cell (c : pcell) : nat :=
  match pst c with
  | Pending rs => sum_list_with tok_handler rs
  | Settled _ => 0
  end.

Definition count_job (j : job) : nat :=
  match j with
  | JReact h _ => tok_handler h
  | JThenable _ _ => 0
  end.

Definition count (s : state) : nat :=
  sum_list_with count_cell (heap s) + sum_list_with count_job (queue s).

Definition potential (s : state) : nat := count s + extra s.

Definition gain (n : nat) : state -> state -> Prop :=
  fun s s' => potential s' <= potential s + n.

Global Instance gain_preorder : PreOrder (gain 0).
Proof.
  split.
  - intros s. unfold gain. lia.
  - intros s1 s2 s3. unfold gain. lia.
Qed.

Lemma gain_bind {A B} a b (m : M A) (f : A -> M B) :
  rel (gain a) m -> (forall x, rel (gain b) (f x)) -> rel (gain (a + b)) (bind m f).
Proof.
  intros Hm Hf s. unfold bind. specialize (Hm s).
  destruct (m s) as [[x|e] s1]; simpl in *.
  - specialize (Hf x s1). unfold gain in *. lia.
  - unfold gain in *. lia.
Qed.

Lemma gain_mono {A} a b (m : M A) : a <= b -> rel (gain a) m -> rel (gain b) m.
Proof. intros Hab Hm s. specialize (Hm s). unfold gain in *. lia. Qed.

Hypothesis extra_heap : forall h s, extra (set_heap h s) = extra s.
Hypothesis extra_queue : forall q s, extra (set_queue q s) = extra s.

(** A step on the store: the count is what the potential moves by. *)
Lemma gain_store n s s' :
  extra s' = extra s -> count s' <= count s + n -> gain n s s'.
Proof. unfold gain, potential. lia. Qed.

Lemma gain_alloc pv n : rel (gain 0) (alloc pv n).
Proof.
  intros s. apply gain_store; simpl; [by rewrite extra_heap|].
  unfold count. simpl. rewrite sum_list_with_app. simpl.
  change (count_cell (new_cell pv n)) with 0. lia.
Qed.

Lemma gain_enqueue j : rel (gain (count_job j)) (enqueue j).
Proof.
  intros s. apply gain_store; simpl; [by rewrite extra_queue|].
  unfold count. simpl. rewrite sum_list_with_app. simpl. lia.
Qed.

Lemma count_job_react rs o :
  sum_list_with count_job (map (fun h => JReact h o) rs) = sum_list_with tok_handler rs.
Proof. induction rs as [|h rs IH]; simpl; [done|by rewrite IH]. Qed.

Lemma gain_settle p o : rel (gain 0) (settle p o).
Proof.
  intros s. unfold settle. destruct (heap s !! p) as [c|] eqn:Hp; [|reflexivity].
  destruct (pst c) as [rs|] eqn:Hst; [|reflexivity]. simpl.
  apply gain_store; simpl; [by rewrite extra_queue, extra_heap|].
  unfold count. simpl. rewrite sum_list_with_app, count_job_react.
  pose proof (sum_list_with_insert count_cell (heap s) p c (set_pst (Settled o) c) Hp) as H.
  assert (count_cell c = sum_list_with tok_handler rs) as E1
    by (unfold count_cell; by rewrite Hst).
  assert (count_cell (set_pst (Settled o) c) = 0) as E2 by done.
  lia.
Qed.

Lemma gain_subscribe p h : rel (gain (tok_handler h)) (subscribe p h).
Proof.
  intros s. unfold subscribe. destruct (heap s !! p) as [c|] eqn:Hp.
  2:{ unfold gain. simpl. lia. }
  destruct (pst c) as [rs|] eqn:Hst; [|apply (gain_enqueue (JReact h o))].
  apply gain_store; simpl; [by rewrite extra_heap|].
  unfold count. simpl.
  pose proof (sum_list_with_insert count_cell (heap s) p c
                (set_pst (Pending (rs ++ [h])) c) Hp) as H.
  assert (count_cell c = sum_list_with tok_handler rs) as E1
    by (unfold count_cell; by rewrite Hst).
  assert (count_cell (set_pst (Pending (rs ++ [h])) c) =
          sum_list_with tok_handler rs + tok_handler h) as E2.
  { unfold count_cell. simpl. rewrite sum_list_with_app. simpl. lia. }
  lia.
Qed.

Lemma gain_update_cell p f :
  (forall c, pst (f c) = pst c) -> rel (gain 0) (update_cell p f).
Proof.
  intros Hf s. unfold update_cell, modify. simpl.
  apply gain_store; simpl; [by rewrite extra_heap|].
  unfold count. simpl. destruct (heap s !! p) as [c|] eqn:Hp.
  - rewrite (alter_as_insert _ _ _ c Hp).
    pose proof (sum_list_with_insert count_cell (heap s) p c (f c) Hp) as H.
    assert (count_cell (f c) = count_cell c) as E by (unfold count_cell; by rewrite Hf).
    lia.
  - assert (alter f p (heap s) = heap s) as ->; [|lia].
    apply list_eq. intros i. destruct (decide (i = p)) as [->|Hne].
    + by rewrite list_lookup_alter_eq, Hp.
    + by rewrite list_lookup_alter_ne.
Qed.

Lemma gain_resolve p v : rel (gain 0) (resolve p v).
Proof.
  intros s. unfold resolve. destruct (heap s !! p) as [c|]; [|reflexivity].
  destruct (unresolved c); [|reflexivity].
  destruct v; try apply gain_settle.
  case_decide; [apply gain_settle|].
  apply (gain_bind 0 0); [by apply gain_update_cell|intros _].
  apply (gain_enqueue (JThenable p p0)).
Qed.

Lemma gain_reject p e : rel (gain 0) (reject p e).
Proof.
  intros s. unfold reject. destruct (heap s !! p) as [c|]; [|reflexivity].
  destruct (unresolved c); [apply gain_settle|reflexivity].
Qed.

Lemma gain_all_element agg i o : rel (gain 0) (all_element agg i o).
Proof.
  destruct o as [v|e]; [|apply gain_reject].
  intros s. simpl. destruct (heap s !! agg) as [c|] eqn:Hp; [|reflexivity].
  destruct (slots c !! i) as [[w|]|]; try reflexivity.
  assert (gain 0 s (set_heap (<[agg:=set_slots (<[i:=Some v]> (slots c)) c]> (heap s)) s))
    as Hg.
  { apply gain_store; simpl; [by rewrite extra_heap|]. unfold count. simpl.
    pose proof (sum_list_with_insert count_cell (heap s) agg c
                  (set_slots (<[i:=Some v]> (slots c)) c) Hp) as H.
    assert (count_cell (set_slots (<[i:=Some v]> (slots c)) c) = count_cell c) as E by done.
    lia. }
  destruct (all_some _); [|done].
  etrans; [exact Hg|apply gain_resolve].
Qed.

Lemma gain_then p onF onR : rel (gain (tok_opt onF + tok_opt onR)) (then_ p onF onR).
Proof.
  unfold then_. apply (gain_bind 0 (tok_opt onF + tok_opt onR)); [apply gain_alloc|intros d].
  apply (gain_mono (tok_handler (HThen onF onR d) + 0)); [simpl; lia|].
  apply gain_bind; [apply gain_subscribe|intros _ s; reflexivity].
Qed.

Lemma gain_promise_resolve v : rel (gain 0) (promise_resolve v).
Proof.
  destruct v; simpl; try (intros s; reflexivity).
  all: apply (gain_bind 0 0); [apply gain_alloc|intros d];
    apply (gain_bind 0 0); [apply gain_settle|intros _ s; reflexivity].
Qed.

Lemma gain_forEach {A} (f : A -> M unit) xs :
  (forall x, rel (gain 0) (f x)) -> rel (gain 0) (forEach f xs).
Proof. apply rel_forEach. apply _. Qed.

Lemma gain_promise_all ps : rel (gain 0) (promise_all ps).
Proof.
  unfold promise_all. apply (gain_bind 0 0); [apply gain_alloc|intros agg].
  destruct ps as [|q ps].
  - apply (gain_bind 0 0); [apply gain_settle|intros _ s; reflexivity].
  - apply (gain_bind 0 0); [|intros _ s; reflexivity].
    apply gain_forEach. intros ip. apply (gain_subscribe _ (HAll agg (fst ip))).
Qed.

Lemma gain_ext_promise k o : rel (gain 0) (ext_promise k o).
Proof.
  unfold ext_promise. apply (gain_bind 0 0); [apply gain_alloc|intros p].
  destruct o; [|intros s; reflexivity].
  apply (gain_bind 0 0); [apply gain_settle|intros _ s; reflexivity].
Qed.

(** Taking the next job off the queue. *)
Lemma potential_pop s j js :
  queue s = j :: js -> potential (set_queue js s) + count_job j = potential s.
Proof.
  intros Hq. unfold potential, count. simpl. rewrite extra_queue, Hq. simpl. lia.
Qed.

Lemma gain_settle_result d r : rel (gain 0) (settle_result d r).
Proof. destruct r; [apply gain_resolve|apply gain_reject]. Qed.

End Potential.

Section PotentialJobs.

Context (W : world) (T : kont -> bool) (extra : state -> nat).

Hypothesis extra_heap : forall h s, extra (set_heap h s) = extra s.
Hypothesis extra_queue : forall q s, extra (set_queue q s) = extra s.

(** Every callback of the kind [T] has gain one at most, and the others none. *)
Hypothesis run_kont_gain : forall k v, rel (gain T extra (tok T k)) (run_kont W k v).

(** Running the next job does not raise the potential: the callback it runs
    was counted. *)
Lemma run_job_potential j js s :
  queue s = j :: js ->
  potential T extra (snd (run_job W j (set_queue js s))) <= potential T extra s.
Proof.
  intros Hq. pose proof (potential_pop T extra extra_queue s j js Hq) as Hpop.
  assert (forall n, n <= count_job T j ->
            gain T extra n (set_queue js s) (snd (run_job W j (set_queue js s))) ->
            potential T extra (snd (run_job W j (set_queue js s))) <= potential T extra s)
    as Hdone.
  { intros n Hn Hg. unfold gain in Hg. lia. }
  destruct j as [[onF onR d|d|agg i] o|d q]; cbn [run_job].
  - assert (forall k v, tok T k <= count_job T (JReact (HThen onF onR d) o) ->
              potential T extra
                (snd (match run_kont W k v (set_queue js s) with
                      | (Ok v', s') => resolve d v' s'
                      | (Throw e, s') => reject d e s'
                      end)) <= potential T extra s) as Hrun.
    { intros k v Hk.
      pose proof (run_kont_gain k v (set_queue js s)) as Hrk.
      pose proof (gain_settle_result T extra extra_heap extra_queue d
                    (fst (run_kont W k v (set_queue js s)))
                    (snd (run_kont W k v (set_queue js s)))) as Hsr.
      destruct (run_kont W k v (set_queue js s)) as [r s1]. simpl in *.
      assert (potential T extra (snd (settle_result d r s1)) <= potential T extra s) as Hle
        by (unfold gain in *; lia).
      by destruct r. }
    destruct o as [v|v], onF as [kf|], onR as [kr|]; cbn [run_then];
      try (apply Hrun; simpl; lia).
    all: apply (Hdone 0); [lia|]; cbn [run_job run_then];
      first [apply (gain_resolve T extra extra_heap extra_queue)
            |apply (gain_reject T extra extra_heap extra_queue)].
  - apply (Hdone 0); [lia|]. apply (gain_settle T extra extra_heap extra_queue).
  - apply (Hdone 0); [lia|]. apply (gain_all_element T extra extra_heap extra_queue).
  - apply (Hdone 0); [lia|]. apply (gain_subscribe T extra extra_heap extra_queue q (HAdopt d)).
Qed.

(** The potential never passes [n] when the calls from outside do not raise
    it either. *)
Lemma reachable_potential n :
  (forall path names, potential T extra (init (location_origin W +:+ path) names) <= n) ->
  (forall e, e <> EnvRunJob -> rel (gain T extra 0) (env_run W e)) ->
  forall s, reachable W s -> potential T extra s <= n.
Proof.
  intros Hinit Henv. apply (reachable_inv W (fun s => potential T extra s <= n)); [done|].
  intros e s Hs.
  assert (e = EnvRunJob \/ e <> EnvRunJob) as [->|Hne]
    by (destruct e; first [by left|by right]).
  - simpl. destruct (queue s) as [|j js] eqn:Hq; [done|].
    pose proof (run_job_potential j js s Hq). lia.
  - specialize (Henv e Hne s). unfold gain in Henv. lia.
Qed.

End PotentialJobs.

(** ** The continuation of the reroute call that is underway *)

(** The callbacks a started reroute call goes through, one after the other. *)
Definition is_token (k : kont) : bool :=
  match k with
  | KPerformAppChanges _ | KCancelValues _ | KUnmountDone _ _ _ | KFinishUpAndReturn _ => true
  | _ => false
  end.

Definition idle (s : state) : nat := if appChangeUnderway s then 0 else 1.

(** The number of those callbacks that wait, plus one when no reroute call
    is underway. *)
Definition flight : state -> nat := potential is_token idle.

Ltac flight_facts :=
  pose proof (gain_alloc is_token idle (fun _ _ => eq_refl));
  pose proof (gain_settle is_token idle (fun _ _ => eq_refl) (fun _ _ => eq_refl));
  pose proof (gain_resolve is_token idle (fun _ _ => eq_refl) (fun _ _ => eq_refl));
  pose proof (gain_reject is_token idle (fun _ _ => eq_refl) (fun _ _ => eq_refl));
  pose proof (gain_all_element is_token idle (fun _ _ => eq_refl) (fun _ _ => eq_refl));
  pose proof (gain_promise_resolve is_token idle (fun _ _ => eq_refl) (fun _ _ => eq_refl));
  pose proof (gain_promise_all is_token idle (fun _ _ => eq_refl) (fun _ _ => eq_refl));
  pose proof (gain_ext_promise is_token idle (fun _ _ => eq_refl) (fun _ _ => eq_refl)).

Ltac walk_guard h ::=
  lazymatch h with
  | then_ => fail | @reroute => fail | subscribe => fail
  | _ => idtac
  end.

Section Flight.

Context (W : world).

Lemma flight_then p onF onR :
  tok_opt is_token onF + tok_opt is_token onR = 0 ->
  rel (gain is_token idle 0) (then_ p onF onR).
Proof.
  intros H. rewrite <- H. apply gain_then; intros; reflexivity.
Qed.

Lemma flight_subscribe p h :
  tok_handler is_token h = 0 -> rel (gain is_token idle 0) (subscribe p h).
Proof. intros H. rewrite <- H. apply gain_subscribe; intros; reflexivity. Qed.

Lemma flight_then_token p k :
  rel (gain is_token idle 1) (then_ p (Some k) None).
Proof.
  apply (gain_mono _ _ (tok_opt is_token (Some k) + tok_opt is_token None));
    [simpl; unfold tok; destruct (is_token k); lia|].
  apply gain_then; intros; reflexivity.
Qed.

Lemma flight_clear : rel (gain is_token idle 1) (modify (set_appChangeUnderway false)).
Proof.
  intros s. unfold gain, potential, count, idle. simpl. destruct (appChangeUnderway s); lia.
Qed.

Lemma reroute_flight L ev silent : rel (gain is_token idle 0) (reroute W L ev silent).
Proof.
  flight_facts. pose proof flight_then as Hthen.
  intros s. destruct (appChangeUnderway s) eqn:Hf.
  - rewrite (reroute_queues W L ev silent s Hf). simpl.
    clear. unfold gain, potential, count, idle. simpl. rewrite sum_list_with_app. simpl.
    change (count_cell is_token (new_cell PPlain 0)) with 0. lia.
  - unfold reroute, bind, get, isStarted, modify, new_frame. simpl. rewrite Hf. simpl.
    destruct (started s) eqn:Hst; simpl.
    + match goal with |- context [performAppChanges ?c ?s3] =>
        assert (gain is_token idle 1 s3 (snd (performAppChanges c s3))) as Hgain
      end.
      { unfold performAppChanges. apply (gain_bind _ _ 0 1); [done|intros p0].
        apply flight_then_token. }
      revert Hgain Hf. clear. unfold gain, potential, count, idle. simpl.
      intros H Hf. rewrite Hf in *. lia.
    + match goal with |- context [loadApps ?c ?s3] =>
        assert (gain is_token idle 0 s3 (snd (loadApps c s3))) as Hgain
      end.
      { assert (rel (gain is_token idle 0) (loadApps (nframes s))) as Hl
          by (unfold loadApps; walk).
        apply Hl. }
      revert Hgain Hf. clear. unfold gain, potential, count, idle. simpl.
      intros H Hf. rewrite Hf in *. lia.
Qed.

End Flight.

(** A part of a callback body that does not raise the potential, followed by
    the rest. *)
Ltac quiet_step :=
  apply (gain_bind is_token idle 0 1); [solve [walk]|intros ?].

Section FlightJobs.

Context (W : world).

Lemma run_kont_flight k v : rel (gain is_token idle (tok is_token k)) (run_kont W k v).
Proof.
  flight_facts. pose proof flight_then as Hthen. pose proof flight_subscribe as Hsub.
  pose proof (reroute_flight W) as Hreroute.
  destruct k; cbn [run_kont]; change (tok is_token _) with 0 || change (tok is_token _) with 1;
    try (solve [walk]).
  - (* KPerformAppChanges *)
    unfold perform_start. repeat quiet_step.
    apply (gain_bind _ _ 1 0); [apply flight_then_token|intros; walk].
  - (* KCancelValues *)
    unfold cancel_values. quiet_step. cbv zeta. destruct (existsb truthy (values_of v)).
    + repeat quiet_step.
      apply (gain_bind _ _ 1 0); [apply flight_clear|intros; walk].
    + repeat quiet_step.
      apply (gain_bind _ _ 1 0); [apply flight_then_token|intros; walk].
  - (* KUnmountDone *)
    unfold unmount_done. repeat quiet_step.
    apply (gain_bind _ _ 1 0); [apply flight_then_token|intros; walk].
  - (* KFinishUpAndReturn *)
    unfold finishUpAndReturn. repeat quiet_step.
    apply (gain_bind _ _ 1 0); [apply flight_clear|intros; walk].
Qed.

Lemma env_run_flight e : e <> EnvRunJob -> rel (gain is_token idle 0) (env_run W e).
Proof.
  intros He. flight_facts. pose proof flight_then as Hthen.
  pose proof flight_subscribe as Hsub. pose proof (reroute_flight W) as Hreroute.
  destruct e; try done; clear He; cbn [env_run]; walk.
Qed.

(** At most one continuation of a started reroute call waits, and none when
    no reroute call is underway. *)
Lemma reachable_flight s : reachable W s -> flight s <= 1.
Proof.
  apply (reachable_potential W is_token idle (fun _ _ => eq_refl) (fun _ _ => eq_refl)
           run_kont_flight 1); [|apply env_run_flight].
  intros. unfold potential, count, idle. simpl. lia.
Qed.

End FlightJobs.

(** ** The call of the loading function of a load attempt *)

(** The callback that calls the loading function for the attempt [l]. *)
Definition calls_loader (l : nat) (k : kont) : bool :=
  match k with
  | KCallLoadApp _ l' => Nat.eqb l' l
  | _ => false
  end.

Definition loader_call (l : nat) (o : obs) : nat :=
  match o with
  | ObsLoadApp _ l' => if Nat.eqb l' l then 1 else 0
  | _ => 0
  end.

(** How often the loading function was called for the attempt [l]. *)
Definition loader_calls (l : nat) (t : list obs) : nat := sum_list_with (loader_call l) t.

(** The calls made for the attempt [l], plus one while the attempt is still
    to begin. *)
Definition attempt (l : nat) (s : state) : nat :=
  loader_calls l (trace s) + (if Nat.ltb l (nloads s) then 0 else 1).

Ltac attempt_facts l :=
  pose proof (gain_alloc (calls_loader l) (attempt l) (fun _ _ => eq_refl));
  pose proof (gain_settle (calls_loader l) (attempt l) (fun _ _ => eq_refl) (fun _ _ => eq_refl));
  pose proof (gain_resolve (calls_loader l) (attempt l) (fun _ _ => eq_refl) (fun _ _ => eq_refl));
  pose proof (gain_reject (calls_loader l) (attempt l) (fun _ _ => eq_refl) (fun _ _ => eq_refl));
  pose proof (gain_all_element (calls_loader l) (attempt l) (fun _ _ => eq_refl)
                (fun _ _ => eq_refl));
  pose proof (gain_promise_resolve (calls_loader l) (attempt l) (fun _ _ => eq_refl)
                (fun _ _ => eq_refl));
  pose proof (gain_promise_all (calls_loader l) (attempt l) (fun _ _ => eq_refl)
                (fun _ _ => eq_refl));
  pose proof (gain_ext_promise (calls_loader l) (attempt l) (fun _ _ => eq_refl)
                (fun _ _ => eq_refl)).

Ltac walk_guard h ::=
  lazymatch h with
  | then_ => fail | subscribe => fail | load_start => fail | @load_call => fail
  | _ => idtac
  end.

Section Attempt.

Context (W : world) (l : nat).

Lemma attempt_then p onF onR :
  tok_opt (calls_loader l) onF + tok_opt (calls_loader l) onR = 0 ->
  rel (gain (calls_loader l) (attempt l) 0) (then_ p onF onR).
Proof. intros H. rewrite <- H. apply gain_then; intros; reflexivity. Qed.

Lemma attempt_subscribe p h :
  tok_handler (calls_loader l) h = 0 ->
  rel (gain (calls_loader l) (attempt l) 0) (subscribe p h).
Proof. intros H. rewrite <- H. apply gain_subscribe; intros; reflexivity. Qed.

Lemma attempt_log o :
  loader_call l o = 0 -> rel (gain (calls_loader l) (attempt l) 0) (log o).
Proof.
  intros Ho s. unfold gain, potential, count, attempt, loader_calls. simpl.
  rewrite sum_list_with_app. simpl. lia.
Qed.

Lemma load_call_attempt a l' :
  rel (gain (calls_loader l) (attempt l) (tok (calls_loader l) (KCallLoadApp a l')))
    (load_call W a l').
Proof.
  attempt_facts l. pose proof attempt_then as Hthen. pose proof attempt_log as Hlog.
  unfold load_call.
  apply (gain_bind _ _ 0 (tok (calls_loader l) (KCallLoadApp a l'))); [walk|intros t].
  apply (gain_mono _ _ (tok (calls_loader l) (KCallLoadApp a l') + 0)); [lia|].
  apply gain_bind; [|intros _; walk].
  intros s. unfold gain, potential, count, attempt, loader_calls, tok. simpl.
  rewrite sum_list_with_app. simpl. lia.
Qed.

Lemma load_start_attempt a : rel (gain (calls_loader l) (attempt l) 0) (load_start a).
Proof.
  attempt_facts l. pose proof attempt_then as Hthen. pose proof attempt_log as Hlog.
  unfold load_start.
  apply (gain_bind _ _ 0 0); [walk|intros x].
  destruct (loadPromise x); [walk|]. destruct (_ && _); [walk|].
  apply (gain_bind _ _ 0 0); [walk|intros _].
  intros s. unfold bind at 1. unfold new_load_frame at 1. cbv beta iota.
  match goal with |- gain _ _ _ _ (snd (?rest ?s1)) =>
    assert (rel (gain (calls_loader l) (attempt l)
                   (tok (calls_loader l) (KCallLoadApp a (nloads s)))) rest) as Hrest;
      [|specialize (Hrest s1); revert Hrest]
  end.
  { apply (gain_bind _ _ 0 (tok (calls_loader l) (KCallLoadApp a (nloads s))));
      [walk|intros p0].
    apply (gain_mono _ _ (tok (calls_loader l) (KCallLoadApp a (nloads s)) + 0)); [lia|].
    apply gain_bind; [|intros d1; walk].
    apply (gain_mono _ _ (tok_opt (calls_loader l) (Some (KCallLoadApp a (nloads s))) +
                          tok_opt (calls_loader l) None)); [simpl; lia|].
    apply gain_then; intros; reflexivity. }
  clear. unfold gain, potential, count, attempt, tok. simpl.
  destruct (Nat.ltb_spec l (S (nloads s))), (Nat.ltb_spec l (nloads s)),
    (Nat.eqb_spec (nloads s) l); lia.
Qed.

Lemma run_kont_attempt k v :
  rel (gain (calls_loader l) (attempt l) (tok (calls_loader l) k)) (run_kont W k v).
Proof.
  attempt_facts l. pose proof attempt_then as Hthen. pose proof attempt_log as Hlog.
  pose proof attempt_subscribe as Hsub. pose proof load_start_attempt as Hstart.
  destruct k; cbn [run_kont]; try apply load_call_attempt;
    change (tok (calls_loader l) _) with 0; walk.
Qed.

Lemma env_run_attempt e :
  e <> EnvRunJob -> rel (gain (calls_loader l) (attempt l) 0) (env_run W e).
Proof.
  intros He. attempt_facts l. pose proof attempt_then as Hthen.
  pose proof attempt_log as Hlog. pose proof attempt_subscribe as Hsub.
  destruct e; try done; clear He; cbn [env_run]; walk.
Qed.

(** For every load attempt the loading function is called once at most; while
    the callback that calls it waits, it was not called. *)
Lemma reachable_attempt s :
  reachable W s ->
  count (calls_loader l) s + loader_calls l (trace s) <= 1.
Proof.
  intros Hs.
  pose proof (reachable_potential W (calls_loader l) (attempt l) (fun _ _ => eq_refl)
                (fun _ _ => eq_refl) run_kont_attempt 1) as H.
  lapply H; [clear H; intros H|].
  - specialize (H env_run_attempt s Hs). unfold potential, attempt in H. lia.
  - intros. unfold potential, count, attempt, loader_calls. simpl. lia.
Qed.

End Attempt.

(** * The claims about the scheduler and the loader *)




(** C8.  A call of [toLoadPromise] on a record that holds a load promise joins
    it: the callback returns that promise and changes nothing, so that the
    promise of the caller settles as the stored one does.  On a record without
    load promise whose status is neither NOT_LOADED nor LOAD_ERROR it returns
    the record and changes nothing.  Otherwise it begins a load attempt, marks
    the record LOADING_SOURCE_CODE and stores the promise of the attempt
    without calling the loading function yet.  In every state the program can
    be in, the loading function was called once at most for each load attempt,
    and not yet when the callback that calls it still waits; and a promise
    resolved with another one settles as that one does. *)
Theorem concurrent_loads_share_one_attempt (W : world) (a : appid) (s : state) :
  (forall lp, loadPromise (apps s a) = Some lp -> load_start a s = (Ok (VProm lp), s)) /\
  (loadPromise (apps s a) = None ->
   app_status (apps s a) <> NOT_LOADED -> app_status (apps s a) <> LOAD_ERROR ->
   load_start a s = (Ok (VApp a), s)) /\
  (can_load (apps s a) ->
   exists d, fst (load_start a s) = Ok (VProm d) /\
             loadPromise (apps (snd (load_start a s)) a) = Some d /\
             app_status (apps (snd (load_start a s)) a) = LOADING_SOURCE_CODE /\
             trace (snd (load_start a s)) = trace s /\
             nloads (snd (load_start a s)) = S (nloads s)) /\
  (reachable W s ->
   (forall l, count (calls_loader l) s + loader_calls l (trace s) <= 1) /\
   (forall d q o, locked_to s d q -> settled_with s d o -> settled_with s q o)).
Proof.
  split_and!.
  - intros lp. apply load_start_joins.
  - apply load_start_noop.
  - intros Hc. pose proof (load_start_loads a s Hc) as Hwp. apply wp_fst_snd in Hwp.
    destruct (fst (load_start a s)) as [r|e]; [|done].
    destruct Hwp as (d & -> & Hrest). by exists d.
  - intros Hs. split.
    + intros l. by apply (reachable_attempt W).
    + intros d q o (c & Hc & Hl) (c' & Hc' & Hst). assert (c' = c) as -> by congruence.
      destruct (reachable_INV W s Hs) as (I1 & _).
      destruct (I1 d c Hc) as (_ & _ & H3 & _). by apply (H3 q).
Qed.

(** * Further properties of the code

    ** The registry of captured listeners (navigation-events.js) *)

Lemma set_listeners_same eventName c :
  set_listeners eventName (listeners_of eventName c) c = c.
Proof. unfold set_listeners, listeners_of. destruct c. by repeat case_match. Qed.

Lemma listeners_of_set k eventName ls c :
  in_routing_events eventName = true ->
  listeners_of k (set_listeners eventName ls c) =
    if String.eqb k eventName then ls else listeners_of k c.
Proof.
  unfold in_routing_events, routingEventsListeningTo, set_listeners, listeners_of. simpl.
  destruct (String.eqb_spec eventName "hashchange") as [->|H1]; simpl.
  - intros _. destruct (String.eqb_spec k "hashchange") as [->|H2]; simpl; done.
  - destruct (String.eqb_spec eventName "popstate") as [->|H2]; simpl; [intros _|done].
    destruct (String.eqb_spec k "hashchange") as [->|H3]; simpl; [done|].
    by destruct (String.eqb_spec k "popstate").
Qed.

Lemma listeners_of_other k c : in_routing_events k = false -> listeners_of k c = [].
Proof.
  unfold in_routing_events, routingEventsListeningTo, listeners_of. simpl.
  destruct (String.eqb k "hashchange"); [done|]. by destruct (String.eqb k "popstate").
Qed.

Lemma set_capturedEventListeners_same s :
  set_capturedEventListeners (capturedEventListeners s) s = s.
Proof. by destruct s. Qed.

Lemma filter_ne_absent (fn : nat) (ls : list nat) : fn ∉ ls -> filter (fun g => g ≠ fn) ls = ls.
Proof.
  induction ls as [|g ls IH]; intros H; [done|].
  rewrite filter_cons. apply not_elem_of_cons in H as [H1 H2].
  rewrite decide_True by done. by rewrite IH.
Qed.

Lemma filter_ne_snoc (fn : nat) (ls : list nat) :
  filter (fun g => g ≠ fn) (ls ++ [fn]) = filter (fun g => g ≠ fn) ls.
Proof.
  rewrite list.filter_app, filter_cons. rewrite decide_False by (intros H; by apply H).
  by rewrite filter_nil, app_nil_r.
Qed.

Lemma removeEventListener_patched eventName fn s :
  historyApiIsPatched s = true ->
  removeEventListener eventName fn s =
    (Ok tt,
     if in_routing_events eventName
     then set_capturedEventListeners
            (set_listeners eventName
               (filter (fun g => g ≠ fn) (listeners_of eventName (capturedEventListeners s)))
               (capturedEventListeners s)) s
     else s).
Proof.
  intros Hp. unfold removeEventListener, bind, get, modify, ret. simpl. rewrite Hp.
  by destruct (in_routing_events eventName).
Qed.

Lemma addEventListener_patched eventName fn s :
  historyApiIsPatched s = true ->
  addEventListener eventName fn s =
    (Ok tt,
     if in_routing_events eventName &&
        negb (existsb (Nat.eqb fn) (listeners_of eventName (capturedEventListeners s)))
     then set_capturedEventListeners
            (set_listeners eventName (listeners_of eventName (capturedEventListeners s) ++ [fn])
               (capturedEventListeners s)) s
     else s).
Proof.
  intros Hp. unfold addEventListener, bind, get, modify, ret. simpl. rewrite Hp. simpl.
  by destruct (_ && _).
Qed.

Lemma set_listeners_twice eventName ls ls' c :
  set_listeners eventName ls (set_listeners eventName ls' c) = set_listeners eventName ls c.
Proof. unfold set_listeners. destruct c. by repeat case_match. Qed.



(** ** Starting single-spa and patching the history API (start.js,
    navigation-events.js) *)

(** The switches that [start] and [patchHistoryApi] set. *)
Definition switches (s : state) : bool * bool * bool * bool :=
  (started s, historyApiIsPatched s, originalReplaceState s, urlRerouteOnly s).

Ltac walk_guard h ::= idtac.

Lemma tuple4_eq {A B C D} (a a' : A) (b b' : B) (c c' : C) (d d' : D) :
  (a, b, c, d) = (a', b', c', d') -> a = a' /\ b = b' /\ c = c' /\ d = d'.
Proof. intros H. by inversion H. Qed.

Section Switches.

Context (W : world).

Lemma run_kont_switches k v : rel (same switches) (run_kont W k v).
Proof. destruct k; simpl; walk. Qed.

Lemma run_job_switches j : rel (same switches) (run_job W j).
Proof. pose proof run_kont_switches. walk_job. Qed.

Lemma reroute_switches L ev silent : rel (same switches) (reroute W L ev silent).
Proof. walk. Qed.

Lemma patchHistoryApi_twice opts s :
  historyApiIsPatched s = true -> patchHistoryApi opts s = (Throw (VErr (ErrCode 43)), s).
Proof. intros H. unfold patchHistoryApi, bind, get. simpl. by rewrite H. Qed.

Lemma patchHistoryApi_first opts s :
  historyApiIsPatched s = false ->
  patchHistoryApi opts s =
    (Ok tt, set_originalReplaceState true
              (set_historyApiIsPatched true (set_urlRerouteOnly (default true opts) s))).
Proof.
  intros H. unfold patchHistoryApi, bind, get, modify. simpl. rewrite H. by destruct opts.
Qed.

(** What a step does to the switches. *)
Lemma step_switches e s :
  switches (step W e s) =
    match e with
    | EnvStart opts =>
        if historyApiIsPatched s
        then (true, true, originalReplaceState s, urlRerouteOnly s)
        else (true, true, true, default true opts)
    | EnvPatchHistoryApi opts =>
        if historyApiIsPatched s then switches s
        else (started s, true, true, default true opts)
    | _ => switches s
    end.
Proof.
  pose proof run_job_switches as Hj. pose proof reroute_switches as Hr.
  assert (forall e', (forall o, e' <> EnvStart o) -> (forall o, e' <> EnvPatchHistoryApi o) ->
            rel (same switches) (env_run W e')) as Hother.
  { intros e' H1 H2. destruct e'; try (by destruct (H1 opts)); try (by destruct (H2 opts));
      [apply rel_env_run_job; [side..|done]|..]; simpl; walk. }
  unfold step. destruct e; try (symmetry; by apply Hother).
  - simpl. unfold start, bind, modify. simpl.
    destruct (historyApiIsPatched s) eqn:Hp.
    + rewrite patchHistoryApi_twice by done. simpl. unfold switches. simpl. by rewrite Hp.
    + rewrite patchHistoryApi_first by done.
      match goal with |- context [reroute W [] None false ?s1] =>
        pose proof (Hr [] None false s1) as H; destruct (reroute W [] None false s1) as [[p|x] s2]
      end; simpl in *; by rewrite <- H.
  - simpl. destruct (historyApiIsPatched s) eqn:Hp.
    + by rewrite patchHistoryApi_twice.
    + rewrite patchHistoryApi_first by done. done.
Qed.

Lemma run_switches es s :
  (started s = true -> started (run W es s) = true) /\
  (historyApiIsPatched s = true ->
   historyApiIsPatched (run W es s) = true /\ urlRerouteOnly (run W es s) = urlRerouteOnly s).
Proof.
  revert s. induction es as [|e es IH]; intros s; [done|]. simpl.
  destruct (IH (step W e s)) as [IH1 IH2].
  pose proof (step_switches e s) as Hs. unfold switches in Hs.
  split.
  - intros H. apply IH1.
    destruct e; try destruct (historyApiIsPatched s);
      apply tuple4_eq in Hs as (E1 & E2 & E3 & E4); congruence.
  - intros H. rewrite H in Hs.
    assert (historyApiIsPatched (step W e s) = true /\
            urlRerouteOnly (step W e s) = urlRerouteOnly s) as [A1 A2].
    { destruct e; apply tuple4_eq in Hs as (E1 & E2 & E3 & E4); split; congruence. }
    destruct (IH2 A1) as [B1 B2]. split; congruence.
Qed.

Lemma reachable_switches s :
  reachable W s ->
  originalReplaceState s = historyApiIsPatched s /\
  (started s = true -> historyApiIsPatched s = true).
Proof.
  induction 1 as [|s e Hs [IH1 IH2]]; [done|].
  pose proof (step_switches e s) as H. unfold switches in H.
  destruct e; try destruct (historyApiIsPatched s) eqn:Hp;
    apply tuple4_eq in H as (E1 & E2 & E3 & E4); split; try congruence.
  all: intros Hst; rewrite E2; try done; apply IH2; congruence.
Qed.

End Switches.

(** X3.  Once the history API is patched it stays patched: in every state
    the program can be in, the original [replaceState] is saved exactly when
    the API is patched, and single-spa is not started without the patch;
    from then on [patchHistoryApi] throws error 43 and changes nothing, so
    that the [urlRerouteOnly] option of the first call stays in force
    whatever is called later, and a started single-spa stays started. *)
Theorem history_api_patch_is_permanent (W : world) (s : state) :
  reachable W s ->
  originalReplaceState s = historyApiIsPatched s /\
  (started s = true -> historyApiIsPatched s = true) /\
  (forall es, started s = true -> started (run W es s) = true) /\
  (historyApiIsPatched s = true ->
   (forall opts, patchHistoryApi opts s = (Throw (VErr (ErrCode 43)), s)) /\
   (forall es, historyApiIsPatched (run W es s) = true /\
               urlRerouteOnly (run W es s) = urlRerouteOnly s)).
Proof.
  intros Hs. destruct (reachable_switches W s Hs) as [H1 H2].
  split_and!; [done|done| |].
  - intros es. apply (run_switches W es s).
  - intros Hp. split.
    + intros opts. by apply patchHistoryApi_twice.
    + intros es. by apply (run_switches W es s).
Qed.

(** X4.  [start(opts)] sets [started], patches the history API with the
    option it is given ([urlRerouteOnly] is true when there is none) and
    begins a reroute call: the flag [appChangeUnderway] is set and the
    variables of the call are those of a call without pending requests and
    without event; nothing is dispatched yet.  When the history API is
    patched already, [start] throws the error 43 of [patchHistoryApi] after
    it has set [started], and begins no reroute call. *)
Theorem start_patches_and_reroutes (W : world) (opts : option bool) (s : state) :
  (historyApiIsPatched s = true ->
   start W opts s = (Throw (VErr (ErrCode 43)), set_started true s)) /\
  (historyApiIsPatched s = false -> appChangeUnderway s = false ->
   let s' := snd (start W opts s) in
   fst (start W opts s) = Ok tt /\
   started s' = true /\ historyApiIsPatched s' = true /\ originalReplaceState s' = true /\
   urlRerouteOnly s' = default true opts /\
   appChangeUnderway s' = true /\ nframes s' = S (nframes s) /\
   frames s' (nframes s) = frame_for W s [] None false /\
   currentUrl s' = href s /\ trace s' = trace s).
Proof.
  split.
  - intros Hp. unfold start, bind, modify. simpl.
    by rewrite patchHistoryApi_twice.
  - intros Hp Hu. cbv zeta. unfold start, bind, modify. simpl.
    rewrite patchHistoryApi_first by done.
    match goal with |- context [reroute W [] None false ?s1] =>
      destruct (reroute_starts W [] None false s1 Hu eq_refl) as [[d Hd] Hr];
      destruct (reroute W [] None false s1) as [[p|x] s2]
    end; simpl in *; [|done].
    apply rest_fields in Hr. simpl in Hr. destruct_and?.
    split_and!; try congruence.
    match goal with H : _ = frames s2 |- _ => rewrite <- H end.
    by rewrite fn_lookup_insert.
Qed.

Lemma set_href_same s : set_href (href s) s = s.
Proof. by destruct s. Qed.

(** X5.  The patched [pushState] and [replaceState].  With [urlRerouteOnly]
    an update that leaves the location where it is does nothing: no popstate
    event, no reroute call.  Any other update moves the location and fires
    exactly one artificial popstate event, named after the method, that
    [reroute] gets as its event: while a reroute call is underway the event
    joins the queue with the promise made for it, and otherwise (single-spa
    being started) a reroute call begins for it, from the URL single-spa
    had to the new one. *)
Theorem patched_update_state_fires_popstate (W : world) (methodName url : string)
    (s : state) :
  historyApiIsPatched s = true ->
  let new := location_origin W +:+ url in
  let ev := {| ev_type := "popstate"; ev_id := ticks s |} in
  let s' := snd (updateState W methodName url s) in
  (urlRerouteOnly s = true -> new = href s -> updateState W methodName url s = (Ok tt, s)) /\
  (urlRerouteOnly s = false \/ new <> href s ->
   href s' = new /\ trace s' = trace s ++ [ObsPopState methodName] /\
   (appChangeUnderway s = true ->
    fst (updateState W methodName url s) = Ok tt /\
    nframes s' = nframes s /\
    peopleWaitingOnAppChange s' =
      peopleWaitingOnAppChange s ++
        [{| pp_promise := length (heap s); pp_eventArguments := Some ev |}]) /\
   (appChangeUnderway s = false -> started s = true ->
    fst (updateState W methodName url s) = Ok tt /\
    nframes s' = S (nframes s) /\ appChangeUnderway s' = true /\
    eventArguments (frames s' (nframes s)) = Some ev /\
    pendingPromises (frames s' (nframes s)) = [] /\
    oldUrl (frames s' (nframes s)) = currentUrl s /\
    newUrl (frames s' (nframes s)) = new /\
    currentUrl s' = new)).
Proof.
  intros Hp. cbv zeta. split.
  - intros Honly Hsame. unfold updateState, bind, get, modify. simpl.
    rewrite Hp. simpl. rewrite Honly, Hsame, String.eqb_refl. simpl.
    by rewrite set_href_same.
  - intros Hfire.
    assert (negb (urlRerouteOnly s) || negb (String.eqb (href s) (location_origin W +:+ url))
            = true) as Hb.
    { destruct Hfire as [->|Hne]; [done|]. apply orb_true_iff. right.
      destruct (String.eqb_spec (href s) (location_origin W +:+ url)); [by subst|done]. }
    assert (forall e, rel (same (fun s => (href s, trace s))) (reroute W [] e false)) as Hkeep
      by (intros; walk).
    unfold updateState, urlReroute, bind, get, modify, tick, log. simpl.
    rewrite Hp. simpl. rewrite Hb. simpl.
    match goal with |- context [reroute W [] ?e false ?s1] =>
      pose proof (Hkeep e s1) as Hk;
      pose proof (reroute_queues W [] e false s1) as Hq;
      pose proof (reroute_starts W [] e false s1) as Hr;
      destruct (reroute W [] e false s1) as [[p|x] s2]
    end; unfold same in Hk; simpl in *.
    all: inversion Hk as [[K1 K2]].
    all: split_and!; [done|done| |].
    all: try (intros Hu; specialize (Hq Hu); by inversion Hq).
    all: intros Hu Hst; destruct (Hr Hu Hst) as [[d Hd] Hrest]; try done.
    apply rest_fields in Hrest. simpl in Hrest. destruct_and?.
    split_and!; try congruence.
    all: match goal with H : _ = frames _ |- _ => rewrite <- H end;
      by rewrite fn_lookup_insert.
Qed.

(** X6.  Replaying an event never throws, whatever the captured listeners
    do: what a listener throws is thrown again from a timer and the replay
    goes on.  Without event arguments, and for an event that is neither a
    hashchange nor a popstate, the replay does nothing. *)
Theorem replaying_listeners_never_throws (W : world) (c : cid) (oe : option event)
    (s : state) :
  fst (callCapturedEventListeners W c oe s) = Ok tt /\
  fst (callAllEventListeners W c s) = Ok tt /\
  (oe = None -> callCapturedEventListeners W c oe s = (Ok tt, s)) /\
  (forall e, oe = Some e -> in_routing_events (ev_type e) = false ->
     callCapturedEventListeners W c oe s = (Ok tt, s)).
Proof.
  split_and!.
  - apply callCapturedEventListeners_returns.
  - unfold callAllEventListeners, bind, frame_of, get. simpl.
    destruct (silentNavigation (frames s c)); [done|]. simpl.
    assert (returns (forEach (fun pp => callCapturedEventListeners W c (pp_eventArguments pp))
                       (pendingPromises (frames s c)))) as Hret.
    { apply returns_forEach. intros pp s0. exists tt. apply callCapturedEventListeners_returns. }
    destruct (Hret s) as [[] R1].
    destruct (forEach _ _ s) as [[[]|e] s1]; simpl in *; [|done].
    apply callCapturedEventListeners_returns.
  - by intros ->.
  - intros e -> Hr. unfold callCapturedEventListeners. by rewrite Hr.
Qed.

(** ** Before [start] (reroute.js, start.js) *)

(** The callbacks that only a started reroute call registers: those of
    [performAppChanges], [cancelNavigation] and [tryToBootstrapAndMount]. *)
Definition routing (k : kont) : bool :=
  match k with
  | KLoadStart _ | KCallLoadApp _ _ | KLoadResolved _ _ | KLoadCatch _ _
  | KLoadApps _ | KLoadAppsListeners _ | KLoadAppsEmpty | KLoadAppsCatch _
  | KFinallyThen | KFinallyCatch | KConst _ | KThrow _ => false
  | _ => true
  end.

(** What only a started reroute call does to the outside: it calls the
    lifecycle drivers, dispatches the single-spa events and puts a
    cancelled location back. *)
Definition routing_obs (o : obs) : nat :=
  match o with
  | ObsCall _ _ _ | ObsDispatch _ _ _ | ObsReplaceState _ => 1
  | _ => 0
  end.

Definition routed (s : state) : nat :=
  sum_list_with routing_obs (trace s) + length (peopleWaitingOnAppChange s).

(** While single-spa is not started and no reroute call is underway, it
    stays so and nothing of the above is added. *)
Definition prestart : state -> state -> Prop :=
  fun s s' =>
    started s = false -> appChangeUnderway s = false ->
    started s' = false /\ appChangeUnderway s' = false /\
    potential routing routed s' <= potential routing routed s.

Global Instance prestart_preorder : PreOrder prestart.
Proof.
  split.
  - intros s H1 H2. split_and!; [done|done|lia].
  - intros s1 s2 s3 H12 H23 H1 H2. destruct (H12 H1 H2) as (A1 & A2 & A3).
    destruct (H23 A1 A2) as (B1 & B2 & B3). split_and!; [done|done|lia].
Qed.

Lemma prestart_of {A} (m : M A) :
  rel (same (fun s => (started s, appChangeUnderway s))) m ->
  rel (gain routing routed 0) m -> rel prestart m.
Proof.
  intros H1 H2 s Hs Hu. specialize (H1 s). specialize (H2 s). unfold same in H1.
  inversion H1 as [[E1 E2]]. unfold gain in H2. split_and!; [congruence|congruence|lia].
Qed.

Ltac walk_side ::= first [done | apply _].

Section PrestartOps.

Lemma prestart_alloc pv n : rel prestart (alloc pv n).
Proof. apply prestart_of; [walk|]. by apply gain_alloc. Qed.

Lemma prestart_settle p o : rel prestart (settle p o).
Proof. apply prestart_of; [walk|]. by apply gain_settle. Qed.

Lemma prestart_resolve p v : rel prestart (resolve p v).
Proof. apply prestart_of; [walk|]. by apply gain_resolve. Qed.

Lemma prestart_reject p e : rel prestart (reject p e).
Proof. apply prestart_of; [walk|]. by apply gain_reject. Qed.

Lemma prestart_all_element agg i o : rel prestart (all_element agg i o).
Proof. apply prestart_of; [walk|]. by apply gain_all_element. Qed.

Lemma prestart_promise_resolve v : rel prestart (promise_resolve v).
Proof. apply prestart_of; [walk|]. by apply gain_promise_resolve. Qed.

Lemma prestart_promise_all ps : rel prestart (promise_all ps).
Proof. apply prestart_of; [walk|]. by apply gain_promise_all. Qed.

Lemma prestart_ext_promise k o : rel prestart (ext_promise k o).
Proof. apply prestart_of; [walk|]. by apply gain_ext_promise. Qed.

Lemma prestart_then p onF onR :
  tok_opt routing onF + tok_opt routing onR = 0 -> rel prestart (then_ p onF onR).
Proof.
  intros H. apply prestart_of; [walk|]. rewrite <- H. by apply gain_then.
Qed.

Lemma prestart_subscribe p h : tok_handler routing h = 0 -> rel prestart (subscribe p h).
Proof.
  intros H. apply prestart_of; [walk|]. rewrite <- H. by apply gain_subscribe.
Qed.

Lemma prestart_log o : routing_obs o = 0 -> rel prestart (log o).
Proof.
  intros H. apply prestart_of; [walk|].
  intros s. unfold gain, potential, count, routed. simpl.
  rewrite sum_list_with_app. simpl. lia.
Qed.

End PrestartOps.

Ltac prestart_facts :=
  pose proof prestart_alloc; pose proof prestart_settle; pose proof prestart_resolve;
  pose proof prestart_reject; pose proof prestart_all_element;
  pose proof prestart_promise_resolve; pose proof prestart_promise_all;
  pose proof prestart_ext_promise; pose proof prestart_then; pose proof prestart_subscribe;
  pose proof prestart_log.

Section Prestart.

Context (W : world).

(** Before [start], a call of [reroute] only schedules the loads. *)
Lemma reroute_prestart L ev silent : rel prestart (reroute W L ev silent).
Proof.
  intros s Hst Hu.
  assert (forall c, rel prestart (loadApps c)) as Hl
    by (intros c; unfold loadApps; prestart_facts; walk).
  unfold reroute, bind, get, isStarted, modify, new_frame. simpl.
  rewrite Hu. simpl. rewrite Hst. simpl.
  match goal with |- context [loadApps ?c ?s1] => exact (Hl c s1 Hst Hu) end.
Qed.

Lemma run_kont_prestart k v : routing k = false -> rel prestart (run_kont W k v).
Proof.
  intros Hk. prestart_facts. pose proof reroute_prestart.
  destruct k; try done; clear Hk; cbn [run_kont]; walk.
Qed.

Lemma tok_routing k : tok routing k = 0 -> routing k = false.
Proof. unfold tok. by destruct (routing k). Qed.

Lemma run_job_prestart j : count_job routing j = 0 -> rel prestart (run_job W j).
Proof.
  intros Hj. prestart_facts.
  destruct j as [[onF onR d|d|agg i] o|d q]; cbn [run_job]; [|walk..].
  assert (forall k v, routing k = false ->
            rel prestart (fun s => match run_kont W k v s with
                                   | (Ok v', s') => resolve d v' s'
                                   | (Throw e, s') => reject d e s'
                                   end)) as Hrun.
  { intros k v Hk s.
    pose proof (run_kont_prestart k v Hk s) as Hrk.
    destruct (run_kont W k v s) as [[v'|e] s1]; simpl in *;
      (etrans; [exact Hrk|]); [apply prestart_resolve|apply prestart_reject]. }
  simpl in Hj.
  destruct o as [v|v], onF as [kf|], onR as [kr|]; cbn [run_then]; simpl in Hj;
    try (apply Hrun; apply tok_routing; lia); walk.
Qed.

Lemma env_run_prestart e :
  e <> EnvRunJob -> (forall opts, e <> EnvStart opts) -> rel prestart (env_run W e).
Proof.
  intros Hjob Hstart. prestart_facts. pose proof reroute_prestart.
  destruct e; try done; try (by destruct (Hstart opts)); clear Hjob Hstart;
    cbn [env_run]; walk.
Qed.

(** Not started and idle: no callback of a started reroute call waits, no
    driver was called, nothing was dispatched and no request is queued. *)
Definition quiet (s : state) : Prop :=
  appChangeUnderway s = false /\ potential routing routed s = 0.

Lemma step_quiet e s :
  started s = false -> quiet s -> (forall opts, e <> EnvStart opts) ->
  started (step W e s) = false /\ quiet (step W e s).
Proof.
  intros Hst [Hu Hp] He. unfold quiet.
  assert (e = EnvRunJob \/ e <> EnvRunJob) as [->|Hne]
    by (destruct e; first [by left|by right]).
  - unfold step. simpl. destruct (queue s) as [|j js] eqn:Hq; [done|].
    pose proof (potential_pop routing routed (fun _ _ => eq_refl) s j js Hq) as Hpop.
    assert (count_job routing j = 0) as Hj by lia.
    destruct (run_job_prestart j Hj (set_queue js s) Hst Hu) as (A1 & A2 & A3).
    split_and!; [done|done|lia].
  - destruct (env_run_prestart e Hne He s Hst Hu) as (A1 & A2 & A3).
    unfold step. split_and!; [done|done|lia].
Qed.

Lemma reachable_quiet s : reachable W s -> started s = false -> quiet s.
Proof.
  induction 1 as [|s e Hs IH]; intros Hst.
  - split; [done|]. unfold potential, count, routed. by simpl.
  - pose proof (step_switches W e s) as Hsw. unfold switches in Hsw.
    assert (started s = false /\ forall opts, e <> EnvStart opts) as [Hst0 He].
    { destruct e; try destruct (historyApiIsPatched s);
        apply tuple4_eq in Hsw as (E1 & _); split; try congruence. }
    by apply step_quiet; [|apply IH|].
Qed.

End Prestart.

Lemma routing_obs_none t :
  sum_list_with routing_obs t = 0 -> forall o, o ∈ t -> routing_obs o = 0.
Proof.
  induction t as [|x t IH]; simpl; intros H o Ho; [by apply elem_of_nil in Ho|].
  apply elem_of_cons in Ho as [->|Ho]; [lia|]. apply IH; [lia|done].
Qed.

Lemma driver_calls_none t : (forall o, o ∈ t -> routing_obs o = 0) -> driver_calls t = [].
Proof.
  induction t as [|x t IH]; intros H; [done|].
  pose proof (H x (list_elem_of_here _ _)) as Hx.
  assert (driver_calls t = []) as Ht
    by (apply IH; intros o Ho; apply H; by apply list_elem_of_further).
  change (driver_calls (x :: t)) with
    (match driver_call x with Some y => y :: driver_calls t | None => driver_calls t end).
  by destruct x.
Qed.

(** X7.  Before [start] single-spa only loads: in every state the program
    can be in while it is not started, no lifecycle driver (bootstrap, mount,
    unmount, unload) was called, no single-spa event was dispatched and the
    location was never put back; no reroute call is underway and no request
    waits in the queue, so that every call of [reroute] begins its own round
    of loads; and no callback of [performAppChanges] is registered. *)
Theorem only_loads_before_start (W : world) (s : state) :
  reachable W s -> started s = false ->
  driver_calls (trace s) = [] /\
  (forall c nm d, ObsDispatch c nm d ∉ trace s) /\
  (forall url, ObsReplaceState url ∉ trace s) /\
  appChangeUnderway s = false /\
  peopleWaitingOnAppChange s = [] /\
  count routing s = 0.
Proof.
  intros Hs Hst. destruct (reachable_quiet W s Hs Hst) as [Hu Hp].
  unfold potential, routed in Hp.
  assert (forall o, o ∈ trace s -> routing_obs o = 0) as Hobs
    by (apply routing_obs_none; lia).
  split_and!.
  - by apply driver_calls_none.
  - intros c nm d Hin. by specialize (Hobs _ Hin).
  - intros url Hin. by specialize (Hobs _ Hin).
  - done.
  - apply length_zero_iff_nil. lia.
  - lia.
Qed.

(** ** The queue of waiting requests (reroute.js) *)

(** No request waits while no reroute call is underway. *)
Definition served (s : state) : Prop :=
  appChangeUnderway s = false -> peopleWaitingOnAppChange s = [].

(** Once single-spa is started, it stays so and the requests stay served. *)
Definition serves : state -> state -> Prop :=
  fun s s' => started s = true -> started s' = true /\ (served s -> served s').

Global Instance serves_preorder : PreOrder serves.
Proof.
  split.
  - intros s H. by split.
  - intros s1 s2 s3 H12 H23 H. destruct (H12 H) as [A1 A2].
    destruct (H23 A1) as [B1 B2]. split; [done|]. auto.
Qed.

Section Served.

Context (W : world).

Lemma reroute_serves L ev silent : rel serves (reroute W L ev silent).
Proof.
  intros s Hst. destruct (appChangeUnderway s) eqn:Hu.
  - rewrite (reroute_queues W L ev silent s Hu). simpl. split; [done|].
    intros _ Hidle. simpl in Hidle. congruence.
  - destruct (reroute_starts W L ev silent s Hu Hst) as [_ Hr].
    apply rest_fields in Hr. simpl in Hr. destruct_and?.
    split; [congruence|]. intros _ Hidle. congruence.
Qed.

(** The end of [finishUpAndReturn]: the flag is cleared and the requests
    that wait are handed to a new reroute call. *)
Lemma finish_tail_serves (rv : val) :
  rel serves
    (modify (set_appChangeUnderway false) ;;;
     waiting <- get peopleWaitingOnAppChange ;;
     (if bool_decide (0 < length waiting) then
        let nextPendingPromises := waiting in
        modify (set_peopleWaitingOnAppChange []) ;;;
        reroute W nextPendingPromises None false ;;; ret tt
      else ret tt) ;;;
     ret rv).
Proof.
  intros s Hst. unfold bind, modify, get. simpl.
  destruct (peopleWaitingOnAppChange s) as [|pp more] eqn:Hw; simpl.
  - split; [done|]. by intros _ _.
  - match goal with |- context [reroute W ?L None false ?s1] =>
      destruct (reroute_serves L None false s1 Hst) as [A1 A2];
      destruct (reroute W L None false s1) as [[p|x] s2]
    end; simpl in *; (split; [done|]); intros _; apply A2; by intros _.
Qed.

Lemma finishUpAndReturn_serves c : rel serves (finishUpAndReturn W c).
Proof.
  pose proof reroute_serves as Hr. unfold finishUpAndReturn.
  apply rel_bind; [apply _|walk|intros f].
  apply rel_bind; [apply _|walk|intros rv].
  apply rel_bind; [apply _|walk|intros _].
  apply rel_bind; [apply _|walk|intros _].
  apply finish_tail_serves.
Qed.

(** The end of a cancelled reroute call: the flag is cleared and the silent
    reroute call begins at once. *)
Lemma cancel_tail_serves L ev :
  rel serves
    (modify (set_appChangeUnderway false) ;;;
     p <- reroute W L ev true ;;
     ret (VProm p)).
Proof.
  intros s Hst. unfold bind, modify. simpl.
  match goal with |- context [reroute W L ev true ?s1] =>
    destruct (reroute_starts W L ev true s1 eq_refl Hst) as [_ Hrest];
    destruct (reroute W L ev true s1) as [[p|x] s2]
  end; simpl in *; apply rest_fields in Hrest; simpl in Hrest; destruct_and?.
  all: split; [congruence|]; intros _ Hidle; congruence.
Qed.

Lemma cancel_values_serves c v : rel serves (cancel_values W c v).
Proof.
  pose proof reroute_serves as Hr. unfold cancel_values.
  apply rel_bind; [apply _|walk|intros f]. cbv zeta.
  destruct (existsb truthy (values_of v)); [|walk].
  apply rel_bind; [apply _|walk|intros saved].
  apply rel_bind; [apply _|walk|intros _].
  apply rel_bind; [apply _|walk|intros url].
  apply rel_bind; [apply _|walk|intros _].
  apply cancel_tail_serves.
Qed.

Lemma run_kont_serves k v : rel serves (run_kont W k v).
Proof.
  pose proof reroute_serves as Hr.
  destruct k; cbn [run_kont];
    try apply cancel_values_serves; try apply finishUpAndReturn_serves; walk.
Qed.

Lemma run_job_serves j : rel serves (run_job W j).
Proof. pose proof run_kont_serves. walk_job. Qed.

Lemma env_run_serves e : (forall opts, e <> EnvStart opts) -> rel serves (env_run W e).
Proof.
  intros He. pose proof reroute_serves as Hr. pose proof run_job_serves as Hj.
  destruct e; try (by destruct (He opts)); clear He;
    [apply rel_env_run_job; [side..|done]|..]; cbn [env_run]; walk.
Qed.

Lemma reachable_served s : reachable W s -> served s.
Proof.
  induction 1 as [|s e Hs IH]; [done|].
  assert ((exists opts, e = EnvStart opts) \/ forall opts, e <> EnvStart opts) as [[opts ->]|He]
    by (destruct e; first [by right|left; by eexists]).
  - unfold step. simpl. destruct (historyApiIsPatched s) eqn:Hp.
    + unfold start, bind, modify. simpl. by rewrite patchHistoryApi_twice.
    + unfold start, bind, modify. simpl. rewrite patchHistoryApi_first by done.
      match goal with |- context [reroute W [] None false ?s1] =>
        destruct (reroute_serves [] None false s1 eq_refl) as [_ A];
        destruct (reroute W [] None false s1) as [[p|x] s2]
      end; simpl in *; by apply A.
  - destruct (started s) eqn:Hst.
    + by apply (env_run_serves e He s Hst).
    + pose proof (step_switches W e s) as Hsw. unfold switches in Hsw.
      assert (started (step W e s) = false) as Hst'.
      { destruct e; try (by destruct (He opts)); try destruct (historyApiIsPatched s);
          apply tuple4_eq in Hsw as (E1 & _); congruence. }
      pose proof (reachable_quiet W (step W e s) (reach_step W s e Hs) Hst') as [Hu Hp].
      intros _. unfold potential, routed in Hp. apply length_zero_iff_nil. lia.
Qed.

End Served.

(** X8.  No caller of [reroute] is left behind: in every state the program
    can be in, requests wait in [peopleWaitingOnAppChange] only while a
    reroute call is underway ([appChangeUnderway]).  When the call completes
    or is cancelled, the flag is cleared and, in the same callback, a new
    reroute call takes the requests over or keeps the flag set for them. *)
Theorem no_request_waits_while_idle (W : world) (s : state) :
  reachable W s -> appChangeUnderway s = false -> peopleWaitingOnAppChange s = [].
Proof. intros Hs. by apply (reachable_served W). Qed.

(** ** The URLs of the reroute calls (reroute.js) *)

(** The reroute calls follow each other from URL to URL: a call starts at
    the URL the call before it went to, a silent call stays where it is,
    and [currentUrl] is the URL the last call went to. *)
Definition urls_ok (s : state) : Prop :=
  (forall c, S c < nframes s ->
     if silentNavigation (frames s (S c))
     then oldUrl (frames s (S c)) = newUrl (frames s (S c))
     else oldUrl (frames s (S c)) = newUrl (frames s c)) /\
  (0 < nframes s -> currentUrl s = newUrl (frames s (nframes s - 1))).

Section Urls.

Context (W : world).

(** The frame a call of [reroute] makes when none is underway. *)
Lemma reroute_frame L ev silent s :
  appChangeUnderway s = false ->
  let s' := snd (reroute W L ev silent s) in
  exists fr,
    oldUrl fr = currentUrl s /\ newUrl fr = href s /\ silentNavigation fr = silent /\
    frames s' = <[nframes s := fr]> (frames s) /\ nframes s' = S (nframes s) /\
    currentUrl s' = href s.
Proof.
  intros Hu. cbv zeta.
  assert (forall c, rel (same rest) (loadApps c)) as Hl by (intros; unfold loadApps; walk).
  assert (forall c, rel (same rest) (performAppChanges c)) as Hp
    by (intros; unfold performAppChanges; walk).
  unfold reroute, bind, get, isStarted, modify, new_frame. simpl. rewrite Hu. simpl.
  destruct (started s); simpl.
  - match goal with |- context [performAppChanges ?c ?s1] =>
      pose proof (Hp c s1) as Hr; destruct (performAppChanges c s1) as [r s2]
    end. unfold same in Hr. apply rest_fields in Hr. simpl in *. destruct_and?.
    match goal with H : frames s2 = <[_ := ?fr]> _ |- _ => exists fr end.
    by split_and!.
  - match goal with |- context [loadApps ?c ?s1] =>
      pose proof (Hl c s1) as Hr; destruct (loadApps c s1) as [r s2]
    end. unfold same in Hr. apply rest_fields in Hr. simpl in *. destruct_and?.
    match goal with H : frames s2 = <[_ := ?fr]> _ |- _ => exists fr end.
    by split_and!.
Qed.

Lemma urls_ok_new_frame s s' fr :
  urls_ok s ->
  frames s' = <[nframes s := fr]> (frames s) -> nframes s' = S (nframes s) ->
  currentUrl s' = newUrl fr ->
  (if silentNavigation fr then oldUrl fr = newUrl fr else oldUrl fr = currentUrl s) ->
  urls_ok s'.
Proof.
  intros [H1 H2] Hf Hn Hc Hfr. split.
  - intros c Hlt. rewrite Hf, Hn in *.
    destruct (decide (S c = nframes s)) as [E|E].
    + rewrite E, fn_lookup_insert.
      destruct (silentNavigation fr); [done|].
      rewrite fn_lookup_insert_ne by lia. rewrite Hfr, H2 by lia.
      f_equal. f_equal. lia.
    + rewrite !fn_lookup_insert_ne by lia. apply H1. lia.
  - intros _. rewrite Hc, Hf, Hn. simpl. rewrite Nat.sub_0_r. by rewrite fn_lookup_insert.
Qed.

Lemma reroute_urls L ev : rel (keeps urls_ok) (reroute W L ev false).
Proof.
  intros s Hok. destruct (appChangeUnderway s) eqn:Hu.
  - rewrite (reroute_queues W L ev false s Hu). exact Hok.
  - destruct (reroute_frame L ev false s Hu) as (fr & A1 & A2 & A3 & A4 & A5 & A6).
    apply (urls_ok_new_frame s _ fr Hok A4 A5); [congruence|]. by rewrite A3.
Qed.

Lemma urls_ok_le s s' :
  urls_ok s -> nframes s' = nframes s -> currentUrl s' = currentUrl s ->
  (forall c, c < nframes s -> frame_le (frames s c) (frames s' c)) ->
  urls_ok s'.
Proof.
  intros [H1 H2] Hn Hc Hf. split.
  - intros c Hlt. rewrite Hn in Hlt. specialize (H1 c Hlt).
    destruct (Hf (S c) Hlt) as (_ & _ & -> & _ & _ & _ & _ & _ & -> & ->).
    destruct (Hf c ltac:(lia)) as (_ & _ & _ & _ & _ & _ & _ & _ & _ & ->). done.
  - rewrite Hn, Hc. intros Hlt.
    destruct (Hf (nframes s - 1) ltac:(lia)) as (_ & _ & _ & _ & _ & _ & _ & _ & _ & ->).
    by apply H2.
Qed.

Lemma cancelNavigation_urls c arg : rel (keeps urls_ok) (cancelNavigation c arg).
Proof.
  assert (rel (same (fun s => (nframes s, currentUrl s))) (cancelNavigation c arg)) as Hsame
    by walk.
  intros s Hok. specialize (Hsame s). unfold same in Hsame.
  inversion Hsame as [[E1 E2]].
  apply (urls_ok_le s); [done|done|done|].
  apply (rel_grows_cancelNavigation c arg s).
Qed.

(** The end of a cancelled reroute call: the location is back at the old
    URL, and the silent reroute call begins there. *)
Lemma cancel_tail_urls L ev :
  rel (keeps urls_ok)
    (url <- get href ;;
     modify (set_currentUrl url) ;;;
     modify (set_appChangeUnderway false) ;;;
     p <- reroute W L ev true ;;
     ret (VProm p)).
Proof.
  intros s Hok. unfold bind, modify, get. simpl.
  match goal with |- context [reroute W L ev true ?s1] =>
    destruct (reroute_frame L ev true s1 eq_refl) as (fr & A1 & A2 & A3 & A4 & A5 & A6);
    destruct (reroute W L ev true s1) as [[p|x] s2]
  end; simpl in *.
  all: apply (urls_ok_new_frame s _ fr Hok A4 A5); [congruence|]; rewrite A3; congruence.
Qed.

Lemma cancel_values_urls c v : rel (keeps urls_ok) (cancel_values W c v).
Proof.
  pose proof reroute_urls as Hr. unfold cancel_values.
  apply rel_bind; [apply _|walk|intros f]. cbv zeta.
  destruct (existsb truthy (values_of v)); [|walk].
  apply rel_bind; [apply _|walk|intros saved].
  apply rel_bind; [apply _|walk|intros _].
  apply cancel_tail_urls.
Qed.

Lemma run_kont_urls k v : rel (keeps urls_ok) (run_kont W k v).
Proof.
  pose proof reroute_urls as Hr. pose proof cancelNavigation_urls as Hc.
  destruct k; cbn [run_kont]; try apply cancel_values_urls; walk.
Qed.

Lemma run_job_urls j : rel (keeps urls_ok) (run_job W j).
Proof. pose proof run_kont_urls. walk_job. Qed.

Lemma env_run_urls e : rel (keeps urls_ok) (env_run W e).
Proof.
  pose proof reroute_urls as Hr. pose proof run_job_urls as Hj.
  destruct e; [apply rel_env_run_job; [side..|done]|..]; cbn [env_run]; walk.
Qed.

Lemma reachable_urls s : reachable W s -> urls_ok s.
Proof.
  apply reachable_inv; [|apply env_run_urls].
  intros path names. split; simpl; intros; lia.
Qed.

End Urls.

(** X9.  The reroute calls go from URL to URL without a gap: in every state
    the program can be in, the [oldUrl] of a reroute call that is not silent
    is the [newUrl] of the reroute call before it; a silent call, which
    follows a cancelled navigation, has the restored URL as both; and
    [currentUrl] is the [newUrl] of the last call. *)
Theorem old_url_is_previous_new_url (W : world) (s : state) :
  reachable W s ->
  (forall c, S c < nframes s ->
     if silentNavigation (frames s (S c))
     then oldUrl (frames s (S c)) = newUrl (frames s (S c))
     else oldUrl (frames s (S c)) = newUrl (frames s c)) /\
  (0 < nframes s -> currentUrl s = newUrl (frames s (nframes s - 1))).
Proof. apply reachable_urls. Qed.

(** ** The result of a loading function, edge cases (load.js) *)

(** The code of the console error for a value that is refused: each check
    that fails overwrites the code of the checks before it. *)
Definition validation_code (j : jsval) : nat :=
  if negb (validLifecycleFn (prop_unmount j)) then 37
  else if negb (validLifecycleFn (prop_mount j)) then 36
  else if bool_decide (is_Some (prop_bootstrap j)) && negb (validLifecycleFn (prop_bootstrap j))
       then 35
  else 34.

(** X10.  A loading function whose promise resolves with [undefined] or
    [null]: the callback throws a TypeError at the [hasOwnProperty] check,
    after it has reset [loadErrorTime] and before it reports anything, so
    that the record keeps its status and its load promise.  The catch
    callback of the attempt then treats it as a load error: the record is
    LOAD_ERROR with the time of the failure, its load promise is deleted,
    and it can be loaded again. *)
Theorem load_result_null_is_a_load_error (a : appid) (l : nat) (v : val) (s : state) :
  as_js v = JUndefined \/ as_js v = JNull ->
  isUserErr (loadFrames s l) = false ->
  let s1 := snd (load_resolved a l v s) in
  let s2 := snd (load_catch a l (VErr TypeError) s1) in
  fst (load_resolved a l v s) = Throw (VErr TypeError) /\
  trace s1 = trace s /\
  app_status (apps s1 a) = app_status (apps s a) /\
  loadPromise (apps s1 a) = loadPromise (apps s a) /\
  loadErrorTime (apps s1 a) = None /\
  fst (load_catch a l (VErr TypeError) s1) = Ok (VApp a) /\
  app_status (apps s2 a) = LOAD_ERROR /\
  loadErrorTime (apps s2 a) = Some (now s) /\
  can_load (apps s2 a) /\
  trace s2 = trace s ++ [ObsAppError a LOAD_ERROR].
Proof.
  intros Hv Hu. cbv zeta.
  unfold load_resolved, load_catch, handleAppError, hasOwnProperty_bootstrap, update_app,
    set_appOpts, can_load, log, bind, get, modify, ret, throw.
  destruct Hv as [-> | ->]; simpl; rewrite Hu; simpl;
    repeat (rewrite fn_lookup_insert; simpl); split_and!; auto.
Qed.

(** X11.  A value that is refused is reported once, with the code of the
    last check that failed: 37 when [unmount] is not valid, whatever else is
    wrong; 36 when [unmount] is valid and [mount] is not.  The report is
    followed by the error of the application, which makes the record
    SKIP_BECAUSE_BROKEN. *)
Theorem refused_module_reports_last_failed_check (a : appid) (l : nat) (v : val)
    (s : state) :
  as_js v <> JUndefined -> as_js v <> JNull -> ~ loader_accepts (as_js v) ->
  trace (snd (load_resolved a l v s)) =
    trace s ++ [ObsConsole (validation_code (as_js v)); ObsAppError a SKIP_BECAUSE_BROKEN] /\
  (validLifecycleFn (prop_unmount (as_js v)) = false -> validation_code (as_js v) = 37) /\
  (validLifecycleFn (prop_unmount (as_js v)) = true ->
   validLifecycleFn (prop_mount (as_js v)) = false -> validation_code (as_js v) = 36).
Proof.
  intros Hu Hn Hacc. unfold loader_accepts in Hacc.
  unfold load_resolved, handleAppError, hasOwnProperty_bootstrap, update_app, set_appOpts,
    log, bind, get, modify, ret, throw, validation_code.
  destruct (as_js v) as [| |b|n|str|ex] eqn:Hj; try done; simpl.
  1-3: by rewrite <- app_assoc.
  destruct ex as [eb em eu el]; simpl in *.
  destruct eb as [[nb|]|], em as [[nm|]|], eu as [[nu|]|]; simpl in *;
    rewrite <- ?app_assoc; simpl; split_and!; try done.
  all: exfalso; apply Hacc; split_and!; try done; intros [x Hx]; done.
Qed.

(** ** The detail of the single-spa events (reroute.js) *)

(** The name [nm] is listed under the status [st]. *)
Definition listed (l : list (status * list string)) (st : status) (nm : string) : Prop :=
  exists names, (st, names) ∈ l /\ nm ∈ names.

Definition names_listed (l : list (status * list string)) : nat :=
  sum_list_with (fun e => length (snd e)) l.

Section AssocAlter.

Context {K V : Type} `{EqDecision K}.

Lemma assoc_alter_keys (f : option V -> V) (k : K) (l : list (K * V)) :
  forall k', k' ∈ map fst (assoc_alter f k l) <-> k' = k \/ k' ∈ map fst l.
Proof.
  intros k'. induction l as [|[k0 v0] l IH]; simpl.
  - rewrite list_elem_of_singleton. split; [by left|]. intros [?|H]; [done|].
    by apply elem_of_nil in H.
  - destruct (decide (k = k0)) as [->|Hne]; simpl; rewrite !elem_of_cons.
    + tauto.
    + rewrite IH. tauto.
Qed.

Lemma assoc_alter_nodup (f : option V -> V) (k : K) (l : list (K * V)) :
  NoDup (map fst l) -> NoDup (map fst (assoc_alter f k l)).
Proof.
  induction l as [|[k0 v0] l IH]; simpl; intros H.
  - apply NoDup_singleton.
  - apply list.NoDup_cons in H as [H1 H2].
    destruct (decide (k = k0)) as [->|Hne]; simpl; apply list.NoDup_cons.
    + done.
    + split; [|by apply IH]. rewrite assoc_alter_keys. intros [?|?]; [by subst|done].
Qed.

End AssocAlter.

Lemma assoc_alter_listed (x : string) (k : status) (l : list (status * list string)) :
  listed (assoc_alter (fun o => default [] o ++ [x]) k l) k x /\
  (forall st nm, listed l st nm ->
     listed (assoc_alter (fun o => default [] o ++ [x]) k l) st nm) /\
  names_listed (assoc_alter (fun o => default [] o ++ [x]) k l) = S (names_listed l).
Proof.
  induction l as [|[k0 v0] l (IH1 & IH2 & IH3)]; simpl.
  - split_and!.
    + exists [x]. split; [apply list_elem_of_here|apply list_elem_of_here].
    + intros st nm (names & H & _). by apply elem_of_nil in H.
    + done.
  - destruct (decide (k = k0)) as [->|Hne].
    + split_and!.
      * exists (v0 ++ [x]). split; [apply list_elem_of_here|].
        apply elem_of_app. right. apply list_elem_of_here.
      * intros st nm (names & H & Hnm). apply elem_of_cons in H as [E|H].
        -- injection E as -> ->. exists (v0 ++ [x]).
           split; [apply list_elem_of_here|]. apply elem_of_app. by left.
        -- exists names. split; [by apply list_elem_of_further|done].
      * unfold names_listed. simpl. rewrite length_app. simpl. lia.
    + split_and!.
      * destruct IH1 as (names & H & Hnm). exists names.
        split; [by apply list_elem_of_further|done].
      * intros st nm (names & H & Hnm). apply elem_of_cons in H as [E|H].
        -- injection E as -> ->. exists v0. split; [apply list_elem_of_here|done].
        -- destruct (IH2 st nm) as (names' & H' & Hnm'); [by exists names|].
           exists names'. split; [by apply list_elem_of_further|done].
      * unfold names_listed in *. simpl. lia.
Qed.

(** The status [addApp] files an application under. *)
Definition filed_under (s : state) (st : option status) (a : appid) : status :=
  match st with Some x => x | None => app_status (apps s a) end.

Lemma fold_addApp s st xs acc :
  let acc' := foldl (fun acc a => addApp s a st acc) acc xs in
  names_listed (snd acc') = names_listed (snd acc) + length xs /\
  (NoDup (map fst (snd acc)) -> NoDup (map fst (snd acc'))) /\
  (NoDup (map fst (fst acc)) -> NoDup (map fst (fst acc'))) /\
  (forall k, k ∈ map fst (snd acc) -> k ∈ map fst (snd acc')) /\
  (forall k, k ∈ map fst (fst acc) -> k ∈ map fst (fst acc')) /\
  (forall st' nm, listed (snd acc) st' nm -> listed (snd acc') st' nm) /\
  (forall a, a ∈ xs ->
     listed (snd acc') (filed_under s st a) (name (apps s a)) /\
     name (apps s a) ∈ map fst (fst acc')).
Proof.
  revert acc. induction xs as [|x xs IH]; intros acc; simpl.
  - split_and!; try done; try lia. intros a Ha. by apply elem_of_nil in Ha.
  - destruct (IH (addApp s x st acc)) as (I1 & I2 & I3 & I4 & I5 & I6 & I7).
    unfold addApp in *. simpl in *.
    destruct (assoc_alter_listed (name (apps s x)) (filed_under s st x) (snd acc))
      as (A1 & A2 & A3).
    split_and!.
    + rewrite I1. unfold filed_under in A3. rewrite A3. lia.
    + intros H. apply I2. by apply assoc_alter_nodup.
    + intros H. apply I3. by apply assoc_alter_nodup.
    + intros k Hk. apply I4. apply assoc_alter_keys. by right.
    + intros k Hk. apply I5. apply assoc_alter_keys. by right.
    + intros st' nm H. apply I6. by apply A2.
    + intros a Ha. apply elem_of_cons in Ha as [->|Ha]; [|by apply I7].
      split; [apply I6; apply A1|]. apply I5. apply assoc_alter_keys. by left.
Qed.

(** X12.  The detail of a single-spa event.  [getCustomEventDetail] only
    reads: it returns and leaves the state as it is.  The detail carries the
    number of applications that change, the event and the two URLs of the
    reroute call.  [appsByNewStatus] has one entry for each status, the four
    statuses MOUNTED, NOT_MOUNTED, NOT_LOADED and SKIP_BECAUSE_BROKEN always
    among them, and holds one name for each application filed; every name
    filed has one entry in [newAppStatuses].  Before the changes the
    applications to load and to mount are filed under MOUNTED, those to
    unload under NOT_LOADED and those to unmount under NOT_MOUNTED; after
    the changes every application that changed is filed under the status of
    its record. *)
Theorem event_detail_files_every_application (c : cid) (isBeforeChanges withCancel : bool)
    (s : state) :
  let f := frames s c in
  exists d,
    getCustomEventDetail c isBeforeChanges withCancel s = (Ok d, s) /\
    totalAppChanges d = length (appsThatChanged f) /\
    originalEvent d = eventArguments f /\
    d_oldUrl d = oldUrl f /\ d_newUrl d = newUrl f /\
    NoDup (map fst (appsByNewStatus d)) /\ NoDup (map fst (newAppStatuses d)) /\
    (forall st, st ∈ [MOUNTED; NOT_MOUNTED; NOT_LOADED; SKIP_BECAUSE_BROKEN] ->
       st ∈ map fst (appsByNewStatus d)) /\
    (if isBeforeChanges
     then names_listed (appsByNewStatus d) =
            length (appsToLoad f ++ appsToMount f) + length (appsToUnload f) +
            length (appsToUnmount f) /\
          (forall a, a ∈ appsToLoad f ++ appsToMount f ->
             listed (appsByNewStatus d) MOUNTED (name (apps s a)) /\
             name (apps s a) ∈ map fst (newAppStatuses d)) /\
          (forall a, a ∈ appsToUnload f ->
             listed (appsByNewStatus d) NOT_LOADED (name (apps s a)) /\
             name (apps s a) ∈ map fst (newAppStatuses d)) /\
          (forall a, a ∈ appsToUnmount f ->
             listed (appsByNewStatus d) NOT_MOUNTED (name (apps s a)) /\
             name (apps s a) ∈ map fst (newAppStatuses d))
     else names_listed (appsByNewStatus d) = totalAppChanges d /\
          (forall a, a ∈ appsThatChanged f ->
             listed (appsByNewStatus d) (app_status (apps s a)) (name (apps s a)) /\
             name (apps s a) ∈ map fst (newAppStatuses d))).
Proof.
  cbv zeta. unfold getCustomEventDetail, bind, get, ret. simpl.
  eexists. split; [reflexivity|]. simpl.
  set (acc0 := ([] : list (string * status),
                [(MOUNTED, [] : list string); (NOT_MOUNTED, []); (NOT_LOADED, []);
                 (SKIP_BECAUSE_BROKEN, [])])).
  assert (NoDup (map fst (snd acc0))) as Hnd0.
  { simpl. apply (bool_decide_unpack _). by vm_compute. }
  assert (NoDup (map fst (fst acc0))) as Hnd0' by (simpl; constructor).
  destruct isBeforeChanges.
  - destruct (fold_addApp s (Some MOUNTED) (appsToLoad (frames s c) ++ appsToMount (frames s c))
                acc0) as (A1 & A2 & A3 & A4 & A5 & A6 & A7).
    set (acc1 := foldl (fun acc a => addApp s a (Some MOUNTED) acc) acc0
                   (appsToLoad (frames s c) ++ appsToMount (frames s c))) in *.
    destruct (fold_addApp s (Some NOT_LOADED) (appsToUnload (frames s c)) acc1)
      as (B1 & B2 & B3 & B4 & B5 & B6 & B7).
    set (acc2 := foldl (fun acc a => addApp s a (Some NOT_LOADED) acc) acc1
                   (appsToUnload (frames s c))) in *.
    destruct (fold_addApp s (Some NOT_MOUNTED) (appsToUnmount (frames s c)) acc2)
      as (C1 & C2 & C3 & C4 & C5 & C6 & C7).
    cbv zeta in *. split_and!; try done; try (by auto).
    + rewrite C1, B1, A1. unfold names_listed. simpl. lia.
    + intros a Ha. destruct (A7 a Ha) as [H1 H2]. split; [apply C6, B6, H1|apply C5, B5, H2].
    + intros a Ha. destruct (B7 a Ha) as [H1 H2]. split; [apply C6, H1|apply C5, H2].
  - destruct (fold_addApp s None (appsThatChanged (frames s c)) acc0)
      as (A1 & A2 & A3 & A4 & A5 & A6 & A7).
    cbv zeta in *. split_and!; try done; by auto.
Qed.

(** ** The promises of the callers of [reroute] (reroute.js) *)

(** What a resolving function does to the store when it settles its promise
    with [o]. *)
Definition settles_with (op : pid -> M unit) (o : outcome) : Prop :=
  forall p s,
    match heap s !! p with
    | Some cell =>
        if unresolved cell
        then settled_with (snd (op p s)) p o /\
             forall q, q <> p -> heap (snd (op p s)) !! q = heap s !! q
        else snd (op p s) = s
    | None => snd (op p s) = s
    end.

Lemma settle_settles p o s cell :
  heap s !! p = Some cell -> unresolved cell = true ->
  settled_with (snd (settle p o s)) p o /\
  forall q, q <> p -> heap (snd (settle p o s)) !! q = heap s !! q.
Proof.
  intros Hp Hu. unfold settle. rewrite Hp. unfold unresolved in Hu.
  destruct (pst cell) as [rs|] eqn:Hst; [|done]. simpl. split.
  - eexists. split; [apply list_lookup_insert_eq; by eapply lookup_lt_Some|done].
  - intros q Hq. by apply list_lookup_insert_ne.
Qed.

Lemma resolve_settles v : (forall q, v <> VProm q) -> settles_with (fun p => resolve p v) (Fulfilled v).
Proof.
  intros Hv p s. unfold resolve. destruct (heap s !! p) as [cell|] eqn:Hp; [|done].
  destruct (unresolved cell) eqn:Hu; [|done].
  destruct v as [j|a|q|e|vs|ns]; try apply (settle_settles p _ s cell Hp Hu). by destruct (Hv q).
Qed.

Lemma reject_settles e : settles_with (fun p => reject p e) (Rejected e).
Proof.
  intros p s. unfold reject. destruct (heap s !! p) as [cell|] eqn:Hp; [|done].
  destruct (unresolved cell) eqn:Hu; [|done]. apply (settle_settles p _ s cell Hp Hu).
Qed.

(** A resolving function called for every pending request: each promise
    that was unresolved is settled. *)
Lemma settle_all_spec (op : pid -> M unit) (o : outcome) (pps : list pending_request) :
  (forall p, rel grows (op p)) -> (forall p, returns (op p)) -> settles_with op o ->
  forall s,
    fst (forEach (fun pp => op (pp_promise pp)) pps s) = Ok tt /\
    forall pp, pp ∈ pps ->
      (exists cell, heap s !! pp_promise pp = Some cell /\ unresolved cell = true) \/
      settled_with s (pp_promise pp) o ->
      settled_with (snd (forEach (fun pp => op (pp_promise pp)) pps s)) (pp_promise pp) o.
Proof.
  intros Hg Hret Hop. induction pps as [|x pps IH]; intros s.
  - split; [done|]. intros pp Hpp. by apply elem_of_nil in Hpp.
  - simpl. unfold bind. destruct (Hret (pp_promise x) s) as [[] Hr].
    pose proof (Hg (pp_promise x) s) as Hgx. pose proof (Hop (pp_promise x) s) as Hx.
    destruct (op (pp_promise x) s) as [[[]|e] s1] eqn:E; simpl in *; [|done].
    destruct (IH s1) as [IH1 IH2]. split; [done|].
    assert (rel grows (forEach (fun pp => op (pp_promise pp)) pps)) as Hrest
      by (apply rel_forEach; [apply _|intros pp; apply Hg]).
    assert (forall p, (exists cell, heap s !! p = Some cell /\ unresolved cell = true) \/
                      settled_with s p o ->
              (exists cell, heap s1 !! p = Some cell /\ unresolved cell = true) \/
              settled_with s1 p o) as Hstep.
    { intros p [(cell & Hc & Hu)|Hs].
      - destruct (decide (p = pp_promise x)) as [->|Hne].
        + right. rewrite Hc, Hu in Hx. apply Hx.
        + left. exists cell. split; [|done].
          destruct (heap s !! pp_promise x) as [cx|]; [|by subst].
          destruct (unresolved cx); [destruct Hx as [_ Hx]; by rewrite Hx|by subst].
      - right. by eapply stable_settled_with. }
    intros pp Hpp Hpre. apply elem_of_cons in Hpp as [->|Hpp].
    + eapply stable_settled_with; [apply Hrest|].
      destruct Hpre as [(cell0 & Hc0 & Hu0)|Hs0].
      * rewrite Hc0, Hu0 in Hx. apply Hx.
      * by eapply stable_settled_with.
    + apply IH2; [done|]. by apply Hstep.
Qed.

Lemma returns_modify f : returns (modify f).
Proof. intros s. by exists tt. Qed.

Lemma returns_reject p e : returns (reject p e).
Proof.
  intros s. unfold reject. destruct (heap s !! p) as [c|]; [|by eexists].
  destruct (unresolved c); [apply returns_settle|by eexists].
Qed.

Section Callers.

Context (W : world).

Lemma returns_reroute L ev silent : returns (reroute W L ev silent).
Proof.
  unfold reroute. apply returns_bind; [apply returns_get|intros underway].
  destruct underway.
  - apply returns_bind; [apply returns_alloc|intros p].
    apply returns_bind; [apply returns_modify|intros _; apply returns_ret].
  - apply returns_bind; [apply returns_get|intros ch].
    apply returns_bind; [apply returns_get|intros old].
    apply returns_bind; [apply returns_get|intros new].
    apply returns_bind; [apply returns_modify|intros _]. cbv zeta.
    apply returns_bind; [apply returns_get|intros st].
    assert (forall f, returns (new_frame f)) as Hnf by (intros f s; by eexists).
    destruct st.
    + apply returns_bind; [apply returns_modify|intros _].
      apply returns_bind; [apply Hnf|intros c]. apply performAppChanges_returns.
    + apply returns_bind; [apply Hnf|intros c]. unfold loadApps.
      apply returns_bind; [apply returns_promise_resolve|intros p0]. apply returns_then.
Qed.

Lemma reroute_grows L ev silent : rel grows (reroute W L ev silent).
Proof. grows_facts. walk. Qed.

End Callers.

(** X13.  When a reroute call completes, [finishUpAndReturn] returns the
    names of the mounted applications and fulfils with them the promise of
    every pending request of the call that was not resolved yet; what the
    listeners of the events it dispatches do or throw does not change that.
    When the mounts fail, the rejection callback rejects the promise of
    every pending request with the error and throws it again. *)
Theorem completion_settles_every_pending_request (W : world) (c : cid) (s : state) :
  exists mounted,
    getMountedApps s = (Ok mounted, s) /\
    fst (finishUpAndReturn W c s) = Ok mounted /\
    (forall pp cell,
       pp ∈ pendingPromises (frames s c) ->
       heap s !! pp_promise pp = Some cell -> unresolved cell = true ->
       settled_with (snd (finishUpAndReturn W c s)) (pp_promise pp) (Fulfilled mounted)) /\
    (forall e,
       fst (reject_pending c e s) = Throw e /\
       forall pp cell,
         pp ∈ pendingPromises (frames s c) ->
         heap s !! pp_promise pp = Some cell -> unresolved cell = true ->
         settled_with (snd (reject_pending c e s)) (pp_promise pp) (Rejected e)).
Proof.
  eexists. split; [reflexivity|].
  set (mounted := VNames _).
  assert (forall q, mounted <> VProm q) as Hm by done.
  destruct (settle_all_spec (fun p => resolve p mounted) (Fulfilled mounted)
              (pendingPromises (frames s c)) (fun p => rel_grows_resolve p mounted)
              (fun p => returns_resolve p mounted) (resolve_settles mounted Hm) s)
    as [F1 F2].
  cbv beta in F1, F2. split_and!.
  - unfold finishUpAndReturn, bind, frame_of, getMountedApps, get, ret. simpl.
    fold mounted.
    destruct (forEach _ (pendingPromises (frames s c)) s) as [[[]|e] s3]; simpl in *; [|done].
    assert (returns (try_catch
                       (d1 <- getCustomEventDetail c false false ;;
                        fireSingleSpaEvent W c
                          (if bool_decide (length (appsThatChanged (frames s c)) = 0)
                           then "no-app-change" else "app-change") d1 ;;;
                        d2 <- getCustomEventDetail c false false ;;
                        fireSingleSpaEvent W c "routing-event" d2)
                       (fun _ => log ObsAsyncThrow))) as Hev
      by (apply returns_try_catch; intros; apply returns_log).
    destruct (Hev s3) as [[] Hev3]. unfold bind, get in Hev3.
    match goal with |- context [try_catch ?m ?h s3] =>
      change (fst (try_catch m h s3) = Ok tt) in Hev3;
      destruct (try_catch m h s3) as [[[]|e] s4]
    end; simpl in *; [|done].
    unfold modify. simpl.
    destruct (bool_decide (0 < length (peopleWaitingOnAppChange s4))); simpl; [|done].
    match goal with |- context [reroute W ?L None false ?s5] =>
      destruct (returns_reroute W L None false s5) as [d Hd];
      destruct (reroute W L None false s5) as [[p|e] s6]
    end; simpl in *; done.
  - intros pp cell Hpp Hc Hu.
    specialize (F2 pp Hpp (or_introl (ex_intro _ cell (conj Hc Hu)))).
    set (P := fun s' : state => settled_with s' (pp_promise pp) (Fulfilled mounted)).
    assert (wp (finishUpAndReturn W c) (fun _ => P) (fun _ => P) s) as Hwp.
    2:{ apply wp_fst_snd in Hwp. by destruct (fst (finishUpAndReturn W c s)). }
    unfold finishUpAndReturn.
    apply wp_bind. unfold frame_of. apply wp_get.
    apply wp_bind. unfold getMountedApps. apply wp_bind, wp_get, wp_ret. fold mounted.
    apply wp_bind. unfold wp at 1.
    destruct (forEach _ (pendingPromises (frames s c)) s) as [[[]|e] s3]; simpl in *; [|done].
    grows_facts. pose proof (reroute_grows W) as Hr.
    apply (wp_rel grows); [walk|..]; intros ? s' Hg; by apply (stable_settled_with _ _ s3 s' Hg).
  - intros e.
    destruct (settle_all_spec (fun p => reject p e) (Rejected e)
                (pendingPromises (frames s c)) (fun p => rel_grows_reject p e)
                (fun p => returns_reject p e) (reject_settles e) s) as [R1 R2].
    unfold reject_pending, bind, frame_of, get, throw. simpl. cbv beta in R1, R2.
    clear F1 F2.
    destruct (forEach _ (pendingPromises (frames s c)) s) as [[[]|x] s3]; simpl in *; [|done].
    split; [done|]. intros pp cell Hpp Hc Hu. apply R2; [done|]. left. by exists cell.
Qed.

(** ** The single-spa events of a reroute call (reroute.js) *)

(** How far a reroute call goes before it dispatches the event [nm]: the
    events of the beginning, the event between the unmounts and the mounts,
    and the events of the end. *)
Definition stage (nm : string) : nat :=
  if existsb (String.eqb nm)
       ["before-no-app-change"; "before-app-change"; "before-routing-event"] then 1
  else if String.eqb nm "before-mount-routing-event" then 2
  else if existsb (String.eqb nm) ["no-app-change"; "app-change"; "routing-event"] then 3
  else 0.

Arguments stage : simpl never.

(** The callbacks of the reroute call [c] that are on the way to the
    dispatch of [nm]. *)
Definition leads_to (c : cid) (nm : string) (k : kont) : bool :=
  match k with
  | KPerformAppChanges c' => Nat.eqb c' c && Nat.leb 1 (stage nm)
  | KCancelValues c' => Nat.eqb c' c && Nat.leb 2 (stage nm)
  | KBeforeMount c' => Nat.eqb c' c && Nat.eqb (stage nm) 2
  | KUnmountDone c' _ _ | KFinishUpAndReturn c' => Nat.eqb c' c && Nat.eqb (stage nm) 3
  | _ => false
  end.

Definition dispatch_at (c : cid) (nm : string) (c' : cid) (nm' : string) : nat :=
  if Nat.eqb c' c && String.eqb nm' nm then 1 else 0.

Definition dispatch_of (c : cid) (nm : string) (o : obs) : nat :=
  match o with
  | ObsDispatch c' nm' _ => dispatch_at c nm c' nm'
  | _ => 0
  end.

(** How often the event [nm] was dispatched for the reroute call [c]. *)
Definition dispatches (c : cid) (nm : string) (t : list obs) : nat :=
  sum_list_with (dispatch_of c nm) t.

(** The dispatches made, plus one while the reroute call is still to begin. *)
Definition dispatched (c : cid) (nm : string) (s : state) : nat :=
  dispatches c nm (trace s) + (if Nat.ltb c (nframes s) then 0 else 1).

Lemma gain_try_catch {A} T extra a b (m : M A) (h : val -> M A) :
  rel (gain T extra a) m -> (forall e, rel (gain T extra b) (h e)) ->
  rel (gain T extra (a + b)) (try_catch m h).
Proof.
  intros Hm Hh s. unfold try_catch. specialize (Hm s).
  destruct (m s) as [[x|e] s1]; simpl in *.
  - unfold gain in *. lia.
  - specialize (Hh e s1). unfold gain in *. lia.
Qed.

Ltac dispatch_facts c nm :=
  pose proof (gain_alloc (leads_to c nm) (dispatched c nm) (fun _ _ => eq_refl));
  pose proof (gain_settle (leads_to c nm) (dispatched c nm) (fun _ _ => eq_refl)
                (fun _ _ => eq_refl));
  pose proof (gain_resolve (leads_to c nm) (dispatched c nm) (fun _ _ => eq_refl)
                (fun _ _ => eq_refl));
  pose proof (gain_reject (leads_to c nm) (dispatched c nm) (fun _ _ => eq_refl)
                (fun _ _ => eq_refl));
  pose proof (gain_all_element (leads_to c nm) (dispatched c nm) (fun _ _ => eq_refl)
                (fun _ _ => eq_refl));
  pose proof (gain_promise_resolve (leads_to c nm) (dispatched c nm) (fun _ _ => eq_refl)
                (fun _ _ => eq_refl));
  pose proof (gain_promise_all (leads_to c nm) (dispatched c nm) (fun _ _ => eq_refl)
                (fun _ _ => eq_refl));
  pose proof (gain_ext_promise (leads_to c nm) (dispatched c nm) (fun _ _ => eq_refl)
                (fun _ _ => eq_refl)).

Ltac walk_guard h ::=
  lazymatch h with
  | then_ => fail | subscribe => fail | @reroute => fail | @fireSingleSpaEvent => fail
  | _ => idtac
  end.

Section Dispatch.

Context (W : world) (c : cid) (nm : string).

Local Abbreviation G := (gain (leads_to c nm) (dispatched c nm)).

Lemma dispatch_then p onF onR :
  tok_opt (leads_to c nm) onF + tok_opt (leads_to c nm) onR = 0 ->
  rel (G 0) (then_ p onF onR).
Proof. intros H. rewrite <- H. apply gain_then; intros; reflexivity. Qed.

Lemma dispatch_then_tok p k : rel (G (tok (leads_to c nm) k)) (then_ p (Some k) None).
Proof.
  apply (gain_mono _ _ (tok_opt (leads_to c nm) (Some k) + tok_opt (leads_to c nm) None));
    [simpl; lia|].
  apply gain_then; intros; reflexivity.
Qed.

Lemma dispatch_subscribe p h :
  tok_handler (leads_to c nm) h = 0 -> rel (G 0) (subscribe p h).
Proof. intros H. rewrite <- H. apply gain_subscribe; intros; reflexivity. Qed.

Lemma dispatch_log o : rel (G (dispatch_of c nm o)) (log o).
Proof.
  intros s. unfold gain, potential, count, dispatched, dispatches. simpl.
  rewrite sum_list_with_app. simpl. lia.
Qed.

Lemma dispatch_log_other o : dispatch_of c nm o = 0 -> rel (G 0) (log o).
Proof. intros H. rewrite <- H. apply dispatch_log. Qed.

(** A call of [reroute] adds no dispatch: the callback it registers is
    counted in place of the reroute call that was still to begin. *)
Lemma reroute_dispatch L ev silent : rel (G 0) (reroute W L ev silent).
Proof.
  dispatch_facts c nm. pose proof dispatch_then as Hthen.
  intros s. destruct (appChangeUnderway s) eqn:Hf.
  - rewrite (reroute_queues W L ev silent s Hf). simpl.
    clear. unfold gain, potential, count, dispatched. simpl. rewrite sum_list_with_app. simpl.
    change (count_cell (leads_to c nm) (new_cell PPlain 0)) with 0. lia.
  - unfold reroute, bind, get, isStarted, modify, new_frame. simpl. rewrite Hf. simpl.
    destruct (started s) eqn:Hst; simpl.
    + match goal with |- context [performAppChanges ?c1 ?s3] =>
        assert (G (tok (leads_to c nm) (KPerformAppChanges c1)) s3
                  (snd (performAppChanges c1 s3))) as Hgain
      end.
      { unfold performAppChanges.
        apply (gain_bind _ _ 0 (tok (leads_to c nm) (KPerformAppChanges (nframes s))));
          [done|intros p0].
        apply dispatch_then_tok. }
      revert Hgain. clear. unfold gain, potential, count, dispatched, tok. simpl.
      destruct (Nat.eqb_spec (nframes s) c) as [<-|Hne]; simpl.
      * rewrite Nat.ltb_irrefl. assert (Nat.ltb (nframes s) (S (nframes s)) = true) as ->
          by (apply Nat.ltb_lt; lia).
        destruct (stage nm); lia.
      * assert (Nat.ltb c (S (nframes s)) = Nat.ltb c (nframes s)) as ->.
        { destruct (Nat.ltb_spec c (S (nframes s))), (Nat.ltb_spec c (nframes s)); lia. }
        lia.
    + match goal with |- context [loadApps ?c1 ?s3] =>
        assert (G 0 s3 (snd (loadApps c1 s3))) as Hgain
      end.
      { assert (rel (G 0) (loadApps (nframes s))) as Hl by (unfold loadApps; walk).
        apply Hl. }
      revert Hgain. clear. unfold gain, potential, count, dispatched. simpl.
      destruct (Nat.ltb_spec c (S (nframes s))), (Nat.ltb_spec c (nframes s)); lia.
Qed.

Lemma run_actions_dispatch cap acts : rel (G 0) (run_actions W cap acts).
Proof.
  dispatch_facts c nm. pose proof dispatch_then as Hthen.
  pose proof dispatch_log_other as Hlog. pose proof reroute_dispatch as Hr.
  unfold run_actions. apply rel_forEach; [apply _|]. intros act.
  destruct act; cbn [run_action]; walk.
Qed.

Lemma fireSingleSpaEvent_dispatch c' nm' d :
  rel (G (dispatch_at c nm c' nm')) (fireSingleSpaEvent W c' nm' d).
Proof.
  dispatch_facts c nm. pose proof run_actions_dispatch as Hacts.
  pose proof dispatch_log_other as Hlog.
  unfold fireSingleSpaEvent.
  apply (gain_bind _ _ 0 (dispatch_at c nm c' nm')); [walk|intros f].
  destruct (negb (silentNavigation f)).
  2:{ apply (gain_mono _ _ 0); [lia|]. walk. }
  apply (gain_mono _ _ (dispatch_at c nm c' nm' + 0)); [lia|].
  apply gain_bind; [apply (dispatch_log (ObsDispatch c' nm' d))|intros _]. walk.
Qed.

End Dispatch.

(** What the callbacks of a reroute call may still dispatch. *)
Lemma budget_perform c nm c' (b : bool) :
  dispatch_at c nm c' (if b then "before-no-app-change" else "before-app-change") +
  (dispatch_at c nm c' "before-routing-event" + tok (leads_to c nm) (KCancelValues c')) <=
  tok (leads_to c nm) (KPerformAppChanges c').
Proof.
  unfold tok, leads_to, dispatch_at. destruct (Nat.eqb c' c); [|simpl; lia].
  rewrite !andb_true_l.
  destruct b.
  - destruct (String.eqb_spec "before-no-app-change" nm) as [<-|H1]; [cbv; lia|].
    destruct (String.eqb_spec "before-routing-event" nm) as [<-|H2]; [cbv; lia|].
    destruct (stage nm) as [|[|[|n]]]; simpl; lia.
  - destruct (String.eqb_spec "before-app-change" nm) as [<-|H1]; [cbv; lia|].
    destruct (String.eqb_spec "before-routing-event" nm) as [<-|H2]; [cbv; lia|].
    destruct (stage nm) as [|[|[|n]]]; simpl; lia.
Qed.

Lemma budget_cancel c nm c' l1 l2 :
  tok (leads_to c nm) (KBeforeMount c') + tok (leads_to c nm) (KUnmountDone c' l1 l2) <=
  tok (leads_to c nm) (KCancelValues c').
Proof.
  unfold tok, leads_to. destruct (Nat.eqb c' c); simpl; [|lia].
  destruct (stage nm) as [|[|[|[|n]]]]; simpl; lia.
Qed.

Lemma budget_before_mount c nm c' :
  dispatch_at c nm c' "before-mount-routing-event" <= tok (leads_to c nm) (KBeforeMount c').
Proof.
  unfold tok, leads_to, dispatch_at. destruct (Nat.eqb c' c); [|simpl; lia].
  rewrite !andb_true_l.
  destruct (String.eqb_spec "before-mount-routing-event" nm) as [<-|H1]; [cbv; lia|lia].
Qed.

Lemma budget_finish c nm c' (b : bool) :
  dispatch_at c nm c' (if b then "no-app-change" else "app-change") +
  dispatch_at c nm c' "routing-event" <=
  tok (leads_to c nm) (KFinishUpAndReturn c').
Proof.
  unfold tok, leads_to, dispatch_at. destruct (Nat.eqb c' c); [|simpl; lia].
  rewrite !andb_true_l.
  destruct b.
  - destruct (String.eqb_spec "no-app-change" nm) as [<-|H1]; [cbv; lia|].
    destruct (String.eqb_spec "routing-event" nm) as [<-|H2]; [cbv; lia|lia].
  - destruct (String.eqb_spec "app-change" nm) as [<-|H1]; [cbv; lia|].
    destruct (String.eqb_spec "routing-event" nm) as [<-|H2]; [cbv; lia|lia].
Qed.

(** A part of a callback body that dispatches nothing, followed by the rest. *)
Ltac quiet c nm n :=
  apply (gain_bind (leads_to c nm) (dispatched c nm) 0 n); [solve [walk]|intros ?].

Section DispatchJobs.

Context (W : world) (c : cid) (nm : string).

Local Abbreviation G := (gain (leads_to c nm) (dispatched c nm)).
Local Abbreviation T := (leads_to c nm).

Lemma perform_start_dispatch c' : rel (G (tok T (KPerformAppChanges c'))) (perform_start W c').
Proof.
  dispatch_facts c nm. pose proof (dispatch_then c nm) as Hthen.
  pose proof (dispatch_log_other c nm) as Hlog.
  unfold perform_start.
  apply (gain_bind _ _ 0 (tok T (KPerformAppChanges c'))); [walk|intros f].
  eapply gain_mono; [apply (budget_perform c nm c'
                              (bool_decide (length (appsThatChanged f) = 0)))|].
  quiet c nm (dispatch_at c nm c'
                (if bool_decide (length (appsThatChanged f) = 0)
                 then "before-no-app-change" else "before-app-change") +
              (dispatch_at c nm c' "before-routing-event" + tok T (KCancelValues c'))).
  apply gain_bind; [apply fireSingleSpaEvent_dispatch|intros _].
  quiet c nm (dispatch_at c nm c' "before-routing-event" + tok T (KCancelValues c')).
  apply gain_bind; [apply fireSingleSpaEvent_dispatch|intros _].
  quiet c nm (tok T (KCancelValues c')).
  quiet c nm (tok T (KCancelValues c')).
  apply (gain_mono _ _ (tok T (KCancelValues c') + 0)); [lia|].
  apply gain_bind; [apply dispatch_then_tok|intros; walk].
Qed.

Lemma cancel_values_dispatch c' v :
  rel (G (tok T (KCancelValues c'))) (cancel_values W c' v).
Proof.
  dispatch_facts c nm. pose proof (dispatch_then c nm) as Hthen.
  pose proof (dispatch_log_other c nm) as Hlog. pose proof (reroute_dispatch W c nm) as Hr.
  unfold cancel_values.
  quiet c nm (tok T (KCancelValues c')). cbv zeta.
  destruct (existsb truthy (values_of v)).
  { apply (gain_mono _ _ 0); [lia|]. walk. }
  quiet c nm (tok T (KCancelValues c')).
  quiet c nm (tok T (KCancelValues c')).
  quiet c nm (tok T (KCancelValues c')).
  quiet c nm (tok T (KCancelValues c')).
  apply (gain_mono _ _ (tok T (KBeforeMount c') + tok T (KFinishUpAndReturn c')));
    [apply (budget_cancel c nm c' [] [])|].
  apply gain_bind.
  { apply (gain_mono _ _ (tok_opt T (Some (KBeforeMount c')) + tok_opt T (Some KRethrow)));
      [unfold tok_opt, tok; change (leads_to c nm KRethrow) with false; cbv iota; lia|].
    apply gain_then; intros; reflexivity. }
  intros _.
  quiet c nm (tok T (KFinishUpAndReturn c')).
  quiet c nm (tok T (KFinishUpAndReturn c')).
  quiet c nm (tok T (KFinishUpAndReturn c')).
  apply (gain_mono _ _ (tok T (KFinishUpAndReturn c') + 0)); [lia|].
  apply gain_bind; [|intros; walk].
  match goal with |- rel _ (then_ _ (Some ?k) None) => apply (dispatch_then_tok c nm _ k) end.
Qed.

Lemma unmount_done_dispatch c' ltm mp :
  rel (G (tok T (KUnmountDone c' ltm mp))) (unmount_done W c' ltm mp).
Proof.
  dispatch_facts c nm. pose proof (dispatch_then c nm) as Hthen.
  pose proof (dispatch_log_other c nm) as Hlog. pose proof (reroute_dispatch W c nm) as Hr.
  pose proof (run_actions_dispatch W c nm) as Hacts.
  unfold unmount_done.
  quiet c nm (tok T (KFinishUpAndReturn c')).
  quiet c nm (tok T (KFinishUpAndReturn c')).
  quiet c nm (tok T (KFinishUpAndReturn c')).
  apply (gain_mono _ _ (tok T (KFinishUpAndReturn c') + 0)); [lia|].
  apply gain_bind; [apply dispatch_then_tok|intros; walk].
Qed.

Lemma finishUpAndReturn_dispatch c' :
  rel (G (tok T (KFinishUpAndReturn c'))) (finishUpAndReturn W c').
Proof.
  dispatch_facts c nm. pose proof (dispatch_then c nm) as Hthen.
  pose proof (dispatch_log_other c nm) as Hlog. pose proof (reroute_dispatch W c nm) as Hr.
  unfold finishUpAndReturn.
  apply (gain_bind _ _ 0 (tok T (KFinishUpAndReturn c'))); [walk|intros f].
  eapply gain_mono; [apply (budget_finish c nm c'
                              (bool_decide (length (appsThatChanged f) = 0)))|].
  set (gA := dispatch_at c nm c'
               (if bool_decide (length (appsThatChanged f) = 0)
                then "no-app-change" else "app-change")).
  set (gR := dispatch_at c nm c' "routing-event").
  quiet c nm (gA + gR).
  quiet c nm (gA + gR).
  apply (gain_mono _ _ ((gA + gR) + 0)); [lia|].
  apply gain_bind; [|intros _; walk].
  apply (gain_mono _ _ ((gA + gR) + 0)); [lia|].
  apply gain_try_catch; [|intros; walk]. cbv zeta.
  quiet c nm (gA + gR).
  apply gain_bind; [apply fireSingleSpaEvent_dispatch|intros _].
  quiet c nm gR.
  apply fireSingleSpaEvent_dispatch.
Qed.

Lemma run_kont_dispatch k v : rel (G (tok T k)) (run_kont W k v).
Proof.
  dispatch_facts c nm. pose proof (dispatch_then c nm) as Hthen.
  pose proof (dispatch_log_other c nm) as Hlog. pose proof (reroute_dispatch W c nm) as Hr.
  pose proof (run_actions_dispatch W c nm) as Hacts.
  destruct k; cbn [run_kont];
    try apply perform_start_dispatch; try apply cancel_values_dispatch;
    try apply unmount_done_dispatch; try apply finishUpAndReturn_dispatch.
  all: try (change (tok T _) with 0; solve [walk]).
  (* KBeforeMount *)
  quiet c nm (tok T (KBeforeMount c0)).
  eapply gain_mono; [apply (budget_before_mount c nm c0)|].
  apply (gain_mono _ _ (dispatch_at c nm c0 "before-mount-routing-event" + 0)); [lia|].
  apply gain_bind; [apply fireSingleSpaEvent_dispatch|intros; walk].
Qed.

Lemma env_run_dispatch e : e <> EnvRunJob -> rel (G 0) (env_run W e).
Proof.
  intros He. dispatch_facts c nm. pose proof (dispatch_then c nm) as Hthen.
  pose proof (dispatch_log_other c nm) as Hlog. pose proof (reroute_dispatch W c nm) as Hr.
  destruct e; try done; clear He; cbn [env_run]; walk.
Qed.

Lemma reachable_dispatch s :
  reachable W s -> potential T (dispatched c nm) s <= 1.
Proof.
  apply (reachable_potential W T (dispatched c nm) (fun _ _ => eq_refl) (fun _ _ => eq_refl)
           run_kont_dispatch 1); [|apply env_run_dispatch].
  intros. unfold potential, count, dispatched. simpl. lia.
Qed.

End DispatchJobs.

(** X14.  Every single-spa event is dispatched once at most for a reroute
    call, and not at all for a reroute call that has not begun; while a
    callback of the call that is on the way to the event still waits, the
    event was not dispatched. *)
Theorem each_event_dispatched_once_per_call (W : world) (s : state) (c : cid)
    (nm : string) :
  reachable W s ->
  count (leads_to c nm) s + dispatches c nm (trace s) <=
    if Nat.ltb c (nframes s) then 1 else 0.
Proof.
  intros Hs. pose proof (reachable_dispatch W c nm s Hs) as H.
  unfold potential, dispatched in H. destruct (Nat.ltb c (nframes s)); lia.
Qed.

(** ** The properties above on the concrete page *)

(** The page of the examples, started at /a. *)
Definition started_at_a : state :=
  run (Demo.page (JObject Demo.module_ok)) [EnvStart None] Demo.at_a.

(** The same with two popstate listeners registered after the start. *)
Definition two_listeners : state :=
  run (Demo.page (JObject Demo.module_ok))
    [EnvStart None; EnvAddEventListener "popstate" 7; EnvAddEventListener "popstate" 8]
    Demo.at_a.

(** The page before [start]: [triggerAppChange] was called and three jobs
    have run. *)
Definition loading_before_start : state :=
  run (Demo.page (JObject Demo.module_ok)) (EnvTriggerAppChange :: Demo.jobs 3) Demo.at_a.



Lemma history_api_patch_is_permanent_witness :
  let W := Demo.page (JObject Demo.module_ok) in
  let s := started_at_a in
  originalReplaceState s = historyApiIsPatched s /\
  (started s = true -> historyApiIsPatched s = true) /\
  (forall es, started s = true -> started (run W es s) = true) /\
  (historyApiIsPatched s = true ->
   (forall opts, patchHistoryApi opts s = (Throw (VErr (ErrCode 43)), s)) /\
   (forall es, historyApiIsPatched (run W es s) = true /\
               urlRerouteOnly (run W es s) = urlRerouteOnly s)).
Proof.
  intros W s. apply (history_api_patch_is_permanent W s). apply Demo.at_a_reachable.
Defined.

Lemma patched_update_state_fires_popstate_witness :
  let W := Demo.page (JObject Demo.module_ok) in
  let s := started_at_a in
  let new := location_origin W +:+ "/b" in
  let ev := {| ev_type := "popstate"; ev_id := ticks s |} in
  let s' := snd (updateState W "pushState" "/b" s) in
  (urlRerouteOnly s = true -> new = href s -> updateState W "pushState" "/b" s = (Ok tt, s)) /\
  (urlRerouteOnly s = false \/ new <> href s ->
   href s' = new /\ trace s' = trace s ++ [ObsPopState "pushState"] /\
   (appChangeUnderway s = true ->
    fst (updateState W "pushState" "/b" s) = Ok tt /\
    nframes s' = nframes s /\
    peopleWaitingOnAppChange s' =
      peopleWaitingOnAppChange s ++
        [{| pp_promise := length (heap s); pp_eventArguments := Some ev |}]) /\
   (appChangeUnderway s = false -> started s = true ->
    fst (updateState W "pushState" "/b" s) = Ok tt /\
    nframes s' = S (nframes s) /\ appChangeUnderway s' = true /\
    eventArguments (frames s' (nframes s)) = Some ev /\
    pendingPromises (frames s' (nframes s)) = [] /\
    oldUrl (frames s' (nframes s)) = currentUrl s /\
    newUrl (frames s' (nframes s)) = new /\
    currentUrl s' = new)).
Proof.
  intros W s. apply (patched_update_state_fires_popstate W "pushState" "/b" s). reflexivity.
Defined.

Lemma only_loads_before_start_witness :
  let s := loading_before_start in
  driver_calls (trace s) = [] /\
  (forall c nm d, ObsDispatch c nm d ∉ trace s) /\
  (forall url, ObsReplaceState url ∉ trace s) /\
  appChangeUnderway s = false /\
  peopleWaitingOnAppChange s = [] /\
  count routing s = 0.
Proof.
  intros s. apply (only_loads_before_start (Demo.page (JObject Demo.module_ok)) s).
  - apply Demo.at_a_reachable.
  - reflexivity.
Defined.

Lemma no_request_waits_while_idle_witness :
  peopleWaitingOnAppChange Demo.popstate_replayed = [].
Proof.
  apply (no_request_waits_while_idle (Demo.page (JObject Demo.module_ok))
           Demo.popstate_replayed).
  - apply Demo.empty_reachable.
  - vm_compute. reflexivity.
Defined.

Lemma old_url_is_previous_new_url_witness :
  let s := Demo.b_bootstrapped in
  (forall c, S c < nframes s ->
     if silentNavigation (frames s (S c))
     then oldUrl (frames s (S c)) = newUrl (frames s (S c))
     else oldUrl (frames s (S c)) = newUrl (frames s c)) /\
  (0 < nframes s -> currentUrl s = newUrl (frames s (nframes s - 1))).
Proof.
  intros s. apply (old_url_is_previous_new_url (Demo.page (JObject Demo.module_ok)) s).
  apply Demo.at_a_reachable.
Defined.

Lemma load_result_null_is_a_load_error_witness :
  let s := Demo.at_a in
  let s1 := snd (load_resolved 0 0 (VJs JUndefined) s) in
  let s2 := snd (load_catch 0 0 (VErr TypeError) s1) in
  fst (load_resolved 0 0 (VJs JUndefined) s) = Throw (VErr TypeError) /\
  trace s1 = trace s /\
  app_status (apps s1 0) = app_status (apps s 0) /\
  loadPromise (apps s1 0) = loadPromise (apps s 0) /\
  loadErrorTime (apps s1 0) = None /\
  fst (load_catch 0 0 (VErr TypeError) s1) = Ok (VApp 0) /\
  app_status (apps s2 0) = LOAD_ERROR /\
  loadErrorTime (apps s2 0) = Some (now s) /\
  can_load (apps s2 0) /\
  trace s2 = trace s ++ [ObsAppError 0 LOAD_ERROR].
Proof.
  intros s. apply (load_result_null_is_a_load_error 0 0 (VJs JUndefined) s).
  - left. reflexivity.
  - reflexivity.
Defined.

Lemma refused_module_reports_last_failed_check_witness :
  let v := VJs (JObject Demo.module_mount_only) in
  trace (snd (load_resolved 0 0 v Demo.at_a)) =
    trace Demo.at_a ++
    [ObsConsole (validation_code (as_js v)); ObsAppError 0 SKIP_BECAUSE_BROKEN] /\
  (validLifecycleFn (prop_unmount (as_js v)) = false -> validation_code (as_js v) = 37) /\
  (validLifecycleFn (prop_unmount (as_js v)) = true ->
   validLifecycleFn (prop_mount (as_js v)) = false -> validation_code (as_js v) = 36).
Proof.
  intros v. apply (refused_module_reports_last_failed_check 0 0 v Demo.at_a).
  - discriminate.
  - discriminate.
  - intros (_ & _ & _ & H). discriminate H.
Defined.

Lemma each_event_dispatched_once_per_call_witness :
  count (leads_to 1 "routing-event") Demo.popstate_replayed +
  dispatches 1 "routing-event" (trace Demo.popstate_replayed) <=
    if Nat.ltb 1 (nframes Demo.popstate_replayed) then 1 else 0.
Proof.
  apply (each_event_dispatched_once_per_call (Demo.page (JObject Demo.module_ok))
           Demo.popstate_replayed 1 "routing-event").
  apply Demo.empty_reachable.
Defined.


(** ** The lifecycle drivers a reroute call calls at once (reroute.js) *)

(** The drivers called in a trace, with the application they were called
    for, in order. *)
Definition driver_ops (t : list obs) : list (extop * appid) :=
  map (fun x => (x.1.1, x.1.2)) (driver_calls t).

(** From [s], [m] returns, leaves the location and the switches of the
    scheduler alone, and what it adds to the trace are the driver calls
    [ops] and nothing else. *)
Definition calls_at {A} (s : state) (ops : list (extop * appid)) (m : M A) : Prop :=
  (exists a, fst (m s) = Ok a) /\
  (href (snd (m s)), appChangeUnderway (snd (m s)), nframes (snd (m s)), frames (snd (m s))) =
    (href s, appChangeUnderway s, nframes s, frames s) /\
  exists new, trace (snd (m s)) = trace s ++ new /\
              Forall (fun o => is_Some (driver_call o)) new /\ driver_ops new = ops.

Lemma driver_ops_app t1 t2 : driver_ops (t1 ++ t2) = driver_ops t1 ++ driver_ops t2.
Proof. unfold driver_ops, driver_calls. by rewrite omap_app, map_app. Qed.

Lemma calls_at_bind {A B} s ops1 ops2 (m : M A) (f : A -> M B) :
  calls_at s ops1 m ->
  (forall a s1, m s = (Ok a, s1) -> calls_at s1 ops2 (f a)) ->
  calls_at s (ops1 ++ ops2) (bind m f).
Proof.
  intros ([a Ha] & E1 & new1 & T1 & F1 & O1) Hf. unfold calls_at, bind.
  destruct (m s) as [[a'|e] s1] eqn:E; simpl in *; [|done].
  destruct (Hf a' s1 eq_refl) as ([b Hb] & E2 & new2 & T2 & F2 & O2).
  split_and!.
  - by exists b.
  - by rewrite E2, E1.
  - exists (new1 ++ new2). rewrite T2, T1, <- app_assoc. split_and!; [done| |].
    + by apply Forall_app_2.
    + by rewrite driver_ops_app, O1, O2.
Qed.

Lemma calls_at_ret {A} s (a : A) : calls_at s [] (ret a).
Proof.
  split_and!; [by exists a|done|]. exists []. by rewrite app_nil_r.
Qed.

(** An operation that returns and touches neither the trace nor the rest. *)
Lemma calls_at_quiet {A} s (m : M A) : returns m -> rel (same rest) m -> calls_at s [] m.
Proof.
  intros Hr Hs. specialize (Hs s). unfold same in Hs. apply rest_fields in Hs.
  destruct_and?. split_and!; [apply Hr|congruence|].
  exists []. rewrite app_nil_r. by split_and!.
Qed.

Lemma calls_at_mapM {A B} (f : A -> M B) (h : A -> list (extop * appid)) (u : string) xs :
  (forall x s, href s = u -> calls_at s (h x) (f x)) ->
  forall s, href s = u -> calls_at s (flat_map h xs) (mapM f xs).
Proof.
  intros Hf. induction xs as [|x xs IH]; intros s Hu; simpl.
  - apply calls_at_ret.
  - apply calls_at_bind; [by apply Hf|]. intros y s1 E.
    assert (href s1 = u) as Hu1.
    { destruct (Hf x s Hu) as (_ & E1 & _). rewrite E in E1. simpl in E1.
      inversion E1. congruence. }
    rewrite <- (app_nil_r (flat_map h xs)).
    apply calls_at_bind; [by apply IH|]. intros ys s2 _. apply calls_at_ret.
Qed.

Lemma calls_at_ext_call s op a : calls_at s [(op, a)] (ext_call op a).
Proof.
  unfold ext_call, bind, alloc, log, modify, calls_at. simpl. split_and!.
  - by eexists.
  - done.
  - exists [ObsCall op a (length (heap s))]. split_and!; [done| |done].
    constructor; [by eexists|constructor].
Qed.

Ltac walk_guard h ::= idtac.
Ltac walk_side ::= first [done | apply _].

Section Drivers.

Context (W : world).

Lemma calls_at_tryToBootstrapAndMount s a up :
  calls_at s (if shouldBeActive W a (href s) then [(OpBootstrap, a)] else [])
    (tryToBootstrapAndMount W a up).
Proof.
  unfold tryToBootstrapAndMount.
  change (if shouldBeActive W a (href s) then [(OpBootstrap, a)] else [])
    with ([] ++ if shouldBeActive W a (href s) then [(OpBootstrap, a)] else []).
  apply calls_at_bind; [apply calls_at_quiet; [apply returns_get|walk]|].
  intros url s1 [= <- <-].
  destruct (shouldBeActive W a (href s)).
  - change [(OpBootstrap, a)] with ([(OpBootstrap, a)] ++ []).
    apply calls_at_bind; [apply calls_at_ext_call|]. intros bp s1 _.
    apply calls_at_quiet; [apply returns_then|apply then_rest].
  - apply calls_at_quiet; [apply returns_then|apply then_rest].
Qed.

(** [unload], [unmount] and [bootstrap] are what a call that was not
    cancelled calls at once, in this order. *)
Definition drivers_called (f : frame) (url : string) : list (extop * appid) :=
  map (pair OpUnload) (appsToUnload f) ++
  map (pair OpUnmount) (appsToUnmount f) ++
  map (pair OpBootstrap)
    (filter (fun a => shouldBeActive W a url = true)
       (filter (fun a => a ∉ appsToLoad f) (appsToMount f))).

Lemma flat_map_singleton {A B} (g : A -> B) xs : flat_map (fun x => [g x]) xs = map g xs.
Proof. induction xs; simpl; congruence. Qed.

Lemma flat_map_nil {A B} (xs : list A) : flat_map (fun _ => @nil B) xs = [].
Proof. by induction xs. Qed.

Lemma flat_map_if {A B} (P : A -> bool) (g : A -> B) xs :
  flat_map (fun x => if P x then [g x] else []) xs = map g (filter (fun x => P x = true) xs).
Proof.
  induction xs as [|x xs IH]; [done|]. simpl. rewrite filter_cons.
  destruct (decide (P x = true)) as [E|E].
  - rewrite E. simpl. by rewrite IH.
  - by destruct (P x).
Qed.

Lemma calls_at_cancel_values c v s :
  existsb truthy (values_of v) = false ->
  calls_at s (drivers_called (frames s c) (href s)) (cancel_values W c v).
Proof.
  intros Hv. unfold cancel_values.
  change (drivers_called (frames s c) (href s))
    with ([] ++ drivers_called (frames s c) (href s)).
  apply calls_at_bind; [apply calls_at_quiet; [apply returns_get|walk]|].
  intros f s0 [= <- <-]. cbv zeta. rewrite Hv. unfold drivers_called.
  apply calls_at_bind.
  { rewrite <- flat_map_singleton.
    apply (calls_at_mapM _ (fun a => [(OpUnload, a)]) (href s)); [|done].
    intros; apply calls_at_ext_call. }
  intros unloadPromises s1 E1.
  assert (href s1 = href s) as U1.
  { pose proof (calls_at_mapM toUnloadPromise (fun a => [(OpUnload, a)]) (href s)
                  (appsToUnload (frames s c)) (fun x s _ => calls_at_ext_call s OpUnload x)
                  s eq_refl) as (_ & E & _).
    rewrite E1 in E. simpl in E. congruence. }
  apply calls_at_bind.
  { rewrite <- flat_map_singleton.
    apply (calls_at_mapM _ (fun a => [(OpUnmount, a)]) (href s)); [|done].
    intros; apply calls_at_ext_call. }
  intros unmountPromises s2 E2.
  assert (href s2 = href s) as U2.
  { pose proof (calls_at_mapM toUnmountPromise (fun a => [(OpUnmount, a)]) (href s)
                  (appsToUnmount (frames s c)) (fun x s _ => calls_at_ext_call s OpUnmount x)
                  s1 U1) as (_ & E & _).
    rewrite E2 in E. simpl in E. congruence. }
  assert (forall {A} (m : M A) a s3 s4, rel (same rest) m -> m s3 = (Ok a, s4) ->
            href s3 = href s -> href s4 = href s) as Hq.
  { intros A m a s3 s4 Hm E Hu. specialize (Hm s3). rewrite E in Hm.
    unfold same in Hm. apply rest_fields in Hm. simpl in Hm. destruct_and?. congruence. }
  change (map (pair OpBootstrap) ?l) with ([] ++ map (pair OpBootstrap) l).
  apply calls_at_bind.
  { apply calls_at_quiet; [apply returns_mapM; intros; apply returns_then|walk]. }
  intros unmountUnloadPromises s3 E3.
  assert (href s3 = href s) as U3 by (eapply Hq; [|exact E3|exact U2]; walk).
  cbv zeta.
  change (map (pair OpBootstrap) ?l) with ([] ++ map (pair OpBootstrap) l).
  apply calls_at_bind; [apply calls_at_quiet; [apply returns_promise_all|walk]|].
  intros unmountAllPromise s4 E4.
  assert (href s4 = href s) as U4 by (eapply Hq; [|exact E4|exact U3]; walk).
  change (map (pair OpBootstrap) ?l) with ([] ++ map (pair OpBootstrap) l).
  apply calls_at_bind; [apply calls_at_quiet; [apply returns_then|walk]|].
  intros d0 s5 E5.
  assert (href s5 = href s) as U5 by (eapply Hq; [|exact E5|exact U4]; walk).
  change (map (pair OpBootstrap) ?l) with ([] ++ map (pair OpBootstrap) l).
  apply calls_at_bind.
  { apply calls_at_quiet; [|walk].
    apply returns_mapM; intros a. apply returns_bind; [|intros; apply returns_then].
    unfold toLoadPromise. apply returns_bind; [apply returns_promise_resolve|].
    intros; apply returns_then. }
  intros loadThenMountPromises s6 E6.
  assert (href s6 = href s) as U6 by (eapply Hq; [|exact E6|exact U5]; walk).
  rewrite <- (app_nil_r (map _ _)).
  apply calls_at_bind.
  { rewrite <- (flat_map_if (fun a => shouldBeActive W a (href s)) (pair OpBootstrap)).
    apply (calls_at_mapM _ (fun a => if shouldBeActive W a (href s)
                                     then [(OpBootstrap, a)] else []) (href s)); [|done].
    intros a s7 <-. apply calls_at_tryToBootstrapAndMount. }
  intros mountPromises s7 _.
  change (@nil (extop * appid)) with (@nil (extop * appid) ++ []).
  apply calls_at_bind; [apply calls_at_quiet; [apply returns_then|walk]|].
  intros d1 s8 _.
  change (@nil (extop * appid)) with (@nil (extop * appid) ++ []).
  apply calls_at_bind; [apply calls_at_quiet; [apply returns_then|walk]|].
  intros d2 s9 _. apply calls_at_ret.
Qed.

End Drivers.

(** X15 -- [reroute.js], [performAppChanges]: when no [cancelNavigation]
    value is truthy, the callback that receives the values returns without
    throwing and calls, at once and in this order, the unload driver for each
    application of [appsToUnload], the unmount driver for each one of
    [appsToUnmount], and the bootstrap driver for each application of
    [appsToMount] that is not in [appsToLoad] and is active at the current
    location.  It adds nothing else to the trace (no event, no listener, no
    [replaceState]), and it changes neither the location nor
    [appChangeUnderway] nor the records of the calls. *)
Theorem uncancelled_call_unloads_unmounts_bootstraps (W : world) (c : cid) (v : val) (s : state) :
  existsb truthy (values_of v) = false ->
  let s' := snd (cancel_values W c v s) in
  let f := frames s c in
  (exists r, fst (cancel_values W c v s) = Ok r) /\
  href s' = href s /\ appChangeUnderway s' = appChangeUnderway s /\
  nframes s' = nframes s /\ frames s' = frames s /\
  (exists new,
     trace s' = trace s ++ new /\
     (forall o, o ∈ new -> exists op a p, o = ObsCall op a p) /\
     map (fun x => (x.1.1, x.1.2)) (driver_calls new) =
       map (pair OpUnload) (appsToUnload f) ++
       map (pair OpUnmount) (appsToUnmount f) ++
       map (pair OpBootstrap)
         (filter (fun a => shouldBeActive W a (href s) = true)
            (filter (fun a => a ∉ appsToLoad f) (appsToMount f)))).
Proof.
  intros Hv s' f. subst s' f.
  destruct (calls_at_cancel_values W c v s Hv) as (Hr & E & new & T & F & O).
  split_and!; try (inversion E; congruence); try done.
  exists new. split_and!; [done| |exact O].
  intros o Ho. rewrite list.Forall_forall in F. destruct (F o Ho) as [x Hx].
  destruct o; simpl in Hx; try done. by eauto.
Qed.

Lemma uncancelled_call_unloads_unmounts_bootstraps_witness :
  existsb truthy (values_of (VList [])) = false /\
  exists new,
    trace (snd (cancel_values (Demo.page (JObject Demo.module_ok)) 1 (VList []) Demo.b_loaded)) =
      trace Demo.b_loaded ++ new /\
    map (fun x => (x.1.1, x.1.2)) (driver_calls new) =
      map (pair OpUnload) (appsToUnload (frames Demo.b_loaded 1)) ++
      map (pair OpUnmount) (appsToUnmount (frames Demo.b_loaded 1)) ++
      map (pair OpBootstrap)
        (filter (fun a => shouldBeActive (Demo.page (JObject Demo.module_ok)) a
                            (href Demo.b_loaded) = true)
           (filter (fun a => a ∉ appsToLoad (frames Demo.b_loaded 1))
              (appsToMount (frames Demo.b_loaded 1)))).
Proof.
  split; [reflexivity|].
  destruct (uncancelled_call_unloads_unmounts_bootstraps (Demo.page (JObject Demo.module_ok))
              1 (VList []) Demo.b_loaded eq_refl) as (_ & _ & _ & _ & _ & new & T & _ & O).
  exists new. by split.
Defined.
